(** * CrossPoint Calendar worker: rendering and BMP encoding

    A shallow embedding of [worker/src/index.ts]: the bitmap-font
    rasterizer, the shape and icon primitives, the page composer
    [renderDisplay], the encoder [createBMP], the dimension handling
    of the request handler and what [fetchWeather] and
    [fetchCalendarEvents] do with a response, followed by the
    properties proved of them.

    Conventions of the embedding.
    - JavaScript numbers that hold integers are [Z]; the arithmetic of
      the source stays far below 2^53, where doubles are exact.  What
      [parseInt] returns is a [number]: NaN, an infinity, or the
      double nearest to the integer that was read.
    - A [Uint8Array] is a [list Z] of bytes.  An indexed store
      [a[i] = v] outside [0, length) is ignored, as the language
      specifies for typed arrays, and the value is reduced modulo 256.
    - The source never reads [pixels]; every primitive is therefore
      given by the sequence of stores it issues, in program order, and
      the buffer is obtained by replaying them ([apply_writes]).
      [renderDisplay] is a sequence of calls to the primitives on its
      one buffer: the model lists the calls ([render_calls]) and runs
      them ([run]).
    - A string is the list of its UTF-16 code units.  [text.length]
      counts code units, [for (const char of text)] iterates code
      points ([code_points]). *)

From Stdlib Require Import ZArith QArith Qround Lqa List String Ascii Lia DecimalString
  DecimalPos Sorted.
From stdpp Require Import base option list numbers.
Import ListNotations.
Open Scope Z_scope.

(* ===================================================================== *)
(** ** Typed arrays and stores *)
(* ===================================================================== *)

(** One indexed store [pixels[idx] = val] issued by the program. *)
Definition write : Type := Z * Z.

(** [a[idx] = v] on a [Uint8Array]. *)
Definition store (a : list Z) (idx v : Z) : list Z :=
  if (0 <=? idx) && (idx <? Z.of_nat (length a))
  then <[Z.to_nat idx := v mod 256]> a
  else a.

Definition apply_writes (a : list Z) (ws : list write) : list Z :=
  fold_left (fun acc w => store acc (fst w) (snd w)) ws a.

(** [a[idx]] read from a typed array; [undefined] outside the array. *)
Definition load (a : list Z) (idx : Z) : option Z :=
  if 0 <=? idx then a !! Z.to_nat idx else None.

(** [new Uint8Array(n)]: zero-filled; a negative length raises
    RangeError.  An engine also refuses a length above the largest it
    supports; that bound is the engine's own and is not modelled: a
    statement that a buffer is returned is about a length that the
    engine allocates. *)
Definition newUint8Array (n : Z) : option (list Z) :=
  if n <? 0 then None else Some (replicate (Z.to_nat n) 0).

(* ===================================================================== *)
(** ** Strings *)
(* ===================================================================== *)

Abbreviation jsstring := (list Z) (only parsing).

Definition code_of (c : ascii) : Z := Z.of_N (N_of_ascii c).

(** An ASCII literal of the source as a list of code units. *)
Definition js (s : string) : jsstring := map code_of (list_ascii_of_string s).

Definition is_high_surrogate (c : Z) : bool := (0xD800 <=? c) && (c <=? 0xDBFF).
Definition is_low_surrogate (c : Z) : bool := (0xDC00 <=? c) && (c <=? 0xDFFF).

(** The string iterator behind [for (const char of text)]: a high
    surrogate followed by a low surrogate is one element of two code
    units, every other code unit is an element of its own. *)
Fixpoint code_points (t : jsstring) : list jsstring :=
  match t with
  | [] => []
  | c :: t' =>
      match t' with
      | d :: t'' =>
          if is_high_surrogate c && is_low_surrogate d
          then [c; d] :: code_points t''
          else [c] :: code_points t'
      | [] => [[c]]
      end
  end.

(** [t.slice(start, end)] with the relative-index rule of the language:
    a negative index counts from the end, and both are clamped to
    [0, length]. *)
Definition slice_index (len i : Z) : Z :=
  if i <? 0 then Z.max (len + i) 0 else Z.min i len.

Definition slice (t : jsstring) (start stop : Z) : jsstring :=
  let len := Z.of_nat (length t) in
  let from := slice_index len start in
  let to := slice_index len stop in
  take (Z.to_nat (to - from)) (drop (Z.to_nat from) t).

(** Template-literal formatting of an integer: [`${n}`], the decimal
    digits of [n] after a minus sign when it is negative; that is
    what the language prints for an integer of at most 53 bits, which
    the numbers printed by the worker are taken to be. *)
Definition numToString (n : Z) : jsstring :=
  js (NilZero.string_of_int (Z.to_int n)).

(** [arr[i]] inside a template literal: an index outside the array
    yields [undefined], printed as such. *)
Definition nameAt (names : list jsstring) (i : Z) : jsstring :=
  match (if 0 <=? i then names !! Z.to_nat i else None) with
  | Some s => s
  | None => js "undefined"
  end.

(* ===================================================================== *)
(** ** Drawing primitives *)
(* ===================================================================== *)

Definition INK_BLACK : Z := 0.
Definition DARK_GRAY : Z := 64.
Definition LIGHT_GRAY : Z := 176.
Definition PAPER_WHITE : Z := 255.

(** Extended 8x12 bitmap font, keyed by a single code unit. *)
Definition FONT_TABLE : list (Z * list Z) :=
  [ (code_of "0", [0x3C;0x66;0x6E;0x76;0x66;0x66;0x3C;0x00;0x00;0x00;0x00;0x00]);
    (code_of "1", [0x18;0x38;0x18;0x18;0x18;0x18;0x7E;0x00;0x00;0x00;0x00;0x00]);
    (code_of "2", [0x3C;0x66;0x06;0x1C;0x30;0x60;0x7E;0x00;0x00;0x00;0x00;0x00]);
    (code_of "3", [0x3C;0x66;0x06;0x1C;0x06;0x66;0x3C;0x00;0x00;0x00;0x00;0x00]);
    (code_of "4", [0x0C;0x1C;0x3C;0x6C;0x7E;0x0C;0x0C;0x00;0x00;0x00;0x00;0x00]);
    (code_of "5", [0x7E;0x60;0x7C;0x06;0x06;0x66;0x3C;0x00;0x00;0x00;0x00;0x00]);
    (code_of "6", [0x1C;0x30;0x60;0x7C;0x66;0x66;0x3C;0x00;0x00;0x00;0x00;0x00]);
    (code_of "7", [0x7E;0x06;0x0C;0x18;0x30;0x30;0x30;0x00;0x00;0x00;0x00;0x00]);
    (code_of "8", [0x3C;0x66;0x66;0x3C;0x66;0x66;0x3C;0x00;0x00;0x00;0x00;0x00]);
    (code_of "9", [0x3C;0x66;0x66;0x3E;0x06;0x0C;0x38;0x00;0x00;0x00;0x00;0x00]);
    (code_of "A", [0x18;0x3C;0x66;0x66;0x7E;0x66;0x66;0x00;0x00;0x00;0x00;0x00]);
    (code_of "B", [0x7C;0x66;0x66;0x7C;0x66;0x66;0x7C;0x00;0x00;0x00;0x00;0x00]);
    (code_of "C", [0x3C;0x66;0x60;0x60;0x60;0x66;0x3C;0x00;0x00;0x00;0x00;0x00]);
    (code_of "D", [0x78;0x6C;0x66;0x66;0x66;0x6C;0x78;0x00;0x00;0x00;0x00;0x00]);
    (code_of "E", [0x7E;0x60;0x60;0x7C;0x60;0x60;0x7E;0x00;0x00;0x00;0x00;0x00]);
    (code_of "F", [0x7E;0x60;0x60;0x7C;0x60;0x60;0x60;0x00;0x00;0x00;0x00;0x00]);
    (code_of "G", [0x3C;0x66;0x60;0x6E;0x66;0x66;0x3C;0x00;0x00;0x00;0x00;0x00]);
    (code_of "H", [0x66;0x66;0x66;0x7E;0x66;0x66;0x66;0x00;0x00;0x00;0x00;0x00]);
    (code_of "I", [0x3C;0x18;0x18;0x18;0x18;0x18;0x3C;0x00;0x00;0x00;0x00;0x00]);
    (code_of "J", [0x06;0x06;0x06;0x06;0x06;0x66;0x3C;0x00;0x00;0x00;0x00;0x00]);
    (code_of "K", [0x66;0x6C;0x78;0x70;0x78;0x6C;0x66;0x00;0x00;0x00;0x00;0x00]);
    (code_of "L", [0x60;0x60;0x60;0x60;0x60;0x60;0x7E;0x00;0x00;0x00;0x00;0x00]);
    (code_of "M", [0x63;0x77;0x7F;0x6B;0x63;0x63;0x63;0x00;0x00;0x00;0x00;0x00]);
    (code_of "N", [0x66;0x76;0x7E;0x7E;0x6E;0x66;0x66;0x00;0x00;0x00;0x00;0x00]);
    (code_of "O", [0x3C;0x66;0x66;0x66;0x66;0x66;0x3C;0x00;0x00;0x00;0x00;0x00]);
    (code_of "P", [0x7C;0x66;0x66;0x7C;0x60;0x60;0x60;0x00;0x00;0x00;0x00;0x00]);
    (code_of "Q", [0x3C;0x66;0x66;0x66;0x6A;0x6C;0x36;0x00;0x00;0x00;0x00;0x00]);
    (code_of "R", [0x7C;0x66;0x66;0x7C;0x6C;0x66;0x66;0x00;0x00;0x00;0x00;0x00]);
    (code_of "S", [0x3C;0x66;0x60;0x3C;0x06;0x66;0x3C;0x00;0x00;0x00;0x00;0x00]);
    (code_of "T", [0x7E;0x18;0x18;0x18;0x18;0x18;0x18;0x00;0x00;0x00;0x00;0x00]);
    (code_of "U", [0x66;0x66;0x66;0x66;0x66;0x66;0x3C;0x00;0x00;0x00;0x00;0x00]);
    (code_of "V", [0x66;0x66;0x66;0x66;0x66;0x3C;0x18;0x00;0x00;0x00;0x00;0x00]);
    (code_of "W", [0x63;0x63;0x63;0x6B;0x7F;0x77;0x63;0x00;0x00;0x00;0x00;0x00]);
    (code_of "X", [0x66;0x66;0x3C;0x18;0x3C;0x66;0x66;0x00;0x00;0x00;0x00;0x00]);
    (code_of "Y", [0x66;0x66;0x66;0x3C;0x18;0x18;0x18;0x00;0x00;0x00;0x00;0x00]);
    (code_of "Z", [0x7E;0x06;0x0C;0x18;0x30;0x60;0x7E;0x00;0x00;0x00;0x00;0x00]);
    (code_of "a", [0x00;0x00;0x3C;0x06;0x3E;0x66;0x3E;0x00;0x00;0x00;0x00;0x00]);
    (code_of "b", [0x60;0x60;0x7C;0x66;0x66;0x66;0x7C;0x00;0x00;0x00;0x00;0x00]);
    (code_of "c", [0x00;0x00;0x3C;0x66;0x60;0x66;0x3C;0x00;0x00;0x00;0x00;0x00]);
    (code_of "d", [0x06;0x06;0x3E;0x66;0x66;0x66;0x3E;0x00;0x00;0x00;0x00;0x00]);
    (code_of "e", [0x00;0x00;0x3C;0x66;0x7E;0x60;0x3C;0x00;0x00;0x00;0x00;0x00]);
    (code_of "f", [0x1C;0x36;0x30;0x7C;0x30;0x30;0x30;0x00;0x00;0x00;0x00;0x00]);
    (code_of "g", [0x00;0x00;0x3E;0x66;0x66;0x3E;0x06;0x3C;0x00;0x00;0x00;0x00]);
    (code_of "h", [0x60;0x60;0x7C;0x66;0x66;0x66;0x66;0x00;0x00;0x00;0x00;0x00]);
    (code_of "i", [0x18;0x00;0x38;0x18;0x18;0x18;0x3C;0x00;0x00;0x00;0x00;0x00]);
    (code_of "j", [0x0C;0x00;0x1C;0x0C;0x0C;0x0C;0x6C;0x38;0x00;0x00;0x00;0x00]);
    (code_of "k", [0x60;0x60;0x66;0x6C;0x78;0x6C;0x66;0x00;0x00;0x00;0x00;0x00]);
    (code_of "l", [0x38;0x18;0x18;0x18;0x18;0x18;0x3C;0x00;0x00;0x00;0x00;0x00]);
    (code_of "m", [0x00;0x00;0x76;0x7F;0x6B;0x6B;0x63;0x00;0x00;0x00;0x00;0x00]);
    (code_of "n", [0x00;0x00;0x7C;0x66;0x66;0x66;0x66;0x00;0x00;0x00;0x00;0x00]);
    (code_of "o", [0x00;0x00;0x3C;0x66;0x66;0x66;0x3C;0x00;0x00;0x00;0x00;0x00]);
    (code_of "p", [0x00;0x00;0x7C;0x66;0x66;0x7C;0x60;0x60;0x00;0x00;0x00;0x00]);
    (code_of "q", [0x00;0x00;0x3E;0x66;0x66;0x3E;0x06;0x06;0x00;0x00;0x00;0x00]);
    (code_of "r", [0x00;0x00;0x6E;0x76;0x60;0x60;0x60;0x00;0x00;0x00;0x00;0x00]);
    (code_of "s", [0x00;0x00;0x3E;0x60;0x3C;0x06;0x7C;0x00;0x00;0x00;0x00;0x00]);
    (code_of "t", [0x30;0x30;0x7C;0x30;0x30;0x36;0x1C;0x00;0x00;0x00;0x00;0x00]);
    (code_of "u", [0x00;0x00;0x66;0x66;0x66;0x66;0x3E;0x00;0x00;0x00;0x00;0x00]);
    (code_of "v", [0x00;0x00;0x66;0x66;0x66;0x3C;0x18;0x00;0x00;0x00;0x00;0x00]);
    (code_of "w", [0x00;0x00;0x63;0x6B;0x6B;0x7F;0x36;0x00;0x00;0x00;0x00;0x00]);
    (code_of "x", [0x00;0x00;0x66;0x3C;0x18;0x3C;0x66;0x00;0x00;0x00;0x00;0x00]);
    (code_of "y", [0x00;0x00;0x66;0x66;0x66;0x3E;0x06;0x3C;0x00;0x00;0x00;0x00]);
    (code_of "z", [0x00;0x00;0x7E;0x0C;0x18;0x30;0x7E;0x00;0x00;0x00;0x00;0x00]);
    (code_of " ", [0x00;0x00;0x00;0x00;0x00;0x00;0x00;0x00;0x00;0x00;0x00;0x00]);
    (code_of ":", [0x00;0x18;0x18;0x00;0x18;0x18;0x00;0x00;0x00;0x00;0x00;0x00]);
    (code_of ".", [0x00;0x00;0x00;0x00;0x00;0x18;0x18;0x00;0x00;0x00;0x00;0x00]);
    (code_of ",", [0x00;0x00;0x00;0x00;0x00;0x18;0x18;0x30;0x00;0x00;0x00;0x00]);
    (code_of "-", [0x00;0x00;0x00;0x7E;0x00;0x00;0x00;0x00;0x00;0x00;0x00;0x00]);
    (code_of "/", [0x06;0x0C;0x18;0x30;0x60;0x40;0x00;0x00;0x00;0x00;0x00;0x00]);
    (0xB0 (* the degree sign *),
                  [0x1C;0x36;0x36;0x1C;0x00;0x00;0x00;0x00;0x00;0x00;0x00;0x00]);
    (code_of "'", [0x18;0x18;0x30;0x00;0x00;0x00;0x00;0x00;0x00;0x00;0x00;0x00]);
    (code_of "(", [0x0C;0x18;0x30;0x30;0x30;0x18;0x0C;0x00;0x00;0x00;0x00;0x00]);
    (code_of ")", [0x30;0x18;0x0C;0x0C;0x0C;0x18;0x30;0x00;0x00;0x00;0x00;0x00]);
    (code_of "+", [0x00;0x18;0x18;0x7E;0x18;0x18;0x00;0x00;0x00;0x00;0x00;0x00]) ].

Fixpoint assoc (k : Z) (tbl : list (Z * list Z)) : option (list Z) :=
  match tbl with
  | [] => None
  | (k', v) :: rest => if k =? k' then Some v else assoc k rest
  end.

(** [FONT_DATA[char]]: every key of the table is one code unit long. *)
Definition FONT_DATA (char : jsstring) : option (list Z) :=
  match char with
  | [c] => assoc c FONT_TABLE
  | _ => None
  end.

Definition drawChar (width x y : Z) (char : jsstring) (color scale : Z) : list write :=
  match FONT_DATA char with
  | None => []
  | Some data =>
      row ← seqZ 0 8;
      let rowData := nth (Z.to_nat row) data 0 in
      col ← seqZ 0 8;
      if Z.land rowData (Z.shiftr 0x80 col) =? 0 then [] else
      sy ← seqZ 0 scale;
      sx ← seqZ 0 scale;
      let px := x + col * scale + sx in
      let py := y + row * scale + sy in
      if (0 <=? px) && (px <? width) && (0 <=? py)
      then [(py * width + px, color)]
      else []
  end.

(** The loop of [drawText]: the stores of the glyphs and the cursor
    [cx] when the loop ends. *)
Fixpoint drawText_loop (width cx y : Z) (chars : list jsstring) (color scale : Z)
  : list write * Z :=
  match chars with
  | [] => ([], cx)
  | char :: rest =>
      let r := drawText_loop width (cx + 8 * scale) y rest color scale in
      (drawChar width cx y char color scale ++ fst r, snd r)
  end.

Definition drawText (width x y : Z) (text : jsstring) (color scale : Z) : list write :=
  fst (drawText_loop width x y (code_points text) color scale).

(** The cursor after [drawText] has processed [text]. *)
Definition drawText_cursor (width x y : Z) (text : jsstring) (color scale : Z) : Z :=
  snd (drawText_loop width x y (code_points text) color scale).

Definition getTextWidth (text : jsstring) (scale : Z) : Z :=
  Z.of_nat (length text) * 8 * scale.

Definition drawCenteredText (width y : Z) (text : jsstring) (color scale : Z) : list write :=
  let textWidth := getTextWidth text scale in
  let x := (width - textWidth) / 2 in
  drawText width x y text color scale.

Definition drawRightAlignedText (width y : Z) (text : jsstring) (color scale margin : Z)
  : list write :=
  let textWidth := getTextWidth text scale in
  let x := width - margin - textWidth in
  drawText width x y text color scale.

Definition fillRect (width height x y w h color : Z) : list write :=
  py ← seqZ y (Z.min (y + h) height - y);
  px ← seqZ x (Z.min (x + w) width - x);
  if (0 <=? px) && (0 <=? py) then [(py * width + px, color)] else [].

Definition drawHLine (width y x1 x2 color thickness : Z) : list write :=
  fillRect width 9999 x1 y (x2 - x1) thickness color.

(** The [while (x < x2)] loop of [drawDashedHLine], one iteration per
    unfolding: a dash when [drawing], a gap otherwise.  The model
    counts the iterations down from [fuel] and answers [None] when
    they run out. *)
Fixpoint dashed_loop (fuel : nat) (width y x x2 : Z) (drawing : bool)
    (color dashLen gapLen : Z) : option (list write) :=
  if x <? x2 then
    match fuel with
    | O => None
    | S fuel' =>
        if drawing then
          let end_ := Z.min (x + dashLen) x2 in
          rest ← dashed_loop fuel' width y (x + dashLen) x2 false color dashLen gapLen;
          Some ((px ← seqZ x (end_ - x); [(y * width + px, color)]) ++ rest)
        else
          dashed_loop fuel' width y (x + gapLen) x2 true color dashLen gapLen
    end
  else Some [].

(** A dash and a gap together move [x] by [dashLen + gapLen].  When
    that sum is positive the loop exits within [2 * (x2 - x1)]
    iterations; when it is not, the loop exits in one of its first two
    tests or never.  So [2 * (x2 - x1)] iterations are enough whenever
    the loop of the source ends ([dashed_loop_fuel]); when it does not
    end the call never returns, and the model lists no stores. *)
Definition drawDashedHLine (width y x1 x2 color dashLen gapLen : Z) : list write :=
  default []
    (dashed_loop (Z.to_nat (2 * (x2 - x1))) width y x1 x2 true color dashLen gapLen).

(** [Math.round] of an exact rational: the nearest integer, halves
    upwards. *)
Definition jsRound (q : Q) : Z := Qfloor (q + (1 # 2))%Q.

(** [Math.round(a + d * t / 10)] for integers [a], [d], [t]. *)
Definition roundTenths (a d t : Z) : Z := (10 * a + d * t + 5) / 10.

Section Icons.

(** The icon outlines are computed in floating point.
    [round_cos c r deg] stands for
    [Math.round(c + r * Math.cos(deg * Math.PI / 180))] and
    [round_sin c r deg] for the same with [Math.sin]; [c] and [r] are
    the exact values of the centre and radius expressions. *)
Context (round_cos round_sin : Q → Q → Z → Z).

Definition drawCloudShape (width x y w h : Z) : list write :=
  let cx1 := (inject_Z x + inject_Z w * 0.3)%Q in
  let cy1 := (inject_Z y + inject_Z h * 0.4)%Q in
  let r1 := (inject_Z h * 0.4)%Q in
  let cx2 := (inject_Z x + inject_Z w * 0.6)%Q in
  let cy2 := (inject_Z y + inject_Z h * 0.3)%Q in
  let r2 := (inject_Z h * 0.5)%Q in
  let cx3 := (inject_Z x + inject_Z w * 0.8)%Q in
  let cy3 := (inject_Z y + inject_Z h * 0.5)%Q in
  let r3 := (inject_Z h * 0.35)%Q in
  let dot (cx cy r : Q) (angle : Z) : list write :=
    let px := round_cos cx r angle in
    let py := round_sin cy r angle in
    if (0 <=? px) && (px <? width) && (0 <=? py)
    then [(py * width + px, INK_BLACK)] else [] in
  (* for (angle = 180; angle <= 360; angle += 3) *)
  (k ← seqZ 0 61;
   let angle := 180 + 3 * k in
   dot cx1 cy1 r1 angle ++ dot cx2 cy2 r2 angle ++ dot cx3 cy3 r3 angle)
  ++ drawHLine width (jsRound (inject_Z y + inject_Z h * 0.75)%Q)
       (jsRound (inject_Z x + inject_Z w * 0.1)%Q)
       (jsRound (inject_Z x + inject_Z w * 0.95)%Q) INK_BLACK 1.

(** Sun: circle with rays. *)
Definition sunIcon (width x y : Z) : list write :=
  let cx := x + 24 in
  let cy := y + 24 in
  let r := 14 in
  (* for (angle = 0; angle < 360; angle += 5) *)
  (k ← seqZ 0 72;
   let angle := 5 * k in
   let px := round_cos (inject_Z cx) (inject_Z r) angle in
   let py := round_sin (inject_Z cy) (inject_Z r) angle in
   if (0 <=? px) && (px <? width) then [(py * width + px, INK_BLACK)] else [])
  ++
  (i ← seqZ 0 8;
   let angle := i * 45 in
   let r1 := r + 4 in
   let r2 := r + 10 in
   let x1 := round_cos (inject_Z cx) (inject_Z r1) angle in
   let y1 := round_sin (inject_Z cy) (inject_Z r1) angle in
   let x2 := round_cos (inject_Z cx) (inject_Z r2) angle in
   let y2 := round_sin (inject_Z cy) (inject_Z r2) angle in
   t ← seqZ 0 11;
   let px := roundTenths x1 (x2 - x1) t in
   let py := roundTenths y1 (y2 - y1) t in
   if (0 <=? px) && (px <? width) && (0 <=? py)
   then [(py * width + px, INK_BLACK)] else []).

Definition cloudIcon (width x y : Z) : list write :=
  drawCloudShape width (x + 8) (y + 16) 32 20.

(** Fog: horizontal lines. *)
Definition fogIcon (width x y : Z) : list write :=
  i ← seqZ 0 4;
  let ly := y + 12 + i * 10 in
  drawHLine width ly (x + 4) (x + 48 - 4) DARK_GRAY 2.

(** Rain: cloud with drops. *)
Definition rainIcon (width x y : Z) : list write :=
  drawCloudShape width (x + 8) (y + 8) 32 16
  ++ (i ← seqZ 0 3;
      let dx := x + 14 + i * 10 in
      let dy := y + 32 in
      j ← seqZ 0 8;
      [((dy + j) * width + dx, INK_BLACK)]).

(** Snow: cloud with snowflakes. *)
Definition snowIcon (width x y : Z) : list write :=
  drawCloudShape width (x + 8) (y + 8) 32 16
  ++ (i ← seqZ 0 3;
      let sx := x + 14 + i * 10 in
      let sy := y + 36 in
      [ (sy * width + sx, INK_BLACK);
        ((sy - 2) * width + sx, INK_BLACK);
        ((sy + 2) * width + sx, INK_BLACK);
        (sy * width + sx - 2, INK_BLACK);
        (sy * width + sx + 2, INK_BLACK) ]).

(** Thunderstorm: cloud with lightning bolt. *)
Definition thunderstormIcon (width x y : Z) : list write :=
  drawCloudShape width (x + 8) (y + 4) 32 16
  ++ (let lx := x + 24 in
      let ly := y + 24 in
      i ← seqZ 0 12;
      let px := lx + (if i <? 6 then - i else i - 12) in
      let py := ly + i * 2 in
      [ (py * width + px, INK_BLACK); (py * width + px + 1, INK_BLACK) ]).

(** Unknown: question mark. *)
Definition unknownIcon (width x y : Z) : list write :=
  drawText width (x + 16) (y + 16) (js "?") INK_BLACK 3.

Definition drawWeatherIcon (width x y code : Z) : list write :=
  if (code =? 0) || (code =? 1) then sunIcon width x y
  else if (2 <=? code) && (code <=? 3) then cloudIcon width x y
  else if (45 <=? code) && (code <=? 48) then fogIcon width x y
  else if ((51 <=? code) && (code <=? 67)) || ((80 <=? code) && (code <=? 82))
    then rainIcon width x y
  else if ((71 <=? code) && (code <=? 77)) || ((85 <=? code) && (code <=? 86))
    then snowIcon width x y
  else if 95 <=? code then thunderstormIcon width x y
  else unknownIcon width x y.

End Icons.

(** The icon kinds and the range table of the specification, for
    comparison with the conditional chain of [drawWeatherIcon]. *)
Inductive icon : Type :=
  Sun | Cloud | Fog | Rain | Snow | Thunderstorm | Unknown.

(** Rows [(lo, hi, icon)]; [hi = None] is an open upper end. *)
Definition icon_table : list (Z * option Z * icon) :=
  [ (0, Some 1, Sun); (2, Some 3, Cloud); (45, Some 48, Fog);
    (51, Some 67, Rain); (80, Some 82, Rain);
    (71, Some 77, Snow); (85, Some 86, Snow);
    (95, None, Thunderstorm) ].

Definition in_range (code : Z) (row : Z * option Z * icon) : bool :=
  let '(lo, hi, _) := row in
  (lo <=? code) && match hi with Some h => code <=? h | None => true end.

Fixpoint lookup_icon (code : Z) (table : list (Z * option Z * icon)) : icon :=
  match table with
  | [] => Unknown
  | row :: rest => if in_range code row then snd row else lookup_icon code rest
  end.

Definition icon_for_code (code : Z) : icon := lookup_icon code icon_table.

Definition draw_icon (round_cos round_sin : Q → Q → Z → Z)
    (width x y : Z) (k : icon) : list write :=
  match k with
  | Sun => sunIcon round_cos round_sin width x y
  | Cloud => cloudIcon round_cos round_sin width x y
  | Fog => fogIcon width x y
  | Rain => rainIcon round_cos round_sin width x y
  | Snow => snowIcon round_cos round_sin width x y
  | Thunderstorm => thunderstormIcon round_cos round_sin width x y
  | Unknown => unknownIcon width x y
  end.

(* ===================================================================== *)
(** ** Main rendering *)
(* ===================================================================== *)

Record WeatherData : Type := {
  temperature : Z;
  temperatureHigh : Z;
  temperatureLow : Z;
  condition : jsstring;
  conditionCode : Z
}.

Record CalendarEvent : Type := {
  time : jsstring;
  title : jsstring;
  isAllDay : bool
}.

Record DayEvents : Type := {
  label : jsstring;
  date : Z;
  events : list CalendarEvent
}.

(** What [renderDisplay] observes of the [Date] it is given. *)
Record DateView : Type := {
  getDay : Z;
  getMonth : Z;
  getDate : Z;
  toLocaleTimeString : jsstring
}.

Definition DAY_NAMES : list jsstring :=
  [js "SUNDAY"; js "MONDAY"; js "TUESDAY"; js "WEDNESDAY"; js "THURSDAY";
   js "FRIDAY"; js "SATURDAY"].

Definition monthNames : list jsstring :=
  [js "JAN"; js "FEB"; js "MAR"; js "APR"; js "MAY"; js "JUN"; js "JUL";
   js "AUG"; js "SEP"; js "OCT"; js "NOV"; js "DEC"].

Definition MARGIN : Z := 24.
Definition FOOTER_HEIGHT : Z := 50.
Definition weatherSectionHeight : Z := 180.
Definition dateSectionEnd : Z := weatherSectionHeight + 70.
Definition eventRowHeight : Z := 45.
Definition dayHeaderHeight : Z := 40.
Definition timeColumnWidth : Z := 100.

(** The title loop: one test of the loop condition and, when it holds,
    the body.  [None] when the fuel is used up before the condition
    fails. *)
Definition truncate_cond (maxTitleWidth : Z) (title : jsstring) : bool :=
  (getTextWidth title 2 >? maxTitleWidth) && (Z.of_nat (length title) >? 3).

Definition truncate_body (title : jsstring) : jsstring :=
  slice title 0 (-4) ++ js "...".

Fixpoint truncate_loop (fuel : nat) (maxTitleWidth : Z) (title : jsstring)
  : option jsstring :=
  if truncate_cond maxTitleWidth title then
    match fuel with
    | O => None
    | S fuel' => truncate_loop fuel' maxTitleWidth (truncate_body title)
    end
  else Some title.

(** The loop started with as many iterations as the title has code
    units, which is always enough ([truncate_loop_terminates]). *)
Definition truncateTitle (maxTitleWidth : Z) (title : jsstring) : jsstring :=
  default title (truncate_loop (length title) maxTitleWidth title).

(** The calls to the primitives that [renderDisplay] makes on its one
    shared buffer. *)
Inductive call : Type :=
  | DrawText (x y : Z) (text : jsstring) (color scale : Z)
  | DrawCenteredText (y : Z) (text : jsstring) (color scale : Z)
  | DrawRightAlignedText (y : Z) (text : jsstring) (color scale margin : Z)
  | DrawHLine (y x1 x2 color thickness : Z)
  | DrawDashedHLine (y x1 x2 color dashLen gapLen : Z)
  | DrawWeatherIcon (x y code : Z).

(** The "+N more..." line of a day that is cut off at [eventY]. *)
Definition more_marker (eventY remaining : Z) : call :=
  DrawText MARGIN eventY (js "+" ++ numToString remaining ++ js " more...") LIGHT_GRAY 2.

(** The calls that paint one event at [eventY]. *)
Definition event_calls (width maxContentY : Z) (isToday : bool) (total : Z)
    (event : CalendarEvent) (eventIndex eventY : Z) : list call :=
  let contentWidth := width - MARGIN * 2 in
  let eventColor := if isToday then INK_BLACK else DARK_GRAY in
  let maxTitleWidth := contentWidth - timeColumnWidth - 10 in
  let title := truncateTitle maxTitleWidth (title event) in
  [ DrawText MARGIN eventY (time event) eventColor 2;
    DrawText (MARGIN + timeColumnWidth) eventY title eventColor 2 ]
  ++ (if (eventIndex <? total - 1) && (eventY + 26 + eventRowHeight <=? maxContentY)
      then [DrawHLine (eventY + 26) MARGIN (width - MARGIN) LIGHT_GRAY 1]
      else []).

(** The inner loop over [day.events], from [eventIndex] on: [rest] is
    [day.events.slice(eventIndex)] and [total] is [day.events.length].
    Returns the calls and the final [eventY]. *)
Fixpoint renderEvents (width maxContentY : Z) (isToday : bool) (total : Z)
    (rest : list CalendarEvent) (eventIndex eventY : Z) : list call * Z :=
  match rest with
  | [] => ([], eventY)
  | event :: rest' =>
      if eventY + 30 >? maxContentY then
        let remaining := total - eventIndex in
        if remaining >? 0
        then ([more_marker eventY remaining], eventY + 30)
        else ([], eventY)
      else
        let r := renderEvents width maxContentY isToday total rest'
                   (eventIndex + 1) (eventY + 26 + (eventRowHeight - 26)) in
        (event_calls width maxContentY isToday total event eventIndex eventY ++ fst r,
         snd r)
  end.

(** The outer loop over [days], from [dayIndex] on. *)
Fixpoint renderDays (width maxContentY : Z) (days : list DayEvents)
    (dayIndex eventY : Z) : list call :=
  match days with
  | [] => []
  | day :: days' =>
      let isFirstDay := dayIndex =? 0 in
      let isToday := bool_decide (label day = js "TODAY") in
      let minSpaceNeeded := dayHeaderHeight + eventRowHeight in
      if eventY + minSpaceNeeded >? maxContentY then []
      else
        let separator :=
          if isFirstDay then []
          else [DrawDashedHLine eventY MARGIN (width - MARGIN) DARK_GRAY 6 4] in
        let eventY1 := if isFirstDay then eventY else eventY + 15 in
        let labelColor := if isToday then INK_BLACK else DARK_GRAY in
        let eventY2 := eventY1 + (dayHeaderHeight - 5) in
        separator
        ++ DrawText MARGIN eventY1 (label day) labelColor 2
        :: (if Z.of_nat (length (events day)) =? 0 then
              DrawText (MARGIN + timeColumnWidth) eventY2 (js "No events") LIGHT_GRAY 2
              :: renderDays width maxContentY days' (dayIndex + 1) (eventY2 + eventRowHeight)
            else
              let r := renderEvents width maxContentY isToday
                         (Z.of_nat (length (events day))) (events day) 0 eventY2 in
              fst r ++ renderDays width maxContentY days' (dayIndex + 1) (snd r))
  end.

(** The weather section of [renderDisplay] (rows 0-180): temperature,
    degree sign, icon, location, condition and high/low. *)
Definition weather_calls (weather : WeatherData) : list call :=
  let tempStr := numToString (temperature weather) in
  let tempWidth := getTextWidth tempStr 10 in
  let rightX := 240 in
  let hiLoStr := js "H:" ++ numToString (temperatureHigh weather)
                 ++ js " L:" ++ numToString (temperatureLow weather) in
  [ DrawText MARGIN 30 tempStr INK_BLACK 10;
    DrawText (MARGIN + tempWidth) 30 [0xB0] INK_BLACK 4;
    DrawWeatherIcon rightX 20 (conditionCode weather);
    DrawText (rightX + 56) 28 (js "BROOKLYN NY") INK_BLACK 2;
    DrawText (rightX + 56) 60 (condition weather) DARK_GRAY 2;
    DrawText (rightX + 56) 92 hiLoStr DARK_GRAY 2 ].

(** The bottom border of the weather section. *)
Definition weather_rule (width : Z) : call :=
  DrawHLine weatherSectionHeight MARGIN (width - MARGIN) INK_BLACK 3.

(** The date header (rows 180-250) and its bottom border. *)
Definition date_calls (width : Z) (now : DateView) : list call :=
  let dateStr := nameAt DAY_NAMES (getDay now) ++ js ", "
                 ++ nameAt monthNames (getMonth now) ++ js " "
                 ++ numToString (getDate now) in
  [ DrawCenteredText (weatherSectionHeight + 20) dateStr INK_BLACK 3;
    DrawHLine dateSectionEnd MARGIN (width - MARGIN) INK_BLACK 2 ].

(** The calendar events: the loop over the days, started at
    [eventY = dateSectionEnd + 20] with [maxContentY = height - FOOTER_HEIGHT]. *)
Definition agenda_calls (width height : Z) (days : list DayEvents) : list call :=
  renderDays width (height - FOOTER_HEIGHT) days 0 (dateSectionEnd + 20).

(** The footer: its top border and the timestamp. *)
Definition footer_calls (width height : Z) (generatedAt : DateView) : list call :=
  let footerY := height - 30 in
  let genStr := js "Generated " ++ toLocaleTimeString generatedAt in
  [ DrawHLine (footerY - 10) MARGIN (width - MARGIN) LIGHT_GRAY 1;
    DrawRightAlignedText footerY genStr DARK_GRAY 1 MARGIN ].

(** All calls of [renderDisplay], in program order. *)
Definition render_calls (width height : Z) (weather : WeatherData)
    (days : list DayEvents) (generatedAt : DateView) : list call :=
  weather_calls weather ++ [weather_rule width]
  ++ date_calls width generatedAt
  ++ agenda_calls width height days
  ++ footer_calls width height generatedAt.

Section Render.

Context (round_cos round_sin : Q → Q → Z → Z).

(** The stores a call issues on a buffer [width] pixels wide. *)
Definition run (width : Z) (c : call) : list write :=
  match c with
  | DrawText x y text color scale => drawText width x y text color scale
  | DrawCenteredText y text color scale => drawCenteredText width y text color scale
  | DrawRightAlignedText y text color scale margin =>
      drawRightAlignedText width y text color scale margin
  | DrawHLine y x1 x2 color thickness => drawHLine width y x1 x2 color thickness
  | DrawDashedHLine y x1 x2 color dashLen gapLen =>
      drawDashedHLine width y x1 x2 color dashLen gapLen
  | DrawWeatherIcon x y code => drawWeatherIcon round_cos round_sin width x y code
  end.

Definition run_all (width : Z) (cs : list call) : list write :=
  c ← cs; run width c.

Definition render_writes (width height : Z) (weather : WeatherData)
    (days : list DayEvents) (generatedAt : DateView) : list write :=
  run_all width (render_calls width height weather days generatedAt).

(** [None] is the RangeError of [new Uint8Array(width * height)]. *)
Definition renderDisplay (width height : Z) (weather : WeatherData)
    (days : list DayEvents) (generatedAt : DateView) : option (list Z) :=
  pixels ← newUint8Array (width * height);
  let pixels := replicate (length pixels) PAPER_WHITE in
  Some (apply_writes pixels (render_writes width height weather days generatedAt)).

End Render.

(* ===================================================================== *)
(** ** BMP generation *)
(* ===================================================================== *)

(** [Math.ceil(a / b)] for integers, [b > 0]. *)
Definition ceil_div (a b : Z) : Z := - ((- a) / b).

(** The [n] low bytes of [v], least significant first (two's
    complement for a negative [v]). *)
Fixpoint le_bytes (n : nat) (v : Z) : list Z :=
  match n with
  | O => []
  | S n' => v mod 256 :: le_bytes n' (v / 256)
  end.

(** [view.setUint32(off, v, true)] and its siblings: an access that
    does not fit in the buffer raises RangeError ([None]). *)
Definition dv_set (n : nat) (buf : list Z) (off v : Z) : option (list Z) :=
  if (0 <=? off) && (off + Z.of_nat n <=? Z.of_nat (length buf))
  then Some (apply_writes buf (imap (fun k b => (off + Z.of_nat k, b)) (le_bytes n v)))
  else None.

Definition setUint32 := dv_set 4.
Definition setInt32 := dv_set 4.
Definition setUint16 := dv_set 2.

(** Little-endian readers, the inverse view used to state what the
    header holds. *)
Fixpoint from_le (bytes : list Z) : Z :=
  match bytes with
  | [] => 0
  | b :: rest => b + 256 * from_le rest
  end.

Definition dv_get (n : nat) (buf : list Z) (off : Z) : option Z :=
  if (0 <=? off) && (off + Z.of_nat n <=? Z.of_nat (length buf))
  then Some (from_le (take n (drop (Z.to_nat off) buf)))
  else None.

Definition getUint32 := dv_get 4.
Definition getUint16 := dv_get 2.
Definition getInt32 (buf : list Z) (off : Z) : option Z :=
  (fun u => if u <? 2 ^ 31 then u else u - 2 ^ 32) <$> dv_get 4 buf off.

Definition palette_writes (paletteOffset : Z) : list write :=
  i ← seqZ 0 256;
  [ (paletteOffset + i * 4 + 0, i);
    (paletteOffset + i * 4 + 1, i);
    (paletteOffset + i * 4 + 2, i);
    (paletteOffset + i * 4 + 3, 0) ].

Definition pixel_writes (pixelOffset paddedRowSize width height : Z)
    (pixelData : list Z) : list write :=
  y ← seqZ 0 height;
  x ← seqZ 0 width;
  [ (pixelOffset + y * paddedRowSize + x, default 0 (load pixelData (y * width + x))) ].

Definition createBMP (width height : Z) (pixelData : list Z) : option (list Z) :=
  let paddedRowSize := ceil_div width 4 * 4 in
  let pixelDataSize := paddedRowSize * height in
  let paletteSize := 256 * 4 in
  let headerSize := 14 in
  let dibHeaderSize := 40 in
  let fileSize := headerSize + dibHeaderSize + paletteSize + pixelDataSize in
  buffer ← newUint8Array fileSize;
  (* BMP Header *)
  let buffer := store (store buffer 0 0x42) 1 0x4D in
  buffer ← setUint32 buffer 2 fileSize;
  buffer ← setUint32 buffer 6 0;
  buffer ← setUint32 buffer 10 (headerSize + dibHeaderSize + paletteSize);
  (* DIB Header *)
  buffer ← setUint32 buffer 14 dibHeaderSize;
  buffer ← setInt32 buffer 18 width;
  buffer ← setInt32 buffer 22 (- height);
  buffer ← setUint16 buffer 26 1;
  buffer ← setUint16 buffer 28 8;
  buffer ← setUint32 buffer 30 0;
  buffer ← setUint32 buffer 34 pixelDataSize;
  buffer ← setInt32 buffer 38 2835;
  buffer ← setInt32 buffer 42 2835;
  buffer ← setUint32 buffer 46 256;
  buffer ← setUint32 buffer 50 256;
  (* Grayscale palette *)
  let paletteOffset := headerSize + dibHeaderSize in
  let buffer := apply_writes buffer (palette_writes paletteOffset) in
  (* Pixel data *)
  let pixelOffset := headerSize + dibHeaderSize + paletteSize in
  Some (apply_writes buffer
          (pixel_writes pixelOffset paddedRowSize width height pixelData)).

(* ===================================================================== *)
(** ** Worker handler: display dimensions *)
(* ===================================================================== *)

Record Env : Type := {
  DISPLAY_WIDTH : option jsstring;
  DISPLAY_HEIGHT : option jsstring;
  GOOGLE_CALENDAR_API_KEY : option jsstring;
  GOOGLE_CALENDAR_ID : option jsstring
}.

Definition is_whitespace (c : Z) : bool :=
  existsb (Z.eqb c)
    [9; 10; 11; 12; 13; 32; 0xA0; 0x1680; 0x2028; 0x2029; 0x202F; 0x205F; 0x3000; 0xFEFF]
  || ((0x2000 <=? c) && (c <=? 0x200A)).

Fixpoint skip_whitespace (t : jsstring) : jsstring :=
  match t with
  | c :: t' => if is_whitespace c then skip_whitespace t' else t
  | [] => []
  end.

Definition digit_value (c : Z) : option Z :=
  if (48 <=? c) && (c <=? 57) then Some (c - 48)
  else if (97 <=? c) && (c <=? 122) then Some (c - 87)
  else if (65 <=? c) && (c <=? 90) then Some (c - 55)
  else None.

(** The value of the longest prefix of digits; [acc] is [None] until a
    digit has been read. *)
Fixpoint parse_digits (radix : Z) (t : jsstring) (acc : option Z) : option Z :=
  match t with
  | [] => acc
  | c :: t' =>
      match digit_value c with
      | Some d =>
          if d <? radix
          then parse_digits radix t' (Some (default 0 acc * radix + d))
          else acc
      | None => acc
      end
  end.

(** What [parseInt] can return: NaN, an infinity, or a finite double,
    which then holds an integer. *)
Inductive number : Type :=
  | NaN
  | Infinity (negative : bool)
  | Int (value : Z).

(** The double nearest to an integer [n], ties to the even
    significand: an integer of at most 53 bits is itself; of a longer
    one the 53 leading bits are kept and rounded by the [e] bits that
    are cut, and what reaches [2^1024] is an infinity. *)
Definition toNumber (n : Z) : number :=
  let a := Z.abs n in
  let e := Z.log2 a - 52 in
  if e <=? 0 then Int n
  else
    let q := a / 2 ^ e in
    let r := a mod 2 ^ e in
    let half := 2 ^ (e - 1) in
    let q := if r <? half then q
             else if half <? r then q + 1
             else if Z.even q then q else q + 1 in
    if 2 ^ 1024 <=? q * 2 ^ e then Infinity (n <? 0)
    else Int (Z.sgn n * (q * 2 ^ e)).

(** [parseInt(v)] with no radix argument.  A variable that is not set
    is [undefined], which reads as the text "undefined".  The result
    is the number nearest to the integer that the digits denote (the
    language lets an engine approximate a decimal text beyond its
    twentieth significant digit; the model rounds it correctly). *)
Definition parseInt (v : option jsstring) : number :=
  let t := skip_whitespace (default (js "undefined") v) in
  let '(sign, t) :=
    match t with
    | c :: t' => if c =? 45 then (-1, t') else if c =? 43 then (1, t') else (1, t)
    | [] => (1, t)
    end in
  let '(radix, t) :=
    match t with
    | a :: b :: t' =>
        if (a =? 48) && ((b =? 120) || (b =? 88)) then (16, t') else (10, t)
    | _ => (10, t)
    end in
  match parse_digits radix t None with
  | Some n => toNumber (sign * n)
  | None => NaN
  end.

(** [n || d] on a number: NaN and zero are falsy. *)
Definition or_default (n : number) (d : Z) : number :=
  match n with
  | NaN => Int d
  | Int v => if v =? 0 then Int d else Int v
  | Infinity negative => Infinity negative
  end.

Definition display_width (env : Env) : number :=
  or_default (parseInt (DISPLAY_WIDTH env)) 480.
Definition display_height (env : Env) : number :=
  or_default (parseInt (DISPLAY_HEIGHT env)) 800.

(** The body of [fetch] once the weather and the calendar have been
    fetched: the bytes of the response, [None] when it raises.  Neither
    dimension is zero or NaN, so with an infinite one the product
    [width * height] is infinite and [new Uint8Array], the first
    statement of [renderDisplay], raises RangeError. *)
Definition fetch (round_cos round_sin : Q → Q → Z → Z) (env : Env)
    (weather : WeatherData) (days : list DayEvents) (generatedAt : DateView)
  : option (list Z) :=
  match display_width env, display_height env with
  | Int width, Int height =>
      pixels ← renderDisplay round_cos round_sin width height weather days generatedAt;
      createBMP width height pixels
  | _, _ => None
  end.

(** The number of surrogate pairs that the string iterator joins. *)
Fixpoint surrogate_pairs (t : jsstring) : nat :=
  match t with
  | [] => O
  | c :: t' =>
      match t' with
      | d :: t'' =>
          if is_high_surrogate c && is_low_surrogate d
          then S (surrogate_pairs t'')
          else surrogate_pairs t'
      | [] => O
      end
  end.

(* ===================================================================== *)
(** ** Notions used in the statements *)
(* ===================================================================== *)

(** [w] stores [color] at column [px] of row [py], the column inside
    the buffer and the row not above it. *)
Definition pixel_at (width : Z) (w : write) (color px py : Z) : Prop :=
  w = (py * width + px, color) ∧ 0 ≤ px < width ∧ 0 ≤ py.

Definition is_level (v : Z) : Prop :=
  v = INK_BLACK ∨ v = DARK_GRAY ∨ v = LIGHT_GRAY ∨ v = PAPER_WHITE.

(** Calls whose colour argument is one of the four levels. *)
Definition call_levels (c : call) : Prop :=
  match c with
  | DrawText _ _ _ color _
  | DrawCenteredText _ _ color _
  | DrawRightAlignedText _ _ color _ _
  | DrawHLine _ _ _ color _
  | DrawDashedHLine _ _ _ color _ _ => is_level color
  | DrawWeatherIcon _ _ _ => True
  end.

(** How a dimension [dim] follows from the text [raw] of its variable
    and from the default [d]: the default when the variable is not
    set, when nothing follows its leading blanks, when what follows
    starts with neither a sign nor a decimal digit, when a sign is
    followed by no decimal digit, and when it is the decimal text of
    zero; the integer [n] itself, whatever its sign, when it is the
    decimal text of a non-zero [n] that a double holds exactly; and,
    in every case, what [parseInt] returned unless that is NaN or
    zero. *)
Definition dimension_rule (raw : option jsstring) (d : Z) (dim : number) : Prop :=
  (raw = None → dim = Int d)
  ∧ (∀ t, raw = Some t → skip_whitespace t = [] → dim = Int d)
  ∧ (∀ t c rest, raw = Some t → skip_whitespace t = c :: rest →
       c ≠ 43 → c ≠ 45 → ¬ 48 ≤ c ≤ 57 → dim = Int d)
  ∧ (∀ t sign rest, raw = Some t → skip_whitespace t = sign :: rest →
       sign = 43 ∨ sign = 45 →
       rest = [] ∨ (∃ c rest', rest = c :: rest' ∧ ¬ 48 ≤ c ≤ 57) →
       dim = Int d)
  ∧ (∀ n, - 2 ^ 53 < n < 2 ^ 53 → raw = Some (numToString n) →
       dim = Int (if n =? 0 then d else n))
  ∧ (parseInt raw = NaN → dim = Int d)
    ∧ (parseInt raw = Int 0 → dim = Int d)
    ∧ (∀ v, parseInt raw = Int v → v ≠ 0 → dim = Int v)
    ∧ (∀ negative, parseInt raw = Infinity negative → dim = Infinity negative).

(** How many events of [rest] the inner loop paints when it starts at
    [eventY]: the events met before the space test fails. *)
Fixpoint painted (maxContentY : Z) (rest : list CalendarEvent) (eventY : Z) : nat :=
  match rest with
  | [] => O
  | _ :: rest' =>
      if eventY + 30 >? maxContentY then O
      else S (painted maxContentY rest' (eventY + eventRowHeight))
  end.

(** The calls that paint every event of [evs], one row after the
    other, from [eventIndex] and [eventY] on. *)
Fixpoint paint_all (width maxContentY : Z) (isToday : bool) (total : Z)
    (evs : list CalendarEvent) (eventIndex eventY : Z) : list call :=
  match evs with
  | [] => []
  | event :: evs' =>
      event_calls width maxContentY isToday total event eventIndex eventY
      ++ paint_all width maxContentY isToday total evs' (eventIndex + 1)
           (eventY + eventRowHeight)
  end.

(** The separator and the label that open a day. *)
Definition day_header_calls (width : Z) (day : DayEvents) (dayIndex eventY : Z)
  : list call :=
  (if dayIndex =? 0 then []
   else [DrawDashedHLine eventY MARGIN (width - MARGIN) DARK_GRAY 6 4])
  ++ [DrawText MARGIN (if dayIndex =? 0 then eventY else eventY + 15) (label day)
        (if bool_decide (label day = js "TODAY") then INK_BLACK else DARK_GRAY) 2].

(** The marker is the only text that the agenda draws at the left
    margin in light gray. *)
Definition is_marker (c : call) : bool :=
  match c with
  | DrawText x _ _ color _ => (x =? MARGIN) && (color =? LIGHT_GRAY)
  | _ => false
  end.

(** [w] stores at row [py], column [px]: the row lies in
    [ylo..yhi], and either the column was clipped to the buffer or it
    is one of the unclipped columns [xlo..xhi]. *)
Definition icon_pixel (width xlo xhi ylo yhi : Z) (w : write) : Prop :=
  ∃ px py, fst w = py * width + px
           ∧ ylo ≤ py ≤ yhi
           ∧ (0 ≤ px < width ∨ xlo ≤ px ≤ xhi).

(** A call whose extent lies inside a [width] x [height] buffer on
    the edges that its primitive does not clip itself. *)
Definition call_within (width height : Z) (c : call) : Prop :=
  match c with
  | DrawText _ y _ _ scale => y + 8 * scale ≤ height
  | DrawCenteredText y _ _ scale => y + 8 * scale ≤ height
  | DrawRightAlignedText y _ _ scale _ => y + 8 * scale ≤ height
  | DrawHLine y _ _ _ thickness => y + thickness ≤ height
  | DrawDashedHLine y x1 x2 _ dashLen gapLen =>
      0 ≤ y < height ∧ 0 ≤ x1 ∧ x2 ≤ width ∧ 0 < dashLen ∧ 0 < gapLen
  | DrawWeatherIcon x y _ => 0 ≤ x + 12 ∧ x + 36 < width ∧ 1 ≤ y ∧ y + 49 < height
  end.

Arguments event_calls : simpl never.
Arguments more_marker : simpl never.

(** A stand-in for the roundings of the icon code, used to instantiate
    statements that are about any rounding within the bounds of cosine
    and sine: a triangle wave through the exact values at 0, 90, 180
    and 270 degrees, rounded like [Math.round]. *)
Definition triangle_cos (deg : Z) : Q := (Z.abs (deg mod 360 - 180) - 90) # 90.

Definition sample_round_cos (c r : Q) (deg : Z) : Z :=
  jsRound (c + r * triangle_cos deg)%Q.

Definition sample_round_sin (c r : Q) (deg : Z) : Z :=
  jsRound (c + r * triangle_cos (deg - 90))%Q.

(** Sample inputs. *)
Definition sample_event : CalendarEvent :=
  {| time := js "09:00"; title := js "Team Standup"; isAllDay := false |}.

Definition sample_busy_day : DayEvents :=
  {| label := js "TODAY"; date := 0; events := replicate 50 sample_event |}.

Definition sample_next_day : DayEvents :=
  {| label := js "TOMORROW"; date := 86400000; events := [sample_event] |}.

Definition sample_weather : WeatherData :=
  {| temperature := 72; temperatureHigh := 78; temperatureLow := 61;
     condition := js "Rain"; conditionCode := 61 |}.

Definition sample_date : DateView :=
  {| getDay := 1; getMonth := 10; getDate := 2; toLocaleTimeString := js "12:00" |}.

(* ===================================================================== *)
(** ** Weather and calendar data *)
(* ===================================================================== *)

(** [WMO_CODES]: the condition text of a weather code. *)
Definition WMO_CODES : list (Z * jsstring) :=
  [ (0, js "Clear"); (1, js "Mostly Clear"); (2, js "Partly Cloudy");
    (3, js "Overcast"); (45, js "Foggy"); (48, js "Rime Fog");
    (51, js "Light Drizzle"); (53, js "Drizzle"); (55, js "Heavy Drizzle");
    (61, js "Light Rain"); (63, js "Rain"); (65, js "Heavy Rain");
    (66, js "Freezing Rain"); (67, js "Heavy Freezing Rain");
    (71, js "Light Snow"); (73, js "Snow"); (75, js "Heavy Snow");
    (77, js "Snow Grains"); (80, js "Light Showers"); (81, js "Showers");
    (82, js "Heavy Showers"); (85, js "Light Snow Showers"); (86, js "Snow Showers");
    (95, js "Thunderstorm"); (96, js "Thunderstorm + Hail");
    (99, js "Severe Thunderstorm") ].

Fixpoint wmo_lookup (code : Z) (table : list (Z * jsstring)) : option jsstring :=
  match table with
  | [] => None
  | (k, text) :: rest => if code =? k then Some text else wmo_lookup code rest
  end.

(** [s || d] on a string that may be [undefined]: [undefined] and the
    empty string are falsy. *)
Definition str_or (s : option jsstring) (d : jsstring) : jsstring :=
  match s with
  | Some (c :: t) => c :: t
  | _ => d
  end.

(** [!s] on a string that may be [undefined]. *)
Definition str_not (s : option jsstring) : bool :=
  match s with
  | Some (_ :: _) => false
  | _ => true
  end.

(** What [fetchWeather] reads of a response body that has the declared
    shape: the current temperature and code, and the first entry of
    the daily maxima and minima. *)
Record WeatherReading : Type := {
  temperature_2m : Q;
  weather_code : Z;
  temperature_2m_max : Q;
  temperature_2m_min : Q
}.

(** [fetchWeather], given the outcome of the request: [None] stands
    for anything that throws inside the [try] (a network error, a
    status that is not ok, a body that is not JSON). *)
Definition fetchWeather (response : option WeatherReading) : WeatherData :=
  match response with
  | Some data =>
      {| temperature := jsRound (temperature_2m data);
         temperatureHigh := jsRound (temperature_2m_max data);
         temperatureLow := jsRound (temperature_2m_min data);
         condition := str_or (wmo_lookup (weather_code data) WMO_CODES) (js "Unknown");
         conditionCode := weather_code data |}
  | None =>
      {| temperature := 0; temperatureHigh := 0; temperatureLow := 0;
         condition := js "Unavailable"; conditionCode := -1 |}
  end.

(** An entry of [data.items]. *)
Record CalendarItem : Type := {
  summary : option jsstring;
  start_dateTime : option jsstring;
  start_date : option jsstring
}.

(** The [Map] of [fetchCalendarEvents], in insertion order: date text
    to the date and the events of the day. *)
Definition date_map : Type := list (list Z * (Z * list CalendarEvent)).

Fixpoint map_has (m : date_map) (key : jsstring) : bool :=
  match m with
  | [] => false
  | (k, _) :: rest => bool_decide (k = key) || map_has rest key
  end.

(** [m.get(key).events.push(event)]. *)
Fixpoint map_push (m : date_map) (key : jsstring) (event : CalendarEvent) : date_map :=
  match m with
  | [] => []
  | (k, (d, evs)) :: rest =>
      if bool_decide (k = key) then (k, (d, evs ++ [event])) :: rest
      else (k, (d, evs)) :: map_push rest key event
  end.

(** [days.sort((a, b) => a.date.getTime() - b.date.getTime())]: the
    sort of the language is stable; an insertion sort that puts a day
    before the first day that is not earlier gives the same array. *)
Fixpoint insert_day (d : DayEvents) (l : list DayEvents) : list DayEvents :=
  match l with
  | [] => [d]
  | e :: l' => if date d <=? date e then d :: e :: l' else e :: insert_day d l'
  end.

Definition sort_days (l : list DayEvents) : list DayEvents := foldr insert_day [] l.

Section Calendar.

(** A [Date] is its time value.  [newDate s] stands for
    [new Date(s).getTime()], [toDateString], [dayOfWeek] and
    [localeTime] for the methods [toDateString], [getDay] and
    [toLocaleTimeString] (with the options of the source) of the date
    with that time value.  The start texts of a calendar response are
    taken to be dates that parse, so that every time value is a
    number. *)
Context (newDate : jsstring → Z) (toDateString : Z → jsstring)
        (dayOfWeek : Z → Z) (localeTime : Z → jsstring).

(** [getDay] answers 0 to 6, an index of [DAY_NAMES]. *)
Definition getDayLabel (date : Z) (todayDate tomorrowDate : jsstring) : jsstring :=
  let dateStr := toDateString date in
  if bool_decide (dateStr = todayDate) then js "TODAY"
  else if bool_decide (dateStr = tomorrowDate) then js "TOMORROW"
  else nameAt DAY_NAMES (dayOfWeek date).

(** [startDate] of an item. *)
Definition item_start (item : CalendarItem) : Z :=
  newDate (str_or (start_dateTime item) (str_or (start_date item) [])).

(** [event] of an item. *)
Definition item_event (item : CalendarItem) : CalendarEvent :=
  let isAllDay := str_not (start_dateTime item) in
  {| title := str_or (summary item) (js "Untitled");
     time := if isAllDay then js "All Day" else localeTime (item_start item);
     isAllDay := isAllDay |}.

(** One iteration of the loop over the items. *)
Definition group_step (m : date_map) (item : CalendarItem) : date_map :=
  let startDate := item_start item in
  let eventDateStr := toDateString startDate in
  let m := if map_has m eventDateStr then m
           else m ++ [(eventDateStr, (startDate, []))] in
  map_push m eventDateStr (item_event item).

Definition group_items (items : list CalendarItem) : date_map :=
  fold_left group_step items [].

(** The events of the items that start on the day [key], in the order
    of the items. *)
Definition events_on (key : jsstring) (items : list CalendarItem) : list CalendarEvent :=
  item_event <$> filter (fun item => toDateString (item_start item) = key) items.

(** What the map holds once the loop has run over [items]: one entry
    for each day on which an item starts, with the events of that day
    and a date of that day. *)
Definition grouped (m : date_map) (items : list CalendarItem) : Prop :=
  NoDup (map fst m)
  ∧ (∀ k d evs, (k, (d, evs)) ∈ m →
       evs = events_on k items ∧ evs ≠ [] ∧ toDateString d = k)
  ∧ (∀ item, item ∈ items → toDateString (item_start item) ∈ map fst m).

(** The loop that converts the map to an array and adds the labels. *)
Definition labelled_days (m : date_map) (todayDate tomorrowDate : jsstring)
  : list DayEvents :=
  map (fun entry =>
         {| label := getDayLabel (fst (snd entry)) todayDate tomorrowDate;
            date := fst (snd entry);
            events := snd (snd entry) |}) m.

(** The day that is put in front when the first day is not today. *)
Definition empty_today (nowLocal : Z) : DayEvents :=
  {| label := js "TODAY"; date := nowLocal; events := [] |}.

(** The body of the [try] of [fetchCalendarEvents] once the response
    has arrived: [items] is [data.items || []] and [nowLocal] the time
    value of the local date. *)
Definition calendarDays (items : list CalendarItem) (nowLocal : Z) : list DayEvents :=
  let todayDate := toDateString nowLocal in
  let tomorrowDate := toDateString (nowLocal + 86400000) in
  let days := sort_days (labelled_days (group_items items) todayDate tomorrowDate) in
  match days with
  | [] => [empty_today nowLocal]
  | first :: _ =>
      if bool_decide (label first ≠ js "TODAY") then empty_today nowLocal :: days
      else days
  end.

End Calendar.

Definition getMockEvents (now : Z) : list DayEvents :=
  let tomorrow := now + 86400000 in
  [ {| label := js "TODAY"; date := now;
       events := [ {| time := js "09:00"; title := js "Team Standup"; isAllDay := false |};
                   {| time := js "11:30"; title := js "Design Review"; isAllDay := false |};
                   {| time := js "14:00"; title := js "Deep Work Block";
                      isAllDay := false |} ] |};
    {| label := js "TOMORROW"; date := tomorrow;
       events := [ {| time := js "10:00"; title := js "Client Call";
                      isAllDay := false |} ] |} ].

(** [fetchCalendarEvents], given the outcome of the request: [None]
    stands for anything that throws inside the [try]; [Some items]
    carries [data.items], which may be missing. *)
Definition fetchCalendarEvents (newDate : jsstring → Z) (toDateString : Z → jsstring)
    (dayOfWeek : Z → Z) (localeTime : Z → jsstring)
    (env : Env) (response : option (option (list CalendarItem))) (now nowLocal : Z)
  : list DayEvents :=
  if str_not (GOOGLE_CALENDAR_API_KEY env) || str_not (GOOGLE_CALENDAR_ID env)
  then getMockEvents now
  else match response with
       | Some items =>
           calendarDays newDate toDateString dayOfWeek localeTime (default [] items) nowLocal
       | None => getMockEvents now
       end.

(* ===================================================================== *)
(** ** Further notions used in the statements *)
(* ===================================================================== *)

(** The rows [top, bottom) that a call of the agenda can reach. *)
Definition call_rows (c : call) : Z * Z :=
  match c with
  | DrawText _ y _ _ scale => (y, y + 8 * scale)
  | DrawCenteredText y _ _ scale => (y, y + 8 * scale)
  | DrawRightAlignedText y _ _ scale _ => (y, y + 8 * scale)
  | DrawHLine y _ _ _ thickness => (y, y + thickness)
  | DrawDashedHLine y _ _ _ _ _ => (y, y + 1)
  | DrawWeatherIcon _ y _ => (y - 1, y + 50)
  end.

(** How many event rows fit from [eventY] on: an event is painted
    while [eventY + 30 <= maxContentY], and rows are 45 apart. *)
Definition row_capacity (maxContentY eventY : Z) : Z :=
  if eventY + 30 >? maxContentY then 0
  else (maxContentY - 30 - eventY) / eventRowHeight + 1.

(** The bit of a glyph at column [col] of row [row]. *)
Definition glyph_bit (data : list Z) (row col : Z) : bool :=
  Z.testbit (nth (Z.to_nat row) data 0) (7 - col).


(** The text that a call draws. *)
Definition call_text (c : call) : jsstring :=
  match c with
  | DrawText _ _ text _ _ => text
  | DrawCenteredText _ text _ _ => text
  | DrawRightAlignedText _ text _ _ _ => text
  | _ => []
  end.

(** What every call of the agenda satisfies when the loop over the
    days is at or below row [lo]: it starts at [lo] or lower; the
    marker starts below [maxContentY - 30], at [maxContentY + 15] or
    above, and is 16 rows high, every
    other call ends 14 rows or more above [maxContentY]; a dashed
    separator runs between the margins. *)
Definition agenda_call (width maxContentY lo : Z) (c : call) : Prop :=
  lo ≤ fst (call_rows c)
  ∧ (if is_marker c
     then maxContentY - 30 < fst (call_rows c) ≤ maxContentY + 15
          ∧ snd (call_rows c) = fst (call_rows c) + 16
     else snd (call_rows c) ≤ maxContentY - 14)
  ∧ match c with
    | DrawDashedHLine _ x1 x2 _ dashLen gapLen =>
        0 ≤ x1 ∧ x2 ≤ width ∧ 0 < dashLen ∧ 0 < gapLen
    | DrawWeatherIcon _ _ _ => False
    | _ => True
    end.

(** The call that draws the title of an event: the text at the title
    column that is not in light gray ("No events" is). *)
Definition is_title (c : call) : bool :=
  match c with
  | DrawText x _ _ color _ => (x =? MARGIN + timeColumnWidth) && negb (color =? LIGHT_GRAY)
  | _ => false
  end.

(** The rows that the days take when all of them are painted in full,
    the first of them being day [dayIndex]: 15 for the separator of
    every day but the first, 35 for the label, and 45 for every event
    or for the line "No events". *)
Fixpoint days_height (days : list DayEvents) (dayIndex : Z) : Z :=
  match days with
  | [] => 0
  | day :: days' =>
      (if dayIndex =? 0 then 0 else 15) + (dayHeaderHeight - 5)
      + eventRowHeight * Z.max 1 (Z.of_nat (length (events day)))
      + days_height days' (dayIndex + 1)
  end.

(* ===================================================================== *)
(** * Properties *)
(* ===================================================================== *)

(** Decide every integer comparison of the goal from the context. *)
Ltac decide_cmp :=
  repeat match goal with
  | |- context [?a <=? ?b] =>
      first [ rewrite (proj2 (Z.leb_le a b)) by lia
            | rewrite (proj2 (Z.leb_gt a b)) by lia ]
  | |- context [?a <? ?b] =>
      first [ rewrite (proj2 (Z.ltb_lt a b)) by lia
            | rewrite (proj2 (Z.ltb_ge a b)) by lia ]
  | |- context [?a >? ?b] => rewrite (Z.gtb_ltb a b)
  | |- context [?a =? ?b] =>
      first [ rewrite (proj2 (Z.eqb_eq a b)) by lia
            | rewrite (proj2 (Z.eqb_neq a b)) by lia ]
  end.

(** ** Text measurement and the cursor *)

Lemma drawText_loop_cursor width cx y chars color scale :
  snd (drawText_loop width cx y chars color scale)
  = cx + 8 * scale * Z.of_nat (length chars).
Proof.
  revert cx. induction chars as [|c cs IH]; intros cx; simpl.
  - lia.
  - rewrite IH. lia.
Qed.

(** Induction two code units at a time, the way [code_points] recurses. *)
Lemma jsstring_pair_ind (P : jsstring → Prop) :
  P [] → (∀ c, P [c]) →
  (∀ c d t, P t → P (d :: t) → P (c :: d :: t)) →
  ∀ t, P t.
Proof.
  intros Hnil Hone Hstep t.
  assert (H : P t ∧ ∀ c, P (c :: t)); [|tauto].
  induction t as [|d t [IH1 IH2]]; split; auto.
Qed.

Lemma code_points_length t :
  (length (code_points t) + surrogate_pairs t = length t)%nat.
Proof.
  induction t as [| c | c d t IH1 IH2] using jsstring_pair_ind; try reflexivity.
  change (code_points (c :: d :: t))
    with (if is_high_surrogate c && is_low_surrogate d
          then [c; d] :: code_points t else [c] :: code_points (d :: t)).
  change (surrogate_pairs (c :: d :: t))
    with (if is_high_surrogate c && is_low_surrogate d
          then S (surrogate_pairs t) else surrogate_pairs (d :: t)).
  destruct (is_high_surrogate c && is_low_surrogate d); simpl in *; lia.
Qed.

(** ** Title truncation *)

Lemma truncate_cond_length maxW t :
  truncate_cond maxW t = true → (4 ≤ length t)%nat.
Proof.
  unfold truncate_cond. rewrite andb_true_iff, !Z.gtb_ltb, !Z.ltb_lt. lia.
Qed.

Lemma slice_drop_last4 (t : jsstring) :
  (4 ≤ length t)%nat → slice t 0 (-4) = take (length t - 4) t.
Proof.
  intros Hlen. unfold slice, slice_index. simpl.
  rewrite Z.min_l by lia. rewrite Z.max_l by lia.
  simpl. f_equal. lia.
Qed.

Lemma truncate_body_length (t : jsstring) :
  (4 ≤ length t)%nat → length t = S (length (truncate_body t)).
Proof.
  intros Hlen. unfold truncate_body.
  rewrite slice_drop_last4 by done.
  rewrite length_app, length_take. simpl. lia.
Qed.

Lemma truncate_loop_terminates fuel maxW t :
  (length t ≤ fuel)%nat →
  ∃ r, truncate_loop fuel maxW t = Some r ∧ truncate_cond maxW r = false.
Proof.
  revert t. induction fuel as [|fuel IH]; intros t Hfuel; simpl.
  - destruct (truncate_cond maxW t) eqn:Hc.
    + apply truncate_cond_length in Hc. lia.
    + eauto.
  - destruct (truncate_cond maxW t) eqn:Hc; [|eauto].
    apply IH. apply truncate_cond_length in Hc.
    pose proof (truncate_body_length t Hc). lia.
Qed.

Lemma truncate_loop_more_fuel fuel fuel' maxW t r :
  truncate_loop fuel maxW t = Some r → (fuel ≤ fuel')%nat →
  truncate_loop fuel' maxW t = Some r.
Proof.
  revert fuel' t. induction fuel as [|fuel IH]; intros fuel' t; simpl.
  - destruct (truncate_cond maxW t) eqn:Hc; [discriminate|].
    intros [= <-] _. destruct fuel'; simpl; by rewrite Hc.
  - destruct (truncate_cond maxW t) eqn:Hc.
    + intros Hr Hle. destruct fuel' as [|fuel']; [lia|]. simpl. rewrite Hc.
      apply IH; [done|lia].
    + intros [= <-] _. destruct fuel'; simpl; by rewrite Hc.
Qed.

(** C7: the title loop terminates, within as many iterations as the
    title has code units, on a string for which the loop condition
    fails; more fuel never changes the result.  The body only runs on
    a string of at least four code units, so [slice(0, -4)] never
    reaches below the start of the string (its end index [len - 4] is
    not clamped) and every iteration shortens the string by exactly
    one. *)
Theorem truncate_terminates_no_underflow (maxTitleWidth : Z) (title : jsstring) :
  (∃ r, truncate_loop (length title) maxTitleWidth title = Some r
        ∧ truncateTitle maxTitleWidth title = r
        ∧ truncate_cond maxTitleWidth r = false
        ∧ ∀ fuel, (length title ≤ fuel)%nat →
                  truncate_loop fuel maxTitleWidth title = Some r)
  ∧ (truncate_cond maxTitleWidth title = false
     ∨ (0 ≤ Z.of_nat (length title) - 4
        ∧ slice_index (Z.of_nat (length title)) (-4) = Z.of_nat (length title) - 4
        ∧ slice title 0 (-4) = take (length title - 4) title
        ∧ length title = S (length (truncate_body title)))).
Proof.
  split.
  - destruct (truncate_loop_terminates (length title) maxTitleWidth title) as (r & Hr & Hc);
      [done|].
    exists r. unfold truncateTitle. rewrite Hr. repeat split; try done.
    intros fuel Hfuel. by apply truncate_loop_more_fuel with (fuel := length title).
  - destruct (truncate_cond maxTitleWidth title) eqn:Hc; [right|by left].
    apply truncate_cond_length in Hc.
    repeat split.
    + lia.
    + unfold slice_index. simpl. lia.
    + by apply slice_drop_last4.
    + by apply truncate_body_length.
Qed.

Lemma truncateTitle_fixed maxW t :
  truncate_cond maxW t = false → truncateTitle maxW t = t.
Proof.
  intros Hc. unfold truncateTitle. destruct (length t); simpl; by rewrite Hc.
Qed.

(** C8: truncation is idempotent: when the truncated title measures at
    most the available width, truncating it again returns it
    unchanged. *)
Theorem truncate_idempotent (maxTitleWidth : Z) (title : jsstring) :
  getTextWidth (truncateTitle maxTitleWidth title) 2 ≤ maxTitleWidth →
  truncateTitle maxTitleWidth (truncateTitle maxTitleWidth title)
  = truncateTitle maxTitleWidth title.
Proof.
  intros Hfit. apply truncateTitle_fixed.
  unfold truncate_cond. rewrite Z.gtb_ltb.
  rewrite (proj2 (Z.ltb_ge _ _)) by lia. reflexivity.
Qed.

Lemma truncate_idempotent_witness :
  let title := js "Design Review of the quarterly roadmap" in
  truncateTitle 322 title = js "Design Review of ..."
  ∧ truncateTitle 322 (truncateTitle 322 title) = truncateTitle 322 title.
Proof.
  split; [vm_compute; reflexivity|].
  apply (truncate_idempotent 322 (js "Design Review of the quarterly roadmap")).
  vm_compute. discriminate.
Defined.

(** ** Icon dispatch *)

(** C4: for every integer condition code the conditional chain of
    [drawWeatherIcon] draws the icon that the range table names: sun
    for 0-1, cloud for 2-3, fog for 45-48, rain for 51-67 and 80-82,
    snow for 71-77 and 85-86, thunderstorm from 95 on, and the
    unknown icon for every other code, the sentinel -1 included.  The
    function is total. *)
Theorem icon_dispatch (round_cos round_sin : Q → Q → Z → Z) (width x y code : Z) :
  drawWeatherIcon round_cos round_sin width x y code
  = draw_icon round_cos round_sin width x y (icon_for_code code)
  ∧ icon_for_code code
    = (if decide (0 ≤ code ≤ 1) then Sun
       else if decide (2 ≤ code ≤ 3) then Cloud
       else if decide (45 ≤ code ≤ 48) then Fog
       else if decide (51 ≤ code ≤ 67 ∨ 80 ≤ code ≤ 82) then Rain
       else if decide (71 ≤ code ≤ 77 ∨ 85 ≤ code ≤ 86) then Snow
       else if decide (95 ≤ code) then Thunderstorm
       else Unknown)
  ∧ icon_for_code (-1) = Unknown.
Proof.
  assert (Hcases :
    code < 0 ∨ code = 0 ∨ code = 1 ∨ 2 ≤ code ≤ 3 ∨ 4 ≤ code ≤ 44 ∨ 45 ≤ code ≤ 48
    ∨ 49 ≤ code ≤ 50 ∨ 51 ≤ code ≤ 67 ∨ 68 ≤ code ≤ 70 ∨ 71 ≤ code ≤ 77
    ∨ 78 ≤ code ≤ 79 ∨ 80 ≤ code ≤ 82 ∨ 83 ≤ code ≤ 84 ∨ 85 ≤ code ≤ 86
    ∨ 87 ≤ code ≤ 94 ∨ 95 ≤ code) by lia.
  split; [|split; [|reflexivity]].
  - unfold drawWeatherIcon, icon_for_code, icon_table.
    cbn [lookup_icon in_range snd].
    repeat (destruct Hcases as [Hc | Hcases]);
      try rename Hcases into Hc;
      decide_cmp; cbn [andb orb draw_icon]; reflexivity.
  - unfold icon_for_code, icon_table.
    cbn [lookup_icon in_range snd].
    repeat (destruct Hcases as [Hc | Hcases]);
      try rename Hcases into Hc;
      decide_cmp; cbn [andb orb];
      repeat case_decide; try reflexivity; lia.
Qed.

(** The glyph table has no question mark: the unknown icon is chosen
    and stores nothing. *)
Lemma unknownIcon_empty width x y : unknownIcon width x y = [].
Proof.
  unfold unknownIcon, drawText. cbn [code_points js map list_ascii_of_string drawText_loop fst].
  unfold drawChar.
  replace (FONT_DATA [code_of "?"]) with (@None (list Z)) by (vm_compute; reflexivity).
  reflexivity.
Qed.

(** ** Stores and buffers *)

(** Take apart a membership in a list built by loops and guards. *)
Ltac elem_inv :=
  repeat match goal with
  | H : _ ∈ (_ ≫= _) |- _ =>
      apply list_elem_of_bind in H; destruct H as (? & H & ?)
  | H : _ ∈ (_ ++ _) |- _ => apply elem_of_app in H; destruct H as [H|H]
  | H : _ ∈ [] |- _ => by apply elem_of_nil in H
  | H : _ ∈ [_] |- _ => apply list_elem_of_singleton in H
  | H : _ ∈ (_ :: _) |- _ => apply elem_of_cons in H; destruct H as [H|H]
  | H : _ ∈ seqZ _ _ |- _ => apply elem_of_seqZ in H
  | H : _ ∈ (if ?b then _ else _) |- _ => destruct b eqn:?
  end.

(** Turn boolean guards in the context into inequalities. *)
Ltac guards :=
  repeat match goal with
  | H : _ && _ = true |- _ => apply andb_true_iff in H; destruct H
  | H : (_ <=? _) = true |- _ => apply Z.leb_le in H
  | H : (_ <? _) = true |- _ => apply Z.ltb_lt in H
  | H : (_ <=? _) = false |- _ => apply Z.leb_gt in H
  | H : (_ <? _) = false |- _ => apply Z.ltb_ge in H
  | H : (_ =? _) = true |- _ => apply Z.eqb_eq in H
  | H : (_ =? _) = false |- _ => apply Z.eqb_neq in H
  end.

Lemma store_length a idx v : length (store a idx v) = length a.
Proof. unfold store. case_match; [apply length_insert|done]. Qed.

Lemma apply_writes_cons a w ws :
  apply_writes a (w :: ws) = apply_writes (store a (fst w) (snd w)) ws.
Proof. reflexivity. Qed.

Lemma apply_writes_length ws a : length (apply_writes a ws) = length a.
Proof.
  revert a. induction ws as [|w ws IH]; intros a; [done|].
  rewrite apply_writes_cons, IH. apply store_length.
Qed.

Lemma apply_writes_app a ws1 ws2 :
  apply_writes a (ws1 ++ ws2) = apply_writes (apply_writes a ws1) ws2.
Proof. apply fold_left_app. Qed.

Lemma store_lookup_ne a idx v (j : nat) :
  idx ≠ Z.of_nat j → store a idx v !! j = a !! j.
Proof.
  intros Hne. unfold store. case_match; [|done].
  guards. apply list_lookup_insert_ne. lia.
Qed.

Lemma store_lookup_eq a idx v :
  0 ≤ idx < Z.of_nat (length a) → store a idx v !! Z.to_nat idx = Some (v mod 256).
Proof.
  intros Hr. unfold store. decide_cmp. simpl.
  apply list_lookup_insert_eq. lia.
Qed.

(** An index that no store addresses keeps its value. *)
Lemma apply_writes_lookup_other ws a (j : nat) :
  (∀ w, w ∈ ws → fst w ≠ Z.of_nat j) → apply_writes a ws !! j = a !! j.
Proof.
  revert a. induction ws as [|w ws IH]; intros a Hws; [done|].
  rewrite apply_writes_cons, IH.
  - apply store_lookup_ne, Hws, list_elem_of_here.
  - intros w' Hw'. by apply Hws, list_elem_of_further.
Qed.

Lemma store_Forall (Q : Z → Prop) a idx v :
  Q (v mod 256) → Forall Q a → Forall Q (store a idx v).
Proof.
  intros Hv Ha. unfold store. case_match; [|done].
  by apply Forall_insert.
Qed.

Lemma apply_writes_Forall (Q : Z → Prop) ws a :
  (∀ w, w ∈ ws → Q (snd w mod 256)) → Forall Q a → Forall Q (apply_writes a ws).
Proof.
  revert a. induction ws as [|w ws IH]; intros a Hws Ha; [done|].
  rewrite apply_writes_cons. apply IH.
  - intros w' Hw'. by apply Hws, list_elem_of_further.
  - apply store_Forall; [|done]. apply Hws, list_elem_of_here.
Qed.

(** ** Where the primitives store *)

Lemma drawChar_elem width x y char color scale w :
  w ∈ drawChar width x y char color scale →
  ∃ px py, pixel_at width w color px py
           ∧ x ≤ px < x + 8 * scale ∧ y ≤ py < y + 8 * scale.
Proof.
  unfold drawChar. destruct (FONT_DATA char) as [data|]; [|by intros ?%elem_of_nil].
  intros Hw. elem_inv. guards. subst w.
  eexists _, _. split; [split; [reflexivity|lia]|]. nia.
Qed.

Lemma drawText_loop_elem width cx y chars color scale w :
  w ∈ fst (drawText_loop width cx y chars color scale) →
  ∃ px py, pixel_at width w color px py
           ∧ cx ≤ px < cx + 8 * scale * Z.of_nat (length chars)
           ∧ y ≤ py < y + 8 * scale.
Proof.
  revert cx. induction chars as [|c cs IH]; intros cx; simpl.
  - by intros ?%elem_of_nil.
  - intros [Hw|Hw]%elem_of_app.
    + apply drawChar_elem in Hw as (px & py & Hp & Hx & Hy).
      exists px, py. split; [done|]. split; [nia|done].
    + apply IH in Hw as (px & py & Hp & Hx & Hy).
      exists px, py. split; [done|]. split; [nia|done].
Qed.

Lemma drawText_elem width x y text color scale w :
  w ∈ drawText width x y text color scale →
  ∃ px py, pixel_at width w color px py ∧ y ≤ py < y + 8 * scale.
Proof.
  intros Hw. apply drawText_loop_elem in Hw as (px & py & Hp & _ & Hy). eauto.
Qed.

(** C5 (as the code has it): the measured width is [len(t) * 8 * s];
    drawing advances the cursor by [8 * s] for every element of the
    string iterator, that is once per code point, so a string of [n]
    code units of which [k] surrogate pairs are joined ends, and has
    all its stores, within [8 * s * (n - k)] columns of its origin:
    exactly [8 * s * n], the measured width, when it holds no
    surrogate pair. *)
Theorem text_width_and_advance (width x y : Z) (t : jsstring) (color s : Z) :
  getTextWidth t s = Z.of_nat (length t) * 8 * s
  ∧ drawText_cursor width x y t color s
    = x + 8 * s * Z.of_nat (length (code_points t))
  ∧ drawText_cursor width x y t color s
    = x + 8 * s * (Z.of_nat (length t) - Z.of_nat (surrogate_pairs t))
  ∧ ∀ w, w ∈ drawText width x y t color s →
         ∃ px py, w = (py * width + px, color)
                  ∧ x ≤ px < drawText_cursor width x y t color s.
Proof.
  split; [reflexivity|].
  unfold drawText_cursor. rewrite drawText_loop_cursor.
  split; [reflexivity|]. split.
  - pose proof (code_points_length t). f_equal. f_equal. lia.
  - intros w (px & py & (-> & _) & Hx & _)%drawText_loop_elem. eauto.
Qed.

(** C5, the claim as stated fails: an emoji is two code units, so it
    measures [2 * 8 * s], but it is one element of the iteration and
    the cursor moves by [8 * s] only. *)
Lemma text_advance_astral_counterexample :
  getTextWidth [0xD83D; 0xDE00] 2 = 32
  ∧ drawText_cursor 480 0 0 [0xD83D; 0xDE00] INK_BLACK 2 = 16
  ∧ ¬ (∀ (t : jsstring) (s : Z), 0 < s →
         drawText_cursor 480 0 0 t INK_BLACK s = 0 + 8 * s * Z.of_nat (length t)).
Proof.
  split; [reflexivity|]. split; [reflexivity|].
  intros H. specialize (H [0xD83D; 0xDE00] 2 ltac:(lia)). vm_compute in H. discriminate.
Qed.

Lemma fillRect_elem width height x y w h color wr :
  wr ∈ fillRect width height x y w h color →
  ∃ px py, pixel_at width wr color px py
           ∧ x ≤ px < x + w ∧ y ≤ py < y + h ∧ py < height.
Proof.
  unfold fillRect. intros Hw. elem_inv. guards. subst wr.
  eexists _, _. split; [split; [reflexivity|lia]|lia].
Qed.

Lemma drawHLine_elem width y x1 x2 color thickness w :
  w ∈ drawHLine width y x1 x2 color thickness →
  ∃ px py, pixel_at width w color px py
           ∧ x1 ≤ px < x2 ∧ y ≤ py < y + thickness ∧ py < 9999.
Proof.
  intros Hw. apply fillRect_elem in Hw as (px & py & Hp & Hx & Hy & Hh).
  exists px, py. split; [done|lia].
Qed.

Lemma dashed_loop_elem fuel width y x x2 drawing color dashLen gapLen ws w :
  0 < dashLen → 0 < gapLen →
  dashed_loop fuel width y x x2 drawing color dashLen gapLen = Some ws →
  w ∈ ws → ∃ px, w = (y * width + px, color) ∧ x ≤ px < x2.
Proof.
  intros Hd Hg. revert x drawing ws.
  induction fuel as [|fuel IH]; intros x drawing ws; simpl.
  - case_match; [discriminate|]. intros [= <-]. by intros ?%elem_of_nil.
  - case_match; [|intros [= <-]; by intros ?%elem_of_nil].
    guards. destruct drawing.
    + destruct (dashed_loop fuel _ _ (x + dashLen)) as [rest|] eqn:Hrest; [|discriminate].
      simpl. intros [= <-] Hw. elem_inv.
      * subst w. eexists. split; [reflexivity|lia].
      * apply (IH _ _ _ Hrest) in Hw as (px & -> & Hpx).
        exists px. split; [done|lia].
    + intros Hrest Hw.
      apply (IH _ _ _ Hrest) in Hw as (px & -> & Hpx).
      exists px. split; [done|lia].
Qed.

(** More iterations than needed change nothing. *)
Lemma dashed_loop_more_fuel fuel fuel' width y x x2 drawing color dashLen gapLen ws :
  dashed_loop fuel width y x x2 drawing color dashLen gapLen = Some ws →
  (fuel ≤ fuel')%nat →
  dashed_loop fuel' width y x x2 drawing color dashLen gapLen = Some ws.
Proof.
  revert fuel' x drawing ws.
  induction fuel as [|fuel IH]; intros fuel' x drawing ws; simpl.
  - case_match; [discriminate|]. intros [= <-] _.
    destruct fuel'; simpl; by case_match.
  - destruct fuel' as [|fuel']; [lia|]. simpl.
    case_match; [|done]. destruct drawing.
    + destruct (dashed_loop fuel _ _ (x + dashLen)) as [rest|] eqn:Hrest; [|discriminate].
      intros Hws Hle. by rewrite (IH fuel' _ _ _ Hrest) by lia.
    + intros Hws Hle. apply IH; [done|lia].
Qed.

(** When a dash and a gap together advance, [n] periods that reach
    [x2] are over within [2 * n] iterations. *)
Lemma dashed_loop_periods (n : nat) width y x x2 color dashLen gapLen :
  0 < dashLen + gapLen → x2 - x ≤ Z.of_nat n * (dashLen + gapLen) →
  is_Some (dashed_loop (2 * n) width y x x2 true color dashLen gapLen).
Proof.
  intros Hperiod. revert x.
  induction n as [|n IH]; intros x Hn.
  - simpl. decide_cmp. eauto.
  - replace (2 * S n)%nat with (S (S (2 * n))) by lia.
    cbn [dashed_loop]. case_match; [|eauto].
    destruct (x + dashLen <? x2) eqn:Hdash.
    + destruct (IH (x + dashLen + gapLen) ltac:(lia)) as [rest ->]. simpl. eauto.
    + simpl. eauto.
Qed.

(** When they do not advance, the loop that passes its first two
    tests never ends. *)
Lemma dashed_loop_diverges fuel width y x x2 color dashLen gapLen :
  dashLen + gapLen ≤ 0 → x < x2 → x + dashLen < x2 →
  dashed_loop fuel width y x x2 true color dashLen gapLen = None
  ∧ dashed_loop fuel width y (x + dashLen) x2 false color dashLen gapLen = None.
Proof.
  intros Hperiod. revert x.
  induction fuel as [|fuel IH]; intros x Hx Hd; cbn [dashed_loop].
  - by rewrite !(proj2 (Z.ltb_lt _ _)) by lia.
  - rewrite !(proj2 (Z.ltb_lt _ _)) by lia.
    destruct (IH x Hx Hd) as [_ ->].
    destruct (IH (x + dashLen + gapLen) ltac:(lia) ltac:(lia)) as [-> _].
    done.
Qed.

(** The iterations that [drawDashedHLine] allows are enough: a run of
    the loop that ends, after however many iterations, ends within
    [2 * (x2 - x1)] of them. *)
Lemma dashed_loop_fuel fuel width y x1 x2 color dashLen gapLen ws :
  dashed_loop fuel width y x1 x2 true color dashLen gapLen = Some ws →
  dashed_loop (Z.to_nat (2 * (x2 - x1))) width y x1 x2 true color dashLen gapLen
  = Some ws.
Proof.
  intros Hws.
  destruct (Z.lt_ge_cases 0 (dashLen + gapLen)) as [Hperiod|Hperiod].
  - destruct (dashed_loop_periods (Z.to_nat (x2 - x1)) width y x1 x2 color dashLen
                gapLen Hperiod ltac:(nia)) as [ws' Hws'].
    replace (Z.to_nat (2 * (x2 - x1))) with (2 * Z.to_nat (x2 - x1))%nat by lia.
    rewrite Hws'. f_equal.
    pose proof (dashed_loop_more_fuel _ (fuel + 2 * Z.to_nat (x2 - x1)) _ _ _ _ _ _ _ _ _
                  Hws ltac:(lia)) as H1.
    pose proof (dashed_loop_more_fuel _ (fuel + 2 * Z.to_nat (x2 - x1)) _ _ _ _ _ _ _ _ _
                  Hws' ltac:(lia)) as H2.
    congruence.
  - destruct (Z.lt_ge_cases x1 x2) as [Hx|Hx].
    + destruct (Z.lt_ge_cases (x1 + dashLen) x2) as [Hd|Hd].
      * destruct (dashed_loop_diverges fuel width y x1 x2 color dashLen gapLen
                    Hperiod Hx Hd) as [Hnone _].
        congruence.
      * destruct fuel as [|fuel]; cbn [dashed_loop] in Hws;
          rewrite (proj2 (Z.ltb_lt _ _) Hx) in Hws; [discriminate|].
        destruct (Z.to_nat (2 * (x2 - x1))) as [|k] eqn:Hk; [lia|].
        cbn [dashed_loop]. rewrite (proj2 (Z.ltb_lt _ _) Hx).
        assert (Hgap : ∀ f, dashed_loop f width y (x1 + dashLen) x2 false color dashLen
                              gapLen = Some []).
        { intros f. destruct f; cbn [dashed_loop];
            by rewrite (proj2 (Z.ltb_ge _ _) Hd). }
        rewrite Hgap in Hws. by rewrite Hgap.
    + destruct fuel; cbn [dashed_loop] in Hws;
        rewrite (proj2 (Z.ltb_ge _ _) Hx) in Hws;
        (destruct (Z.to_nat (2 * (x2 - x1))); cbn [dashed_loop];
         by rewrite (proj2 (Z.ltb_ge _ _) Hx)).
Qed.

(** When a dash and a gap together advance, [drawDashedHLine] is the
    result of the loop run to its exit. *)
Lemma drawDashedHLine_total width y x1 x2 color dashLen gapLen :
  0 < dashLen + gapLen →
  dashed_loop (Z.to_nat (2 * (x2 - x1))) width y x1 x2 true color dashLen gapLen
  = Some (drawDashedHLine width y x1 x2 color dashLen gapLen).
Proof.
  intros Hperiod. unfold drawDashedHLine.
  destruct (dashed_loop_periods (Z.to_nat (x2 - x1)) width y x1 x2 color dashLen
              gapLen Hperiod ltac:(nia)) as [ws Hws].
  replace (Z.to_nat (2 * (x2 - x1))) with (2 * Z.to_nat (x2 - x1))%nat by lia.
  by rewrite Hws.
Qed.

Lemma drawDashedHLine_elem width y x1 x2 color dashLen gapLen w :
  0 < dashLen → 0 < gapLen →
  w ∈ drawDashedHLine width y x1 x2 color dashLen gapLen →
  ∃ px, w = (y * width + px, color) ∧ x1 ≤ px < x2.
Proof.
  intros Hd Hg. unfold drawDashedHLine.
  destruct (dashed_loop _ _ _ _ _ _ _ _ _) as [ws|] eqn:Hws; simpl.
  - by apply dashed_loop_elem with (1 := Hd) (2 := Hg) (3 := Hws).
  - by intros ?%elem_of_nil.
Qed.

(** ** The four intensity levels *)

Lemma is_level_byte v : is_level v → v mod 256 = v.
Proof.
  unfold is_level, INK_BLACK, DARK_GRAY, LIGHT_GRAY, PAPER_WHITE.
  intros [ -> | [ -> | [ -> | -> ] ] ]; reflexivity.
Qed.

Lemma ink_black_level : is_level INK_BLACK.
Proof. by left. Qed.
Lemma dark_gray_level : is_level DARK_GRAY.
Proof. right. by left. Qed.
Lemma light_gray_level : is_level LIGHT_GRAY.
Proof. do 2 right. by left. Qed.
Lemma paper_white_level : is_level PAPER_WHITE.
Proof. by do 3 right. Qed.

Create HintDb levels.
#[export] Hint Resolve ink_black_level dark_gray_level light_gray_level
  paper_white_level : levels.

Section Levels.

Context (round_cos round_sin : Q → Q → Z → Z).

Lemma drawText_color width x y text color scale w :
  w ∈ drawText width x y text color scale → snd w = color.
Proof. intros (px & py & (-> & _) & _)%drawText_elem. reflexivity. Qed.

Lemma drawHLine_color width y x1 x2 color thickness w :
  w ∈ drawHLine width y x1 x2 color thickness → snd w = color.
Proof. intros (px & py & (-> & _) & _)%drawHLine_elem. reflexivity. Qed.

Lemma dashed_loop_color fuel width y x x2 drawing color dashLen gapLen ws w :
  dashed_loop fuel width y x x2 drawing color dashLen gapLen = Some ws →
  w ∈ ws → snd w = color.
Proof.
  revert x drawing ws.
  induction fuel as [|fuel IH]; intros x drawing ws; simpl.
  - case_match; [discriminate|]. intros [= <-]. by intros ?%elem_of_nil.
  - case_match; [|intros [= <-]; by intros ?%elem_of_nil].
    destruct drawing; [|by apply IH].
    destruct (dashed_loop fuel _ _ (x + dashLen)) as [rest|] eqn:Hrest; [|discriminate].
    simpl. intros [= <-] Hw. elem_inv.
    + by subst w.
    + by apply (IH _ _ _ Hrest).
Qed.

Lemma drawDashedHLine_color width y x1 x2 color dashLen gapLen w :
  w ∈ drawDashedHLine width y x1 x2 color dashLen gapLen → snd w = color.
Proof.
  unfold drawDashedHLine.
  destruct (dashed_loop _ _ _ _ _ _ _ _ _) as [ws|] eqn:Hws; simpl.
  - by apply dashed_loop_color with (1 := Hws).
  - by intros ?%elem_of_nil.
Qed.

Lemma drawCloudShape_color width x y w h wr :
  wr ∈ drawCloudShape round_cos round_sin width x y w h → snd wr = INK_BLACK.
Proof.
  unfold drawCloudShape. cbv zeta. intros Hw.
  apply elem_of_app in Hw as [Hw|Hw].
  - elem_inv; by subst wr.
  - by apply drawHLine_color in Hw.
Qed.

Lemma drawWeatherIcon_color width x y code w :
  w ∈ drawWeatherIcon round_cos round_sin width x y code →
  snd w = INK_BLACK ∨ snd w = DARK_GRAY.
Proof.
  unfold drawWeatherIcon, sunIcon, cloudIcon, fogIcon, rainIcon, snowIcon,
    thunderstormIcon, unknownIcon.
  cbv zeta. intros Hw.
  repeat case_match;
    repeat match goal with
    | H : _ ∈ (drawCloudShape _ _ _ _ _ _ _ ++ _) |- _ =>
        apply elem_of_app in H as [H|H];
        [left; by apply drawCloudShape_color in H|]
    | H : _ ∈ drawCloudShape _ _ _ _ _ _ _ |- _ =>
        left; by apply drawCloudShape_color in H
    | H : _ ∈ drawText _ _ _ _ _ _ |- _ =>
        left; by apply drawText_color in H
    end.
  - elem_inv; subst w; by left.
  - apply list_elem_of_bind in Hw as (i & Hw & _).
    right. by apply drawHLine_color in Hw.
  - elem_inv; subst w; by left.
  - elem_inv; subst w; by left.
  - elem_inv; subst w; by left.
Qed.

Lemma run_levels width c w :
  call_levels c → w ∈ run round_cos round_sin width c → is_level (snd w).
Proof.
  destruct c; simpl; intros Hc Hw.
  - apply drawText_color in Hw. by rewrite Hw.
  - apply drawText_color in Hw. by rewrite Hw.
  - apply drawText_color in Hw. by rewrite Hw.
  - apply drawHLine_color in Hw. by rewrite Hw.
  - apply drawDashedHLine_color in Hw. by rewrite Hw.
  - apply drawWeatherIcon_color in Hw as [ -> | -> ]; auto with levels.
Qed.

Lemma run_all_levels width cs w :
  Forall call_levels cs → w ∈ run_all round_cos round_sin width cs →
  is_level (snd w).
Proof.
  intros Hcs (c & Hw & Hc)%list_elem_of_bind.
  apply (run_levels width c); [|done].
  by apply (proj1 (list.Forall_forall call_levels cs) Hcs).
Qed.

End Levels.

Ltac levels_list :=
  repeat first
    [ apply Forall_nil_2
    | apply Forall_cons_2; [simpl; try case_match; auto with levels|] ].

Lemma event_calls_levels width maxY isToday total event idx y :
  Forall call_levels (event_calls width maxY isToday total event idx y).
Proof.
  unfold event_calls. cbv zeta. apply Forall_app. split.
  - levels_list.
  - case_match; levels_list.
Qed.

Lemma renderEvents_levels width maxY isToday total rest idx y :
  Forall call_levels (fst (renderEvents width maxY isToday total rest idx y)).
Proof.
  revert idx y. induction rest as [|e rest IH]; intros idx y;
    cbn [renderEvents]; [constructor|].
  destruct (y + 30 >? maxY).
  - destruct (total - idx >? 0); cbn [fst]; unfold more_marker; levels_list.
  - cbn [fst]. apply Forall_app. split; [apply event_calls_levels | apply IH].
Qed.

Lemma renderDays_levels width maxY days idx y :
  Forall call_levels (renderDays width maxY days idx y).
Proof.
  revert idx y. induction days as [|d days IH]; intros idx y; simpl; [constructor|].
  case_match; [constructor|].
  apply Forall_app. split.
  - case_match; levels_list.
  - apply Forall_cons_2; [simpl; case_match; auto with levels|].
    case_match.
    + apply Forall_cons_2; [simpl; auto with levels | apply IH].
    + apply Forall_app. split; [apply renderEvents_levels | apply IH].
Qed.

Lemma render_calls_levels width height weather days generatedAt :
  Forall call_levels (render_calls width height weather days generatedAt).
Proof.
  unfold render_calls. repeat apply Forall_app_2.
  - unfold weather_calls. levels_list.
  - unfold weather_rule. levels_list.
  - unfold date_calls. levels_list.
  - apply renderDays_levels.
  - unfold footer_calls. levels_list.
Qed.

(** [renderDisplay] returns a buffer of [width * height] bytes unless
    that product is negative. *)
Lemma renderDisplay_length (round_cos round_sin : Q → Q → Z → Z)
    width height weather days generatedAt :
  match renderDisplay round_cos round_sin width height weather days generatedAt with
  | Some pixels => Z.of_nat (length pixels) = width * height
  | None => width * height < 0
  end.
Proof.
  unfold renderDisplay, newUint8Array.
  destruct (Z.ltb_spec (width * height) 0) as [Hneg|Hpos]; simpl; [done|].
  rewrite apply_writes_length, !length_replicate. lia.
Qed.

(** C10: whatever the weather, the days, the timestamp and the
    dimensions, every byte of the buffer that [renderDisplay] returns
    is one of the four levels 0, 64, 176 and 255; the buffer has
    [width * height] bytes, and the only way not to return one is the
    RangeError of a negative [width * height]. *)
Theorem render_four_levels (round_cos round_sin : Q → Q → Z → Z)
    (width height : Z) (weather : WeatherData) (days : list DayEvents)
    (generatedAt : DateView) :
  match renderDisplay round_cos round_sin width height weather days generatedAt with
  | Some pixels =>
      Forall (fun v => v = 0 ∨ v = 64 ∨ v = 176 ∨ v = 255) pixels
      ∧ Z.of_nat (length pixels) = width * height
  | None => width * height < 0
  end.
Proof.
  pose proof (renderDisplay_length round_cos round_sin width height weather days
                generatedAt) as Hlen.
  unfold renderDisplay, newUint8Array in *.
  destruct (Z.ltb_spec (width * height) 0) as [Hneg|Hpos]; simpl in *; [done|].
  split; [|done].
  apply (apply_writes_Forall is_level).
  - intros w Hw. apply run_all_levels in Hw; [|apply render_calls_levels].
    by rewrite is_level_byte.
  - apply Forall_replicate. auto with levels.
Qed.

(** ** Display dimensions *)

(** An integer of at most 53 bits is a double. *)
Lemma toNumber_safe (n : Z) : - 2 ^ 53 < n < 2 ^ 53 → toNumber n = Int n.
Proof.
  intros Hn. unfold toNumber. cbv zeta.
  assert (Hlog : Z.log2 (Z.abs n) < 53).
  { destruct (Z.eq_dec (Z.abs n) 0) as [->|Hne]; [by vm_compute|].
    apply Z.log2_lt_pow2; lia. }
  by rewrite (proj2 (Z.leb_le _ _)) by lia.
Qed.

Lemma is_whitespace_digit c : 45 ≤ c ≤ 57 → is_whitespace c = false.
Proof. intros Hc. unfold is_whitespace. simpl. decide_cmp. reflexivity. Qed.

Lemma uint_digits (d : Decimal.uint) :
  Forall (fun c => 48 ≤ c ≤ 57) (js (NilEmpty.string_of_uint d)).
Proof.
  induction d; cbn [NilEmpty.string_of_uint js list_ascii_of_string map];
    [constructor|constructor; [by vm_compute|done]..].
Qed.

Lemma parse_uint_pos (d : Decimal.uint) (a : positive) :
  parse_digits 10 (js (NilEmpty.string_of_uint d)) (Some (Z.pos a))
  = Some (Z.pos (Pos.of_uint_acc d a)).
Proof.
  revert a. induction d; intros a; [reflexivity|..];
    cbn [NilEmpty.string_of_uint js list_ascii_of_string map parse_digits];
    (match goal with |- context [digit_value ?c] =>
       let v := eval vm_compute in (digit_value c) in
       change (digit_value c) with v end);
    cbn [Z.ltb Z.compare Pos.compare Pos.compare_cont default Pos.of_uint_acc];
    rewrite <- IHd; unfold id; do 2 f_equal; lia.
Qed.

Lemma parse_uint_zero (d : Decimal.uint) :
  parse_digits 10 (js (NilEmpty.string_of_uint d)) (Some 0)
  = Some (Z.of_N (Pos.of_uint d)).
Proof.
  induction d; [reflexivity|exact IHd|..];
    cbn [NilEmpty.string_of_uint js list_ascii_of_string map parse_digits Pos.of_uint];
    (match goal with |- context [digit_value ?c] =>
       let v := eval vm_compute in (digit_value c) in
       change (digit_value c) with v end);
    cbn [Z.ltb Z.compare Pos.compare Pos.compare_cont default Z.mul Z.add Z.of_N];
    unfold id; rewrite <- parse_uint_pos; reflexivity.
Qed.

Lemma parse_uint_start (d : Decimal.uint) :
  d ≠ Decimal.Nil →
  parse_digits 10 (js (NilEmpty.string_of_uint d)) None = Some (Z.of_N (Pos.of_uint d)).
Proof.
  intros Hd. rewrite <- parse_uint_zero. destruct d; [done|reflexivity..].
Qed.

(** [parseInt] on a text of decimal digits, with or without a minus
    sign in front. *)
Lemma parseInt_decimal (t : jsstring) :
  t ≠ [] → Forall (fun c => 48 ≤ c ≤ 57) t →
  parseInt (Some t)
  = match parse_digits 10 t None with Some n => toNumber (1 * n) | None => NaN end
  ∧ parseInt (Some (45 :: t))
    = match parse_digits 10 t None with Some n => toNumber (-1 * n) | None => NaN end.
Proof.
  intros Hne Hall. destruct t as [|a rest]; [done|].
  apply list.Forall_cons in Hall as [Ha Hrest].
  unfold parseInt.
  change (default (js "undefined") (Some (a :: rest))) with (a :: rest).
  change (default (js "undefined") (Some (45 :: a :: rest))) with (45 :: a :: rest).
  cbn [skip_whitespace].
  rewrite (is_whitespace_digit a), (is_whitespace_digit 45) by lia.
  rewrite (proj2 (Z.eqb_neq a 45)), (proj2 (Z.eqb_neq a 43)) by lia.
  change (45 =? 45) with true. cbv iota beta.
  destruct rest as [|b rest]; [done|].
  apply list.Forall_cons in Hrest as [Hb _].
  rewrite (proj2 (Z.eqb_neq b 120)), (proj2 (Z.eqb_neq b 88)) by lia.
  by rewrite andb_false_r.
Qed.

Lemma uint_string_nonempty (d : Decimal.uint) :
  d ≠ Decimal.Nil → js (NilEmpty.string_of_uint d) ≠ [].
Proof. destruct d; done. Qed.

Lemma nilzero_string (d : Decimal.uint) :
  d ≠ Decimal.Nil → NilZero.string_of_uint d = NilEmpty.string_of_uint d.
Proof. destruct d; done. Qed.

Lemma parseInt_uint (d : Decimal.uint) :
  d ≠ Decimal.Nil →
  parseInt (Some (js (NilZero.string_of_uint d))) = toNumber (Z.of_N (Pos.of_uint d))
  ∧ parseInt (Some (45 :: js (NilZero.string_of_uint d)))
    = toNumber (- Z.of_N (Pos.of_uint d)).
Proof.
  intros Hd. rewrite nilzero_string by done.
  destruct (parseInt_decimal (js (NilEmpty.string_of_uint d))) as [Hpos Hneg];
    [by apply uint_string_nonempty|apply uint_digits|].
  rewrite Hpos, Hneg, parse_uint_start by done. split; f_equal; lia.
Qed.

(** [parseInt] of the decimal text of an integer is the double nearest
    to that integer. *)
Lemma parseInt_text (n : Z) : parseInt (Some (numToString n)) = toNumber n.
Proof.
  unfold numToString. destruct n as [|p|p]; cbn [Z.to_int NilZero.string_of_int].
  - reflexivity.
  - destruct (parseInt_uint (Pos.to_uint p)) as [-> _];
      [apply DecimalPos.Unsigned.to_uint_nonnil|].
    by rewrite DecimalPos.Unsigned.of_to.
  - change (js (String "-" ?s)) with (45 :: js s).
    destruct (parseInt_uint (Pos.to_uint p)) as [_ ->];
      [apply DecimalPos.Unsigned.to_uint_nonnil|].
    by rewrite DecimalPos.Unsigned.of_to.
Qed.

(** A text with nothing after its leading blanks is not a number. *)
Lemma parseInt_blank (t : jsstring) : skip_whitespace t = [] → parseInt (Some t) = NaN.
Proof.
  intros Ht. unfold parseInt.
  change (default (js "undefined") (Some t)) with t. by rewrite Ht.
Qed.

Lemma parse_digits_no_digit (c : Z) (rest : jsstring) :
  ¬ 48 ≤ c ≤ 57 → parse_digits 10 (c :: rest) None = None.
Proof.
  intros Hdigit. cbn [parse_digits]. unfold digit_value.
  destruct (Z.leb_spec 48 c), (Z.leb_spec c 57); cbn [andb]; try lia;
    destruct (Z.leb_spec 97 c), (Z.leb_spec c 122); cbn [andb];
    try (rewrite (proj2 (Z.ltb_ge _ _)) by lia; reflexivity);
    destruct (Z.leb_spec 65 c), (Z.leb_spec c 90); cbn [andb];
    try (rewrite (proj2 (Z.ltb_ge _ _)) by lia; reflexivity); reflexivity.
Qed.

(** Nor is one whose first character after the blanks is neither a
    sign nor a decimal digit. *)
Lemma parseInt_no_digit (t : jsstring) (c : Z) (rest : jsstring) :
  skip_whitespace t = c :: rest → c ≠ 43 → c ≠ 45 → ¬ 48 ≤ c ≤ 57 →
  parseInt (Some t) = NaN.
Proof.
  intros Ht Hplus Hminus Hdigit. unfold parseInt.
  change (default (js "undefined") (Some t)) with t. rewrite Ht.
  rewrite (proj2 (Z.eqb_neq c 45)), (proj2 (Z.eqb_neq c 43)) by done.
  assert (Hzero : (c =? 48) = false) by (apply Z.eqb_neq; lia).
  pose proof (parse_digits_no_digit c rest Hdigit) as Hparse.
  destruct rest as [|b rest']; [by rewrite Hparse|].
  rewrite Hzero. cbn [andb]. by rewrite Hparse.
Qed.

(** Nor one in which a sign is followed by no decimal digit. *)
Lemma parseInt_sign_no_digit (t : jsstring) (sign : Z) (rest : jsstring) :
  skip_whitespace t = sign :: rest → sign = 43 ∨ sign = 45 →
  rest = [] ∨ (∃ c rest', rest = c :: rest' ∧ ¬ 48 ≤ c ≤ 57) →
  parseInt (Some t) = NaN.
Proof.
  intros Ht Hsign Hrest. unfold parseInt.
  change (default (js "undefined") (Some t)) with t. rewrite Ht.
  assert (Htail : match parse_digits
                          (let '(radix, _) :=
                             match rest with
                             | a :: b :: t' =>
                                 if (a =? 48) && ((b =? 120) || (b =? 88))
                                 then (16, t') else (10, rest)
                             | _ => (10, rest)
                             end in radix)
                          (let '(_, t0) :=
                             match rest with
                             | a :: b :: t' =>
                                 if (a =? 48) && ((b =? 120) || (b =? 88))
                                 then (16, t') else (10, rest)
                             | _ => (10, rest)
                             end in t0) None with
                  | Some _ => False
                  | None => True
                  end).
  { destruct Hrest as [-> | (c & rest' & -> & Hdigit)]; [done|].
    pose proof (parse_digits_no_digit c rest' Hdigit) as Hparse.
    assert (Hzero : (c =? 48) = false) by (apply Z.eqb_neq; lia).
    destruct rest' as [|b rest'']; [by rewrite Hparse|].
    rewrite Hzero. cbn [andb]. by rewrite Hparse. }
  destruct Hsign as [-> | ->]; cbn [Z.eqb Pos.eqb];
    destruct (match rest with
              | a :: b :: t' =>
                  if (a =? 48) && ((b =? 120) || (b =? 88)) then (16, t') else (10, rest)
              | _ => (10, rest)
              end) as [radix t0];
    by destruct (parse_digits radix t0 None).
Qed.

Lemma parseInt_undefined : parseInt None = NaN.
Proof. reflexivity. Qed.

(** The rule of [||], on what [parseInt] returned. *)
Lemma or_default_rule (n : number) (d : Z) :
  (n = NaN → or_default n d = Int d)
  ∧ (n = Int 0 → or_default n d = Int d)
  ∧ (∀ v, n = Int v → v ≠ 0 → or_default n d = Int v)
  ∧ (∀ negative, n = Infinity negative → or_default n d = Infinity negative).
Proof.
  split; [by intros ->|]. split; [by intros ->|]. split; [|by intros ? ->].
  intros v -> Hv. simpl. by rewrite (proj2 (Z.eqb_neq v 0)).
Qed.

Lemma or_default_nonzero n d : d ≠ 0 → or_default n d ≠ Int 0 ∧ or_default n d ≠ NaN.
Proof.
  intros Hd. destruct n as [|negative|v]; simpl; [split; congruence|done|].
  destruct (Z.eqb_spec v 0); split; congruence.
Qed.

Lemma dimension_rule_holds (raw : option jsstring) (d : Z) :
  dimension_rule raw d (or_default (parseInt raw) d).
Proof.
  destruct (or_default_rule (parseInt raw) d) as (Hnan & Hzero & Hkeep & Hinf).
  unfold dimension_rule. split; [|split; [|split; [|split; [|split]]]].
  - intros ->. by apply Hnan.
  - intros t -> Ht. by apply Hnan, parseInt_blank.
  - intros t c rest -> Ht Hplus Hminus Hdigit.
    by apply Hnan, (parseInt_no_digit t c rest).
  - intros t sign rest -> Ht Hsign Hrest.
    by apply Hnan, (parseInt_sign_no_digit t sign rest).
  - intros n Hn ->. pose proof (parseInt_text n) as Hparse.
    rewrite toNumber_safe in Hparse by done.
    destruct (Z.eqb_spec n 0) as [->|Hne]; [by apply Hzero|by apply Hkeep].
  - done.
Qed.

(** C6 (as the code has it): a dimension that is missing, that does
    not start with a number, or that parses to zero falls back to the
    default, 480 or 800; every other parsed integer, a negative one
    included, is used as it is ([dimension_rule]).  These are the
    dimensions that the handler renders and encodes with.  No
    dimension is ever zero, so the length [width * height] that
    [renderDisplay] asks for is never zero and a buffer that it
    returns is not empty; for a negative product it raises
    RangeError. *)
Theorem display_dimensions (round_cos round_sin : Q → Q → Z → Z) (env : Env)
    (weather : WeatherData) (days : list DayEvents) (generatedAt : DateView) :
  dimension_rule (DISPLAY_WIDTH env) 480 (display_width env)
  ∧ dimension_rule (DISPLAY_HEIGHT env) 800 (display_height env)
  ∧ display_width env ≠ Int 0 ∧ display_height env ≠ Int 0
  ∧ ∀ width height,
      display_width env = Int width → display_height env = Int height →
      fetch round_cos round_sin env weather days generatedAt
      = renderDisplay round_cos round_sin width height weather days generatedAt
        ≫= createBMP width height
      ∧ width * height ≠ 0
      ∧ (width * height < 0 →
         renderDisplay round_cos round_sin width height weather days generatedAt = None)
      ∧ ∀ pixels,
          renderDisplay round_cos round_sin width height weather days generatedAt
          = Some pixels →
          Z.of_nat (length pixels) = width * height ∧ (0 < length pixels)%nat.
Proof.
  split; [apply dimension_rule_holds|]. split; [apply dimension_rule_holds|].
  assert (Hw : display_width env ≠ Int 0) by (by apply or_default_nonzero).
  assert (Hh : display_height env ≠ Int 0) by (by apply or_default_nonzero).
  split; [done|]. split; [done|].
  intros width height Hwidth Hheight.
  assert (width ≠ 0) by congruence. assert (height ≠ 0) by congruence.
  pose proof (renderDisplay_length round_cos round_sin width height weather days
                generatedAt) as Hlen.
  split; [unfold fetch; by rewrite Hwidth, Hheight|].
  split; [lia|]. split.
  - intros Hneg. destruct (renderDisplay _ _ _ _ _ _ _); [lia|done].
  - intros pixels Hpixels. rewrite Hpixels in Hlen.
    assert (width * height ≠ 0) by lia. lia.
Qed.

(** C6, the claim as stated fails for a negative value: it is truthy,
    so [||] keeps it; with one negative dimension the allocation of
    the buffer then raises RangeError. *)
Lemma display_negative_counterexample :
  let env := {| DISPLAY_WIDTH := Some (js "-480"); DISPLAY_HEIGHT := Some (js "800");
                GOOGLE_CALENDAR_API_KEY := None; GOOGLE_CALENDAR_ID := None |} in
  display_width env = Int (-480)
  ∧ display_height env = Int 800
  ∧ newUint8Array (-480 * 800) = None.
Proof. vm_compute. auto. Qed.

(** ** The agenda and the overflow marker *)

Lemma painted_le maxY evs y : (painted maxY evs y ≤ length evs)%nat.
Proof.
  revert y. induction evs as [|e evs IH]; intros y; simpl; [lia|].
  case_match; [lia|]. specialize (IH (y + eventRowHeight)). lia.
Qed.

(** Where the loop stops short, the next row does not fit. *)
Lemma painted_overflow maxY evs y :
  (painted maxY evs y < length evs)%nat →
  y + eventRowHeight * Z.of_nat (painted maxY evs y) + 30 > maxY.
Proof.
  revert y. induction evs as [|e evs IH]; intros y; simpl; [lia|].
  destruct (y + 30 >? maxY) eqn:Hfit.
  - rewrite Z.gtb_ltb in Hfit. guards. lia.
  - intros Hlt. specialize (IH (y + eventRowHeight) ltac:(lia)). lia.
Qed.

Lemma renderEvents_spec width maxY isToday total evs idx y :
  total = idx + Z.of_nat (length evs) →
  let p := painted maxY evs y in
  renderEvents width maxY isToday total evs idx y
  = if decide (p < length evs)%nat
    then (paint_all width maxY isToday total (take p evs) idx y
          ++ [more_marker (y + eventRowHeight * Z.of_nat p) (total - idx - Z.of_nat p)],
          y + eventRowHeight * Z.of_nat p + 30)
    else (paint_all width maxY isToday total evs idx y,
          y + eventRowHeight * Z.of_nat (length evs)).
Proof.
  revert idx y. induction evs as [|e evs IH]; intros idx y Htotal; cbn zeta.
  - simpl. f_equal. lia.
  - cbn [renderEvents painted length] in *.
    destruct (y + 30 >? maxY) eqn:Hfit.
    + rewrite decide_True by lia.
      rewrite (proj2 (Z.gtb_gt (total - idx) 0)) by lia.
      cbn [take paint_all app].
      replace (y + eventRowHeight * Z.of_nat 0) with y by lia.
      replace (total - idx - Z.of_nat 0) with (total - idx) by lia.
      reflexivity.
    + replace (y + 26 + (eventRowHeight - 26)) with (y + eventRowHeight) by lia.
      rewrite IH by lia. cbn zeta.
      set (p := painted maxY evs (y + eventRowHeight)).
      destruct (decide (p < length evs)%nat).
      * rewrite decide_True by lia.
        cbn [fst snd take paint_all]. rewrite <- app_assoc.
        replace (y + eventRowHeight + eventRowHeight * Z.of_nat p)
          with (y + eventRowHeight * Z.of_nat (S p)) by lia.
        replace (total - (idx + 1) - Z.of_nat p)
          with (total - idx - Z.of_nat (S p)) by lia.
        reflexivity.
      * rewrite decide_False by lia.
        cbn [fst snd paint_all].
        replace (y + eventRowHeight + eventRowHeight * Z.of_nat (length evs))
          with (y + eventRowHeight * Z.of_nat (S (length evs))) by lia.
        reflexivity.
Qed.

Lemma event_calls_no_marker width maxY isToday total e idx y :
  List.filter is_marker (event_calls width maxY isToday total e idx y) = [].
Proof.
  unfold event_calls. cbv zeta.
  destruct isToday, ((idx <? total - 1) && (y + 26 + eventRowHeight <=? maxY));
    reflexivity.
Qed.

Lemma paint_all_no_marker width maxY isToday total evs idx y :
  List.filter is_marker (paint_all width maxY isToday total evs idx y) = [].
Proof.
  revert idx y. induction evs as [|e evs IH]; intros idx y; cbn [paint_all]; [done|].
  by rewrite List.filter_app, event_calls_no_marker, IH.
Qed.

Lemma day_header_no_marker width day idx y :
  List.filter is_marker (day_header_calls width day idx y) = [].
Proof.
  unfold day_header_calls.
  destruct (idx =? 0), (bool_decide (label day = js "TODAY")); reflexivity.
Qed.

Lemma more_marker_is_marker y n : is_marker (more_marker y n) = true.
Proof. reflexivity. Qed.

(** Once the next day cannot start, the loop over the days paints
    nothing more. *)
Lemma renderDays_no_space width maxY days idx y :
  y + (dayHeaderHeight + eventRowHeight) > maxY → renderDays width maxY days idx y = [].
Proof.
  intros Hy. destruct days as [|d days]; [done|]. cbn [renderDays]. cbv zeta.
  by rewrite (proj2 (Z.gtb_gt _ _)) by lia.
Qed.

(** One iteration of the loop over the days, once the day has room. *)
Lemma renderDays_step width maxY day days' idx y :
  y + (dayHeaderHeight + eventRowHeight) ≤ maxY →
  let y2 := (if idx =? 0 then y else y + 15) + (dayHeaderHeight - 5) in
  let n := length (events day) in
  let isToday := bool_decide (label day = js "TODAY") in
  let p := painted maxY (events day) y2 in
  renderDays width maxY (day :: days') idx y
  = day_header_calls width day idx y
    ++ (if decide (n = O) then
          DrawText (MARGIN + timeColumnWidth) y2 (js "No events") LIGHT_GRAY 2
          :: renderDays width maxY days' (idx + 1) (y2 + eventRowHeight)
        else if decide (p < n)%nat then
          paint_all width maxY isToday (Z.of_nat n) (take p (events day)) 0 y2
          ++ [more_marker (y2 + eventRowHeight * Z.of_nat p) (Z.of_nat n - Z.of_nat p)]
        else
          paint_all width maxY isToday (Z.of_nat n) (events day) 0 y2
          ++ renderDays width maxY days' (idx + 1) (y2 + eventRowHeight * Z.of_nat n)).
Proof.
  intros Hy. cbv zeta. cbn [renderDays]. cbv zeta.
  rewrite Z.gtb_ltb, (proj2 (Z.ltb_ge _ _) Hy).
  unfold day_header_calls. rewrite <- app_assoc. f_equal. cbn [app]. f_equal.
  destruct (decide (length (events day) = O)) as [Hn|Hn].
  - rewrite Hn. reflexivity.
  - rewrite (proj2 (Z.eqb_neq _ _)) by lia.
    rewrite renderEvents_spec by lia. cbv zeta.
    case_decide as Hp.
    + cbn [fst snd].
      replace (Z.of_nat (length (events day)) - 0 - Z.of_nat (painted maxY (events day)
                 ((if idx =? 0 then y else y + 15) + (dayHeaderHeight - 5))))
        with (Z.of_nat (length (events day)) - Z.of_nat (painted maxY (events day)
                 ((if idx =? 0 then y else y + 15) + (dayHeaderHeight - 5)))) by lia.
      rewrite renderDays_no_space; [by rewrite app_nil_r|].
      pose proof (painted_overflow _ _ _ Hp).
      unfold dayHeaderHeight, eventRowHeight in *. lia.
    + reflexivity.
Qed.

(** At most one marker in the whole agenda, and nothing after it. *)
Lemma renderDays_marker_last width maxY days idx y :
  List.filter is_marker (renderDays width maxY days idx y) = []
  ∨ ∃ pre ym n,
      renderDays width maxY days idx y = pre ++ [more_marker ym n]
      ∧ List.filter is_marker pre = [].
Proof.
  revert idx y. induction days as [|d days IH]; intros idx y; [by left|].
  destruct (Z.le_gt_cases (y + (dayHeaderHeight + eventRowHeight)) maxY) as [Hy|Hy].
  - rewrite renderDays_step by done. cbv zeta.
    set (header := day_header_calls width d idx y).
    assert (Hheader : List.filter is_marker header = [])
      by apply day_header_no_marker.
    destruct (decide (length (events d) = O)) as [Hn|Hn];
      [|destruct (decide (_ < _)%nat) as [Hp|Hp]].
    + match goal with |- context [renderDays width maxY days ?i ?yy] =>
        destruct (IH i yy) as [Hnone | (pre & ym & n & -> & Hpre)] end.
      * left. rewrite List.filter_app, Hheader. simpl. by rewrite Hnone.
      * right.
        match goal with |- context [?c :: pre ++ _] =>
          exists (header ++ c :: pre), ym, n end.
        split.
        -- by rewrite <- app_assoc.
        -- rewrite List.filter_app, Hheader. simpl. by rewrite Hpre.
    + right.
      match goal with |- context [header ++ ?paint ++ [more_marker ?ym ?n]] =>
        exists (header ++ paint), ym, n end.
      split; [by rewrite <- app_assoc|].
      by rewrite List.filter_app, Hheader, paint_all_no_marker.
    + match goal with |- context [renderDays width maxY days ?i ?yy] =>
        destruct (IH i yy) as [Hnone | (pre & ym & n & -> & Hpre)] end.
      * left. by rewrite !List.filter_app, Hheader, paint_all_no_marker, Hnone.
      * right.
        match goal with |- context [header ++ ?paint ++ pre ++ _] =>
          exists (header ++ paint ++ pre), ym, n end.
        split.
        -- by rewrite !app_assoc.
        -- by rewrite !List.filter_app, Hheader, paint_all_no_marker, Hpre.
  - left. by rewrite renderDays_no_space by lia.
Qed.

(** Once a marker has been drawn, days that follow change nothing. *)
Lemma renderDays_stops width maxY days more idx y :
  List.filter is_marker (renderDays width maxY days idx y) ≠ [] →
  renderDays width maxY (days ++ more) idx y = renderDays width maxY days idx y.
Proof.
  revert idx y. induction days as [|d days IH]; intros idx y; [done|].
  destruct (Z.le_gt_cases (y + (dayHeaderHeight + eventRowHeight)) maxY) as [Hy|Hy].
  - cbn [app]. rewrite !renderDays_step by done. cbv zeta.
    rewrite !List.filter_app, day_header_no_marker. cbn [app].
    destruct (decide (length (events d) = O)) as [Hn|Hn];
      [|destruct (decide (_ < _)%nat) as [Hp|Hp]].
    + cbn [List.filter is_marker]. unfold MARGIN, timeColumnWidth. cbn [Z.eqb andb].
      intros Hrest. by rewrite IH.
    + done.
    + rewrite List.filter_app, paint_all_no_marker. cbn [app].
      intros Hrest. by rewrite IH.
  - by rewrite (renderDays_no_space _ _ (d :: days)) by lia.
Qed.

(** The events met before the first row that does not fit. *)
Lemma painted_count maxY evs y (p : nat) :
  (p < length evs)%nat →
  (∀ i, (i < p)%nat → y + 45 * Z.of_nat i + 30 ≤ maxY) →
  maxY < y + 45 * Z.of_nat p + 30 →
  painted maxY evs y = p.
Proof.
  revert y p. induction evs as [|e evs IH]; intros y p Hp Hfit Hnext; simpl in *; [lia|].
  destruct p as [|p].
  - by rewrite (proj2 (Z.gtb_gt _ _)) by lia.
  - pose proof (Hfit O ltac:(lia)) as Hfirst.
    rewrite Z.gtb_ltb, (proj2 (Z.ltb_ge _ _)) by lia.
    f_equal. apply IH; [lia| |unfold eventRowHeight; lia].
    intros i Hi. specialize (Hfit (S i) ltac:(lia)). unfold eventRowHeight. lia.
Qed.

(** The rows of events that are all followed by another event of
    their day, call by call. *)
Lemma paint_all_rows width maxY (isToday : bool) total evs idx y
    (f : nat → CalendarEvent → list call) :
  idx + Z.of_nat (length evs) < total →
  (∀ i e,
     f i e
     = [ DrawText 24 (y + 45 * Z.of_nat i) (time e)
           (if isToday then INK_BLACK else DARK_GRAY) 2;
         DrawText 124 (y + 45 * Z.of_nat i) (truncateTitle (width - 158) (title e))
           (if isToday then INK_BLACK else DARK_GRAY) 2 ]
       ++ (if y + 45 * Z.of_nat i + 71 <=? maxY
           then [DrawHLine (y + 45 * Z.of_nat i + 26) 24 (width - 24) LIGHT_GRAY 1]
           else [])) →
  paint_all width maxY isToday total evs idx y = concat (imap f evs).
Proof.
  revert idx y f. induction evs as [|e evs IH]; intros idx y f Hidx Hf; [done|].
  cbn [paint_all length] in *. rewrite imap_cons. cbn [concat]. f_equal.
  - rewrite Hf. unfold event_calls. cbv zeta.
    unfold MARGIN, timeColumnWidth, eventRowHeight.
    rewrite (proj2 (Z.ltb_lt idx (total - 1))) by lia. cbn [andb].
    replace (y + 45 * Z.of_nat 0) with y by lia.
    replace (width - 24 * 2 - 100 - 10) with (width - 158) by lia.
    replace (y + 26 + 45) with (y + 71) by lia.
    reflexivity.
  - apply IH; [lia|]. intros i e'. unfold compose. rewrite Hf.
    unfold eventRowHeight.
    replace (y + 45 * Z.of_nat (S i)) with (y + 45 + 45 * Z.of_nat i) by lia.
    reflexivity.
Qed.

Lemma rows_no_marker (f : nat → CalendarEvent → list call) evs :
  (∀ i e, List.filter is_marker (f i e) = []) →
  List.filter is_marker (concat (imap f evs)) = [].
Proof.
  revert f. induction evs as [|e evs IH]; intros f Hf; [done|].
  rewrite imap_cons. cbn [concat]. rewrite List.filter_app, Hf, IH; [done|].
  intros i e'. apply Hf.
Qed.

Lemma rows_titles (f : nat → CalendarEvent → list call) evs :
  (∀ i e, length (List.filter is_title (f i e)) = 1%nat) →
  length (List.filter is_title (concat (imap f evs))) = length evs.
Proof.
  revert f. induction evs as [|e evs IH]; intros f Hf; [done|].
  rewrite imap_cons. cbn [concat length].
  rewrite List.filter_app, length_app, Hf, IH; [done|].
  intros i e'. apply Hf.
Qed.

(** C2: a day that is started (its header has room) and whose events
    overflow: the rows of its first [p] events fit and the row of the
    next one does not.  From the state in which the loop over the days
    reaches it, the calls are the header of the day, for each of the
    first [p] events its time, its title and, where a whole row still
    follows, a divider, and then the text "+N more..." in light gray
    at the left margin, with [N] the number of events that were not
    painted.  That marker is the only one and the last call, whatever
    days follow; [p] titles are drawn.  Over the whole agenda there is
    at most one marker, it is the last call, and days added after it
    change nothing. *)
Theorem overflow_marker (width maxContentY : Z) (day : DayEvents)
    (days' : list DayEvents) (dayIndex eventY : Z) (p : nat) :
  let eventY1 := if dayIndex =? 0 then eventY else eventY + 15 in
  let row (i : nat) := eventY1 + 35 + 45 * Z.of_nat i in
  let color := if bool_decide (label day = js "TODAY") then INK_BLACK else DARK_GRAY in
  let header :=
    (if dayIndex =? 0 then []
     else [DrawDashedHLine eventY 24 (width - 24) DARK_GRAY 6 4])
    ++ [DrawText 24 eventY1 (label day) color 2] in
  let event_row (i : nat) (event : CalendarEvent) :=
    [ DrawText 24 (row i) (time event) color 2;
      DrawText 124 (row i) (truncateTitle (width - 158) (title event)) color 2 ]
    ++ (if row i + 71 <=? maxContentY
        then [DrawHLine (row i + 26) 24 (width - 24) LIGHT_GRAY 1]
        else []) in
  let unpainted := drop p (events day) in
  let marker :=
    DrawText 24 (row p)
      (js "+" ++ numToString (Z.of_nat (length unpainted)) ++ js " more...")
      LIGHT_GRAY 2 in
  let calls := renderDays width maxContentY (day :: days') dayIndex eventY in
  eventY + 85 ≤ maxContentY →
  (p < length (events day))%nat →
  (∀ i, (i < p)%nat → row i + 30 ≤ maxContentY) →
  maxContentY < row p + 30 →
  calls = header ++ concat (imap event_row (take p (events day))) ++ [marker]
  ∧ List.filter is_marker calls = [marker]
  ∧ length (List.filter is_title calls) = p
  ∧ (∀ height days,
       List.filter is_marker (agenda_calls width height days) = []
       ∨ ∃ pre y k,
           agenda_calls width height days
           = pre ++ [DrawText 24 y (js "+" ++ numToString k ++ js " more...")
                       LIGHT_GRAY 2]
           ∧ List.filter is_marker pre = [])
  ∧ ∀ height days more,
      List.filter is_marker (agenda_calls width height days) ≠ [] →
      agenda_calls width height (days ++ more) = agenda_calls width height days.
Proof.
  intros eventY1 row color header event_row unpainted marker calls
    Hstart Hover Hfit Hnext.
  assert (Hp : painted maxContentY (events day) (eventY1 + 35) = p).
  { apply painted_count; [done| |subst row; simpl in Hnext; lia].
    intros i Hi. specialize (Hfit i Hi). subst row. simpl in Hfit. lia. }
  assert (Hrows : ∀ i e, List.filter is_marker (event_row i e) = []
                         ∧ length (List.filter is_title (event_row i e)) = 1%nat).
  { intros i e. subst event_row color. cbv beta.
    destruct (bool_decide (label day = js "TODAY")), (row i + 71 <=? maxContentY);
      split; reflexivity. }
  assert (Hheader : List.filter is_marker header = []
                    ∧ List.filter is_title header = []).
  { subst header color.
    destruct (dayIndex =? 0), (bool_decide (label day = js "TODAY"));
      split; reflexivity. }
  assert (Hcalls : calls = header ++ concat (imap event_row (take p (events day)))
                           ++ [marker]).
  { subst calls. rewrite renderDays_step by (unfold dayHeaderHeight, eventRowHeight; lia).
    cbv zeta.
    change ((if dayIndex =? 0 then eventY else eventY + 15) + (dayHeaderHeight - 5))
      with (eventY1 + 35).
    rewrite Hp. rewrite decide_False by lia. rewrite decide_True by done.
    f_equal. f_equal.
    - apply paint_all_rows.
      + rewrite length_take. lia.
      + intros i e. reflexivity.
    - unfold more_marker, marker, unpainted, row, eventRowHeight, MARGIN.
      rewrite length_drop.
      replace (Z.of_nat (length (events day)) - Z.of_nat p)
        with (Z.of_nat (length (events day) - p)) by lia.
      reflexivity. }
  split; [done|]. split; [|split; [|split]].
  - rewrite Hcalls, !List.filter_app, (proj1 Hheader), rows_no_marker;
      [reflexivity|]. intros i e. apply Hrows.
  - rewrite Hcalls, !List.filter_app, !length_app, (proj2 Hheader), rows_titles.
    + rewrite length_take. change (List.filter is_title [marker]) with (@nil call).
      simpl. lia.
    + intros i e. apply Hrows.
  - intros height days.
    destruct (renderDays_marker_last width (height - FOOTER_HEIGHT) days 0
                (dateSectionEnd + 20)) as [Hnone | (pre & ym & k & Hlast & Hpre)].
    + by left.
    + right. exists pre, ym, k. split; [exact Hlast|exact Hpre].
  - intros height days more. apply renderDays_stops.
Qed.

Lemma overflow_marker_witness :
  let calls := renderDays 480 750 [sample_busy_day; sample_next_day] 0 270 in
  List.filter is_marker calls = [DrawText 24 755 (js "+40 more...") LIGHT_GRAY 2]
  ∧ length (List.filter is_title calls) = 10%nat.
Proof.
  intros calls.
  destruct (overflow_marker 480 750 sample_busy_day [sample_next_day] 0 270 10)
    as (_ & Hmarker & Htitles & _).
  - lia.
  - vm_compute. lia.
  - intros i Hi. cbn. lia.
  - vm_compute. reflexivity.
  - split; [exact Hmarker|exact Htitles].
Defined.

(** ** The BMP encoder *)

(** The last store to an index decides its value; when every store
    to [j] carries [v], that is [v]. *)
Lemma apply_writes_lookup_unique ws a j v :
  (j, v) ∈ ws → (∀ w, w ∈ ws → fst w = j → snd w = v) →
  0 ≤ j < Z.of_nat (length a) →
  apply_writes a ws !! Z.to_nat j = Some (v mod 256).
Proof.
  induction ws as [|w ws IH] using rev_ind; intros Hin Huniq Hj.
  - by apply elem_of_nil in Hin.
  - rewrite apply_writes_app. simpl.
    destruct (decide (fst w = j)) as [Hw|Hw].
    + rewrite Hw, (Huniq w) by (done || apply elem_of_app; right; apply list_elem_of_here).
      apply store_lookup_eq. by rewrite apply_writes_length.
    + rewrite store_lookup_ne by lia.
      apply IH; [|intros w' Hw'; apply Huniq, elem_of_app; by left|done].
      apply elem_of_app in Hin as [Hin|Hin%list_elem_of_singleton]; [done|].
      subst w. done.
Qed.

Lemma le_bytes_length n v : length (le_bytes n v) = n.
Proof. revert v. induction n as [|n IH]; intros v; simpl; [done|by rewrite IH]. Qed.

Lemma le_bytes_range n v b : b ∈ le_bytes n v → 0 ≤ b < 256.
Proof.
  revert v. induction n as [|n IH]; intros v; simpl.
  - by intros ?%elem_of_nil.
  - intros [->|Hb]%elem_of_cons; [apply Z.mod_pos_bound; lia|by apply IH in Hb].
Qed.

Lemma from_le_bytes n v : from_le (le_bytes n v) = v mod 256 ^ Z.of_nat n.
Proof.
  revert v. induction n as [|n IH]; intros v.
  - simpl. by rewrite Z.mod_1_r.
  - cbn [le_bytes from_le]. rewrite IH, Nat2Z.inj_succ, Z.pow_succ_r by lia.
    rewrite Z.rem_mul_r by lia. reflexivity.
Qed.

Lemma dv_set_Some n buf off v :
  0 ≤ off → off + Z.of_nat n ≤ Z.of_nat (length buf) →
  ∃ b, dv_set n buf off v = Some b ∧ length b = length buf.
Proof.
  intros Hoff Hfit. unfold dv_set. decide_cmp. simpl.
  eexists. split; [reflexivity|apply apply_writes_length].
Qed.

Lemma dv_get_ext n b b' off :
  length b = length b' →
  (∀ k, (k < n)%nat → b !! (Z.to_nat off + k)%nat = b' !! (Z.to_nat off + k)%nat) →
  dv_get n b off = dv_get n b' off.
Proof.
  intros Hlen Hsame. unfold dv_get. rewrite Hlen. case_match; [|done].
  do 2 f_equal. apply list_eq. intros i. rewrite !lookup_take.
  case_decide; [|done]. rewrite !lookup_drop. by apply Hsame.
Qed.

(** Stores elsewhere leave a field as it was. *)
Lemma dv_get_frame_writes n off buf ws :
  0 ≤ off → (∀ w, w ∈ ws → fst w < off ∨ off + Z.of_nat n ≤ fst w) →
  dv_get n (apply_writes buf ws) off = dv_get n buf off.
Proof.
  intros Hoff Hws. apply dv_get_ext; [apply apply_writes_length|].
  intros k Hk. apply apply_writes_lookup_other.
  intros w Hw. specialize (Hws w Hw). lia.
Qed.

Lemma dv_get_frame_set n off m buf off' v b :
  dv_set m buf off' v = Some b → 0 ≤ off →
  off + Z.of_nat n ≤ off' ∨ off' + Z.of_nat m ≤ off →
  dv_get n b off = dv_get n buf off.
Proof.
  unfold dv_set. case_match; [|discriminate]. intros [= <-] Hoff Hdisj.
  apply dv_get_frame_writes; [done|].
  intros w (k & byte & -> & Hk)%elem_of_lookup_imap. simpl.
  apply lookup_lt_Some in Hk. rewrite le_bytes_length in Hk. lia.
Qed.

(** A field reads back what was set, reduced to its width. *)
Lemma dv_get_set n buf off v b :
  dv_set n buf off v = Some b → dv_get n b off = Some (v mod 256 ^ Z.of_nat n).
Proof.
  unfold dv_set. case_match eqn:Hguard; [|discriminate]. intros [= <-].
  unfold dv_get. rewrite apply_writes_length, Hguard. f_equal.
  rewrite <- from_le_bytes. f_equal.
  guards. apply list_eq. intros i. rewrite lookup_take.
  case_decide as Hi.
  - rewrite lookup_drop.
    destruct (le_bytes n v !! i) as [byte|] eqn:Hbyte.
    2: { apply lookup_ge_None in Hbyte. rewrite le_bytes_length in Hbyte. lia. }
    replace (Z.to_nat off + i)%nat with (Z.to_nat (off + Z.of_nat i)) by lia.
    rewrite (apply_writes_lookup_unique _ _ _ byte).
    + f_equal. apply Z.mod_small.
      apply (le_bytes_range n v). by apply list_elem_of_lookup_2 in Hbyte.
    + apply elem_of_lookup_imap. eauto.
    + intros w (k & byte' & -> & Hk)%elem_of_lookup_imap. simpl. intros Heq.
      assert (k = i) by lia. subst k. congruence.
    + lia.
  - symmetry. apply lookup_ge_None. rewrite le_bytes_length. lia.
Qed.

Lemma palette_writes_elem off w :
  w ∈ palette_writes off →
  ∃ i k, 0 ≤ i < 256 ∧ 0 ≤ k < 4 ∧ fst w = off + i * 4 + k
         ∧ snd w = (if k =? 3 then 0 else i).
Proof.
  unfold palette_writes. intros Hw. elem_inv; subst w; simpl.
  - exists x, 0. repeat split; lia.
  - exists x, 1. repeat split; lia.
  - exists x, 2. repeat split; lia.
  - exists x, 3. repeat split; lia.
Qed.

Lemma pixel_writes_elem off padded width height pixelData w :
  0 ≤ padded → w ∈ pixel_writes off padded width height pixelData → off ≤ fst w.
Proof.
  unfold pixel_writes. intros Hp Hw. elem_inv. subst w. simpl. nia.
Qed.

Lemma ceil_div_4_nonneg width : 0 ≤ width → 0 ≤ ceil_div width 4 * 4.
Proof.
  intros Hw. unfold ceil_div.
  assert (- width / 4 ≤ 0) by (apply Z.div_le_upper_bound; lia). lia.
Qed.

Lemma take_drop_4 (l : list Z) (n : nat) a b c d :
  l !! n = Some a → l !! (n + 1)%nat = Some b →
  l !! (n + 2)%nat = Some c → l !! (n + 3)%nat = Some d →
  take 4 (drop n l) = [a; b; c; d].
Proof.
  intros Ha Hb Hc Hd. apply list_eq. intros j.
  rewrite lookup_take, lookup_drop.
  destruct j as [|[|[|[|j]]]].
  - rewrite decide_True by lia. by rewrite Nat.add_0_r.
  - by rewrite decide_True by lia.
  - by rewrite decide_True by lia.
  - by rewrite decide_True by lia.
  - by rewrite decide_False by lia.
Qed.

(** Run the next [DataView] store of the header in the goal. *)
Ltac header_store :=
  match goal with
  | |- context [dv_set ?n ?buf ?off ?v] =>
      let b := fresh "buffer" in
      let Hb := fresh "Hset" in
      let Hl := fresh "Hlen" in
      destruct (dv_set_Some n buf off v) as (b & Hb & Hl);
      [ lia | simpl Z.of_nat; lia | rewrite Hb; cbn [mbind option_bind] ]
  end.

(** Carry a field back over the later stores of the header. *)
Ltac frame_back :=
  repeat match goal with
  | H : dv_set _ ?buf _ _ = Some ?b |- context [dv_get _ ?b _] =>
      first [ rewrite (dv_get_set _ _ _ _ _ H)
            | rewrite (dv_get_frame_set _ _ _ _ _ _ _ H) by (simpl Z.of_nat; lia) ]
  end.

(** C3: for a width [w >= 0], a height [0 <= h <= 2^31] and any pixel
    array, the encoder returns a file of exactly
    [14 + 40 + 256*4 + (ceil(w/4)*4)*h] bytes whose height field
    (offset 22, signed, little-endian) is [-h], whose bits-per-pixel
    field (offset 28) is 8, whose compression field (offset 30) is 0,
    and whose palette entry [i] (offset [54 + 4*i]) is the four bytes
    [(i, i, i, 0)] for every [i] in 0..255. *)
Theorem createBMP_layout (width height : Z) (pixelData : list Z) :
  0 ≤ width → 0 ≤ height ≤ 2 ^ 31 →
  ∃ bmp,
    createBMP width height pixelData = Some bmp
    ∧ Z.of_nat (length bmp) = 14 + 40 + 256 * 4 + (ceil_div width 4 * 4) * height
    ∧ getInt32 bmp 22 = Some (- height)
    ∧ getUint16 bmp 28 = Some 8
    ∧ getUint32 bmp 30 = Some 0
    ∧ ∀ i, 0 ≤ i < 256 →
        take 4 (drop (Z.to_nat (54 + 4 * i)) bmp) = [i; i; i; 0].
Proof.
  intros Hw Hh.
  pose proof (ceil_div_4_nonneg width Hw) as Hpad.
  unfold createBMP. cbv zeta.
  set (padded := ceil_div width 4 * 4) in *. clearbody padded.
  set (fileSize := 14 + 40 + 256 * 4 + padded * height).
  assert (Hdata : 0 ≤ padded * height) by (apply Z.mul_nonneg_nonneg; lia).
  assert (Hsize : fileSize = 1078 + padded * height) by (subst fileSize; lia).
  clearbody fileSize.
  unfold newUint8Array. rewrite (proj2 (Z.ltb_ge fileSize 0)) by lia.
  cbn [mbind option_bind].
  set (buffer0 := store (store (replicate (Z.to_nat fileSize) 0) 0 66) 1 77).
  assert (Hlen0 : length buffer0 = Z.to_nat fileSize)
    by (subst buffer0; by rewrite !store_length, length_replicate).
  unfold setUint32, setInt32, setUint16.
  do 14 header_store.
  set (palette := palette_writes (14 + 40)).
  set (pixels := pixel_writes (14 + 40 + 256 * 4) padded width height pixelData).
  assert (Hpalette : ∀ w, w ∈ palette → 54 ≤ fst w < 1078).
  { intros w (i & k & Hi & Hk & -> & _)%palette_writes_elem. lia. }
  assert (Hpixels : ∀ w, w ∈ pixels → 1078 ≤ fst w).
  { intros w Hw'%pixel_writes_elem; lia. }
  eexists. split; [reflexivity|].
  split; [rewrite !apply_writes_length; lia|].
  assert (Hframe : ∀ n off, 0 ≤ off → off + Z.of_nat n ≤ 54 →
            dv_get n (apply_writes (apply_writes buffer13 palette) pixels) off
            = dv_get n buffer13 off).
  { intros n off Hoff Hn. rewrite !dv_get_frame_writes; try done.
    - intros w Hw'%Hpalette. lia.
    - intros w Hw'%Hpixels. lia. }
  split; [|split; [|split]].
  - unfold getInt32. rewrite Hframe by (simpl Z.of_nat; lia). frame_back.
    cbn [fmap option_fmap option_map]. f_equal.
    change (256 ^ Z.of_nat 4) with 4294967296.
    change (2 ^ 31) with 2147483648 in *. change (2 ^ 32) with 4294967296.
    destruct (decide (height = 0)) as [ -> | Hnz ]; [reflexivity|].
    assert (Hwrap : (- height) mod 4294967296 = 4294967296 - height)
      by (symmetry; apply Z.mod_unique with (q := -1); lia).
    rewrite Hwrap. decide_cmp. lia.
  - unfold getUint16. rewrite Hframe by (simpl Z.of_nat; lia). frame_back.
    reflexivity.
  - unfold getUint32. rewrite Hframe by (simpl Z.of_nat; lia). frame_back.
    reflexivity.
  - intros i Hi.
    assert (Hentry : ∀ k, 0 ≤ k < 4 →
              apply_writes (apply_writes buffer13 palette) pixels
                !! Z.to_nat (54 + 4 * i + k)
              = Some (if k =? 3 then 0 else i)).
    { intros k Hk.
      rewrite apply_writes_lookup_other
        by (intros w Hw'%Hpixels; lia).
      rewrite (apply_writes_lookup_unique _ _ _ (if k =? 3 then 0 else i)).
      - f_equal. apply Z.mod_small. case_match; lia.
      - subst palette. unfold palette_writes.
        apply list_elem_of_bind. exists i. split; [|apply elem_of_seqZ; lia].
        assert (k = 0 ∨ k = 1 ∨ k = 2 ∨ k = 3) as [ -> | [ -> | [ -> | -> ] ] ] by lia; simpl.
        + replace (54 + 4 * i + 0) with (14 + 40 + i * 4 + 0) by lia. apply list_elem_of_here.
        + replace (54 + 4 * i + 1) with (14 + 40 + i * 4 + 1) by lia.
          do 1 apply list_elem_of_further. apply list_elem_of_here.
        + replace (54 + 4 * i + 2) with (14 + 40 + i * 4 + 2) by lia.
          do 2 apply list_elem_of_further. apply list_elem_of_here.
        + replace (54 + 4 * i + 3) with (14 + 40 + i * 4 + 3) by lia.
          do 3 apply list_elem_of_further. apply list_elem_of_here.
      - intros w (i' & k' & Hi' & Hk' & Hfst & ->)%palette_writes_elem Heq.
        rewrite Hfst in Heq.
        assert (i' = i ∧ k' = k) as [-> ->] by lia. reflexivity.
      - lia. }
    apply take_drop_4.
    + replace (Z.to_nat (54 + 4 * i)) with (Z.to_nat (54 + 4 * i + 0)) by lia.
      by rewrite Hentry by lia.
    + replace (Z.to_nat (54 + 4 * i) + 1)%nat with (Z.to_nat (54 + 4 * i + 1)) by lia.
      by rewrite Hentry by lia.
    + replace (Z.to_nat (54 + 4 * i) + 2)%nat with (Z.to_nat (54 + 4 * i + 2)) by lia.
      by rewrite Hentry by lia.
    + replace (Z.to_nat (54 + 4 * i) + 3)%nat with (Z.to_nat (54 + 4 * i + 3)) by lia.
      by rewrite Hentry by lia.
Qed.

Lemma createBMP_layout_witness :
  ∃ bmp,
    createBMP 3 2 [255; 0; 64; 176; 255; 0] = Some bmp
    ∧ Z.of_nat (length bmp) = 14 + 40 + 256 * 4 + (ceil_div 3 4 * 4) * 2
    ∧ getInt32 bmp 22 = Some (- 2)
    ∧ getUint16 bmp 28 = Some 8
    ∧ getUint32 bmp 30 = Some 0
    ∧ ∀ i, 0 ≤ i < 256 →
        take 4 (drop (Z.to_nat (54 + 4 * i)) bmp) = [i; i; i; 0].
Proof.
  apply (createBMP_layout 3 2 [255; 0; 64; 176; 255; 0]); lia.
Defined.

(** ** Where the icons store *)

Lemma roundTenths_between a d t lo hi :
  0 ≤ t ≤ 10 → lo ≤ a ≤ hi → lo ≤ a + d ≤ hi → lo ≤ roundTenths a d t ≤ hi.
Proof.
  intros Ht Ha Hd. unfold roundTenths.
  assert (10 * lo ≤ 10 * a + d * t ≤ 10 * hi) by nia.
  split.
  - apply Z.div_le_lower_bound; lia.
  - apply Z.lt_succ_r, Z.div_lt_upper_bound; lia.
Qed.

Section IconBounds.

Context (round_cos round_sin : Q → Q → Z → Z).

(** What is assumed of the floating-point roundings: the cosine and
    the sine lie in [-1, 1], and rounding moves a value by less than
    one. *)
Hypothesis round_cos_bound : ∀ c r deg,
  (0 <= r)%Q → (c - r - 1 <= inject_Z (round_cos c r deg) <= c + r + 1)%Q.
Hypothesis round_sin_bound : ∀ c r deg,
  (0 <= r)%Q → (c - r - 1 <= inject_Z (round_sin c r deg) <= c + r + 1)%Q.

(** The bounds as integer inequalities, for a centre [x + q] with [x]
    an integer. *)
Lemma round_bound_Z (f : Q → Q → Z → Z) (x : Z) (q r : Q) (deg : Z) :
  (∀ c r deg, (0 <= r)%Q → (c - r - 1 <= inject_Z (f c r deg) <= c + r + 1)%Q) →
  (0 <= r)%Q →
  x + Qceiling (q - r - 1) ≤ f (inject_Z x + q)%Q r deg ≤ x + Qfloor (q + r + 1).
Proof.
  intros Hf Hr. destruct (Hf (inject_Z x + q)%Q r deg Hr) as [Hlo Hhi].
  set (v := f (inject_Z x + q)%Q r deg) in *. clearbody v.
  split.
  - assert (Hd : (q - r - 1 <= inject_Z (v - x))%Q)
      by (unfold Z.sub; rewrite inject_Z_plus, inject_Z_opp; lra).
    apply Qceiling_resp_le in Hd. rewrite Qceiling_Z in Hd. lia.
  - assert (Hd : (inject_Z (v - x) <= q + r + 1)%Q)
      by (unfold Z.sub; rewrite inject_Z_plus, inject_Z_opp; lra).
    apply Qfloor_resp_le in Hd. rewrite Qfloor_Z in Hd. lia.
Qed.

Lemma round_bound_Z0 (f : Q → Q → Z → Z) (x : Z) (r : Q) (deg : Z) :
  (∀ c r deg, (0 <= r)%Q → (c - r - 1 <= inject_Z (f c r deg) <= c + r + 1)%Q) →
  (0 <= r)%Q →
  x + Qceiling (0 - r - 1) ≤ f (inject_Z x) r deg ≤ x + Qfloor (0 + r + 1).
Proof.
  intros Hf Hr. destruct (Hf (inject_Z x) r deg Hr) as [Hlo Hhi].
  set (v := f (inject_Z x) r deg) in *. clearbody v.
  split.
  - assert (Hd : (0 - r - 1 <= inject_Z (v - x))%Q)
      by (unfold Z.sub; rewrite inject_Z_plus, inject_Z_opp; lra).
    apply Qceiling_resp_le in Hd. rewrite Qceiling_Z in Hd. lia.
  - assert (Hd : (inject_Z (v - x) <= 0 + r + 1)%Q)
      by (unfold Z.sub; rewrite inject_Z_plus, inject_Z_opp; lra).
    apply Qfloor_resp_le in Hd. rewrite Qfloor_Z in Hd. lia.
Qed.

(** Name a rounded coordinate and keep its integer bounds. *)
Ltac trig_name f Hf c r a :=
  let H := fresh "Htrig" in
  let v := fresh "v" in
  lazymatch c with
  | (inject_Z ?x + ?q)%Q =>
      pose proof (round_bound_Z f x q r a Hf ltac:(by vm_compute)) as H;
      let lo := eval vm_compute in (Qceiling (q - r - 1)) in
      let hi := eval vm_compute in (Qfloor (q + r + 1)) in
      change (Qceiling (q - r - 1)) with lo in H;
      change (Qfloor (q + r + 1)) with hi in H
  | inject_Z ?x =>
      pose proof (round_bound_Z0 f x r a Hf ltac:(by vm_compute)) as H;
      let lo := eval vm_compute in (Qceiling (0 - r - 1)) in
      let hi := eval vm_compute in (Qfloor (0 + r + 1)) in
      change (Qceiling (0 - r - 1)) with lo in H;
      change (Qfloor (0 + r + 1)) with hi in H
  end;
  set (v := f c r a) in *; clearbody v.

Ltac trig_bounds :=
  repeat match goal with
  | |- context [round_cos ?c ?r ?a] => trig_name round_cos round_cos_bound c r a
  | |- context [round_sin ?c ?r ?a] => trig_name round_sin round_sin_bound c r a
  | H : context [round_cos ?c ?r ?a] |- _ => trig_name round_cos round_cos_bound c r a
  | H : context [round_sin ?c ?r ?a] |- _ => trig_name round_sin round_sin_bound c r a
  end.

Lemma jsRound_offset (x : Z) (q : Q) :
  jsRound (inject_Z x + q)%Q = x + jsRound q.
Proof.
  unfold jsRound.
  assert (Hfl : ∀ (z : Z) (p : Q), Qfloor (inject_Z z + p)%Q = z + Qfloor p).
  { intros z p. apply Z.le_antisymm.
    - assert (Hlt : (inject_Z z + p < inject_Z (z + Qfloor p + 1))%Q).
      { rewrite !inject_Z_plus. pose proof (Qlt_floor p) as Hp.
        rewrite inject_Z_plus in Hp. lra. }
      assert (Hle : (inject_Z (Qfloor (inject_Z z + p)) <= inject_Z z + p)%Q)
        by apply Qfloor_le.
      assert (Hzz : (inject_Z (Qfloor (inject_Z z + p)) < inject_Z (z + Qfloor p + 1))%Q)
        by lra.
      rewrite <- Zlt_Qlt in Hzz. lia.
    - assert (Hle : (inject_Z (z + Qfloor p) <= inject_Z z + p)%Q).
      { rewrite inject_Z_plus. pose proof (Qfloor_le p). lra. }
      apply Qfloor_resp_le in Hle. by rewrite Qfloor_Z in Hle. }
  rewrite <- Hfl. apply Qfloor_comp. ring.
Qed.

Lemma drawCloudShape_elem width x y h w :
  h = 16 ∨ h = 20 →
  w ∈ drawCloudShape round_cos round_sin width x y 32 h →
  ∃ px py, fst w = py * width + px ∧ y - 5 ≤ py ≤ y + 20
           ∧ 0 ≤ px < width ∧ 0 ≤ py.
Proof.
  unfold drawCloudShape. cbv zeta. intros Hh Hw.
  apply elem_of_app in Hw as [Hw|Hw].
  - destruct Hh as [-> | ->];
      elem_inv; guards; subst w; simpl fst; trig_bounds;
      eexists _, _; (split; [reflexivity|]); lia.
  - apply drawHLine_elem in Hw as (px & py & (-> & Hpx & Hpy) & _ & Hrow & _).
    exists px, py. split; [done|]. split; [|done].
    rewrite jsRound_offset in Hrow.
    destruct Hh as [-> | ->]; vm_compute jsRound in Hrow; lia.
Qed.

Lemma sunIcon_elem width x y w :
  w ∈ sunIcon round_cos round_sin width x y →
  ∃ px py, fst w = py * width + px ∧ y - 1 ≤ py ≤ y + 49 ∧ 0 ≤ px < width.
Proof.
  unfold sunIcon. cbv zeta. intros Hw.
  apply elem_of_app in Hw as [Hw|Hw].
  - elem_inv; guards; subst w; simpl fst; trig_bounds.
    eexists _, _. split; [reflexivity|]. lia.
  - elem_inv; guards; subst w; simpl fst.
    eexists _, _. split; [reflexivity|]. split; [|lia].
    trig_bounds.
    match goal with |- _ ≤ roundTenths ?a (?b - ?a) ?t ≤ _ =>
      apply roundTenths_between; lia end.
Qed.

Lemma drawWeatherIcon_elem width x y code w :
  w ∈ drawWeatherIcon round_cos round_sin width x y code →
  icon_pixel width (x + 12) (x + 36) (y - 1) (y + 49) w.
Proof.
  unfold drawWeatherIcon, cloudIcon, fogIcon, rainIcon, snowIcon,
    thunderstormIcon, unknownIcon, icon_pixel.
  intros Hw. repeat case_match.
  - apply sunIcon_elem in Hw as (px & py & ? & ? & ?). exists px, py. auto.
  - apply drawCloudShape_elem in Hw as (px & py & ? & ? & ? & ?); [|by right].
    exists px, py. repeat split; auto; lia.
  - apply list_elem_of_bind in Hw as (i & Hw & Hi%elem_of_seqZ).
    apply drawHLine_elem in Hw as (px & py & (-> & ? & ?) & _ & ? & _).
    exists px, py. repeat split; auto; lia.
  - apply elem_of_app in Hw as [Hw|Hw].
    + apply drawCloudShape_elem in Hw as (px & py & ? & ? & ? & ?); [|by left].
      exists px, py. repeat split; auto; lia.
    + elem_inv. subst w. eexists _, _. split; [reflexivity|]. lia.
  - apply elem_of_app in Hw as [Hw|Hw].
    + apply drawCloudShape_elem in Hw as (px & py & ? & ? & ? & ?); [|by left].
      exists px, py. repeat split; auto; lia.
    + apply list_elem_of_bind in Hw as (i & Hw & Hi%elem_of_seqZ).
      set (sx := x + 14 + i * 10) in *. set (sy := y + 36) in *.
      elem_inv; subst w; simpl fst.
      * exists sx, sy. subst sx sy. lia.
      * exists sx, (sy - 2). subst sx sy. lia.
      * exists sx, (sy + 2). subst sx sy. lia.
      * exists (sx - 2), sy. subst sx sy. lia.
      * exists (sx + 2), sy. subst sx sy. lia.
  - apply elem_of_app in Hw as [Hw|Hw].
    + apply drawCloudShape_elem in Hw as (px & py & ? & ? & ? & ?); [|by left].
      exists px, py. repeat split; auto; lia.
    + cbv zeta in Hw.
      apply list_elem_of_bind in Hw as (i & Hw & Hi%elem_of_seqZ).
      set (px := x + 24 + (if i <? 6 then - i else i - 12)) in *.
      assert (x + 18 ≤ px ≤ x + 24) by (subst px; case_match; guards; lia).
      clearbody px. set (py := y + 24 + i * 2) in *.
      elem_inv; subst w; simpl fst.
      * exists px, py. subst py. lia.
      * exists (px + 1), py. subst py. lia.
  - apply drawText_elem in Hw as (px & py & (-> & ? & ?) & ?).
    exists px, py. repeat split; auto; lia.
Qed.

(** ** Stores of a render stay inside the buffer *)

Lemma cell_in_range width height px py :
  0 ≤ px < width → 0 ≤ py < height → 0 ≤ py * width + px < width * height.
Proof. intros Hx Hy. nia. Qed.

Lemma run_within width height c w :
  call_within width height c → w ∈ run round_cos round_sin width c →
  0 ≤ fst w < width * height.
Proof.
  destruct c; simpl; intros Hc Hw.
  - apply drawText_elem in Hw as (px & py & (-> & ? & ?) & ?).
    apply cell_in_range; lia.
  - apply drawText_elem in Hw as (px & py & (-> & ? & ?) & ?).
    apply cell_in_range; lia.
  - apply drawText_elem in Hw as (px & py & (-> & ? & ?) & ?).
    apply cell_in_range; lia.
  - apply drawHLine_elem in Hw as (px & py & (-> & ? & ?) & _ & ? & _).
    apply cell_in_range; lia.
  - destruct Hc as (? & ? & ? & ? & ?).
    apply drawDashedHLine_elem in Hw as (px & -> & ?); [|done..].
    apply cell_in_range; lia.
  - apply drawWeatherIcon_elem in Hw as (px & py & -> & ? & ?).
    apply cell_in_range; lia.
Qed.

Lemma event_calls_within width height maxY isToday total e idx y :
  y + 30 ≤ maxY → maxY ≤ height →
  Forall (call_within width height) (event_calls width maxY isToday total e idx y).
Proof.
  intros Hy Hmax. unfold event_calls. cbv zeta. apply Forall_app. split.
  - repeat apply Forall_cons_2; simpl; try lia. apply Forall_nil_2.
  - case_match; repeat apply Forall_cons_2; simpl; try lia; apply Forall_nil_2.
Qed.

Lemma renderEvents_within width height maxY isToday total rest idx y :
  y ≤ maxY + 15 → maxY + 31 ≤ height →
  Forall (call_within width height)
    (fst (renderEvents width maxY isToday total rest idx y)).
Proof.
  intros Hy Hmax. revert idx y Hy.
  induction rest as [|e rest IH]; intros idx y Hy; cbn [renderEvents]; [constructor|].
  destruct (y + 30 >? maxY) eqn:Hfit.
  - destruct (total - idx >? 0); cbn [fst]; [|constructor].
    unfold more_marker. apply Forall_cons_2; [simpl; lia|apply Forall_nil_2].
  - rewrite Z.gtb_ltb in Hfit. guards. cbn [fst]. apply Forall_app. split.
    + apply event_calls_within; lia.
    + apply IH. unfold eventRowHeight. lia.
Qed.

Lemma renderEvents_advances width maxY isToday total rest idx y :
  y ≤ snd (renderEvents width maxY isToday total rest idx y).
Proof.
  revert idx y. induction rest as [|e rest IH]; intros idx y; cbn [renderEvents];
    [simpl; lia|].
  destruct (y + 30 >? maxY).
  - destruct (total - idx >? 0); simpl; lia.
  - cbn [snd]. etrans; [|apply IH]. unfold eventRowHeight. lia.
Qed.

Lemma renderDays_within width height maxY days idx y :
  0 ≤ y → maxY + 31 ≤ height →
  Forall (call_within width height) (renderDays width maxY days idx y).
Proof.
  intros Hy Hmax. revert idx y Hy.
  induction days as [|d days IH]; intros idx y Hy; cbn [renderDays]; [constructor|].
  cbv zeta. destruct (_ >? maxY) eqn:Hfit; [constructor|].
  rewrite Z.gtb_ltb in Hfit. guards.
  unfold dayHeaderHeight, eventRowHeight, MARGIN in *.
  apply Forall_app. split.
  - case_match; [constructor|].
    apply Forall_cons_2; [simpl; lia|apply Forall_nil_2].
  - apply Forall_cons_2; [simpl; case_match; lia|].
    case_match.
    + apply Forall_cons_2; [simpl; case_match; lia|].
      apply IH. case_match; lia.
    + apply Forall_app. split.
      * apply renderEvents_within; [case_match; lia|lia].
      * apply IH. etrans; [|apply renderEvents_advances]. case_match; lia.
Qed.

Lemma render_calls_within width height weather days generatedAt :
  277 ≤ width → 252 ≤ height →
  Forall (call_within width height)
    (render_calls width height weather days generatedAt).
Proof.
  intros Hw Hh. unfold render_calls. repeat apply Forall_app_2.
  - unfold weather_calls. cbv zeta.
    repeat apply Forall_cons_2; simpl; try lia. apply Forall_nil_2.
  - unfold weather_rule, weatherSectionHeight.
    apply Forall_cons_2; [simpl; lia|apply Forall_nil_2].
  - unfold date_calls, dateSectionEnd, weatherSectionHeight. cbv zeta.
    repeat apply Forall_cons_2; simpl; try lia. apply Forall_nil_2.
  - unfold agenda_calls, dateSectionEnd, weatherSectionHeight, FOOTER_HEIGHT.
    apply renderDays_within; lia.
  - unfold footer_calls. cbv zeta.
    repeat apply Forall_cons_2; simpl; try lia. apply Forall_nil_2.
Qed.

Lemma render_writes_within width height weather days generatedAt w :
  277 ≤ width → 252 ≤ height →
  w ∈ render_writes round_cos round_sin width height weather days generatedAt →
  0 ≤ fst w < width * height.
Proof.
  intros Hw Hh (c & Hin & Hc)%list_elem_of_bind.
  apply (run_within width height c); [|done].
  by apply (proj1 (list.Forall_forall _ _)
              (render_calls_within width height weather days generatedAt Hw Hh)).
Qed.

(** C1 (as the code has it): in a buffer of size [w] x [h], glyph
    stamping and text store only at a column inside [0, w) and at a
    row that is not negative, wherever the origin lies, so never at a
    negative index; such a store lies inside [0, w*h) exactly when
    its row is below [h], an edge that glyph stamping does not clip.
    [fillRect] clips on all four edges and stores only inside
    [0, w*h).  On a canvas at least 277 wide and 252 high, the default
    480 x 800 among them, every store of a render lies inside
    [0, w*h). *)
Theorem stores_in_bounds (width height : Z) :
  (∀ x y char color scale w,
     w ∈ drawChar width x y char color scale →
     ∃ px py, fst w = py * width + px ∧ 0 ≤ px < width
              ∧ 0 ≤ py ∧ y ≤ py < y + 8 * scale
              ∧ 0 ≤ fst w
              ∧ (fst w < width * height ↔ py < height))
  ∧ (∀ x y text color scale w,
       w ∈ drawText width x y text color scale →
       ∃ px py, fst w = py * width + px ∧ 0 ≤ px < width
                ∧ 0 ≤ py ∧ y ≤ py < y + 8 * scale
                ∧ 0 ≤ fst w
                ∧ (fst w < width * height ↔ py < height))
  ∧ (∀ x y w h color wr,
       wr ∈ fillRect width height x y w h color → 0 ≤ fst wr < width * height)
  ∧ (277 ≤ width → 252 ≤ height →
     ∀ weather days generatedAt w,
       w ∈ render_writes round_cos round_sin width height weather days generatedAt →
       0 ≤ fst w < width * height).
Proof.
  split; [|split; [|split]].
  - intros x y char color scale w (px & py & (-> & ? & ?) & ? & ?)%drawChar_elem.
    exists px, py. simpl. repeat split; try lia; nia.
  - intros x y text color scale w (px & py & (-> & ? & ?) & ?)%drawText_elem.
    exists px, py. simpl. repeat split; try lia; nia.
  - intros x y w h color wr (px & py & (-> & ? & ?) & ? & ? & ?)%fillRect_elem.
    apply cell_in_range; lia.
  - intros Hw Hh weather days generatedAt w. by apply render_writes_within.
Qed.

End IconBounds.

(** ** A rounding that meets the bounds *)

Lemma triangle_cos_range deg : (-1 <= triangle_cos deg <= 1)%Q.
Proof.
  unfold triangle_cos, Qle. simpl.
  pose proof (Z.mod_pos_bound deg 360 ltac:(lia)). lia.
Qed.

Lemma jsRound_near (q : Q) : (q - 1 <= inject_Z (jsRound q) <= q + 1)%Q.
Proof.
  unfold jsRound.
  pose proof (Qfloor_le (q + (1 # 2))) as Hle.
  pose proof (Qlt_floor (q + (1 # 2))) as Hlt.
  rewrite inject_Z_plus in Hlt. change (inject_Z 1) with 1%Q in Hlt.
  split; lra.
Qed.

Lemma sample_round_cos_bound c r deg :
  (0 <= r)%Q → (c - r - 1 <= inject_Z (sample_round_cos c r deg) <= c + r + 1)%Q.
Proof.
  intros Hr. unfold sample_round_cos.
  pose proof (jsRound_near (c + r * triangle_cos deg)) as Hn.
  pose proof (triangle_cos_range deg) as Ht.
  set (t := triangle_cos deg) in *. clearbody t.
  split; nra.
Qed.

Lemma sample_round_sin_bound c r deg :
  (0 <= r)%Q → (c - r - 1 <= inject_Z (sample_round_sin c r deg) <= c + r + 1)%Q.
Proof.
  intros Hr. unfold sample_round_sin.
  pose proof (jsRound_near (c + r * triangle_cos (deg - 90))) as Hn.
  pose proof (triangle_cos_range (deg - 90)) as Ht.
  set (t := triangle_cos (deg - 90)) in *. clearbody t.
  split; nra.
Qed.

Lemma stores_in_bounds_witness :
  Forall (fun w => 0 ≤ fst w < 480 * 800)
    (render_writes sample_round_cos sample_round_sin 480 800 sample_weather
       [sample_busy_day; sample_next_day] sample_date).
Proof.
  apply list.Forall_forall. intros w Hw.
  apply (stores_in_bounds sample_round_cos sample_round_sin
           sample_round_cos_bound sample_round_sin_bound 480 800) in Hw; [done|lia|lia].
Defined.

(** Membership of a store in a concrete list, by evaluation. *)
Lemma elem_of_check (l : list write) (i v : Z) :
  existsb (fun w => (fst w =? i) && (snd w =? v)) l = true → (i, v) ∈ l.
Proof.
  intros ([i' v'] & Hin & Hb)%existsb_exists. simpl in Hb. guards. subst.
  by apply list_elem_of_In.
Qed.

(** C1, the claim as stated fails: a glyph whose origin is at the
    height of the buffer is stamped below it; on an 8 x 8 buffer the
    letter A at (0, 8) stores at index 67.  In a render this happens
    on every canvas lower than the weather band: at 480 x 50 the
    temperature digits store at index 24064, past the 24000 bytes. *)
Lemma glyph_below_buffer_counterexample :
  (67, INK_BLACK) ∈ drawChar 8 0 8 (js "A") INK_BLACK 1
  ∧ ¬ (0 ≤ 67 < 8 * 8)
  ∧ (∀ round_cos round_sin,
       (24064, INK_BLACK)
         ∈ render_writes round_cos round_sin 480 50 sample_weather [] sample_date)
  ∧ ¬ (0 ≤ 24064 < 480 * 50).
Proof.
  split; [|split; [lia|split; [|lia]]].
  - apply elem_of_check. vm_compute. reflexivity.
  - intros rc rs. apply list_elem_of_bind.
    exists (DrawText 24 30 (js "72") INK_BLACK 10). split.
    + cbn [run]. apply elem_of_check. vm_compute. reflexivity.
    + apply list_elem_of_here.
Qed.

(** ** The empty agenda *)

Section EmptyAgenda.

Context (round_cos round_sin : Q → Q → Z → Z).

Hypothesis round_cos_bound : ∀ c r deg,
  (0 <= r)%Q → (c - r - 1 <= inject_Z (round_cos c r deg) <= c + r + 1)%Q.
Hypothesis round_sin_bound : ∀ c r deg,
  (0 <= r)%Q → (c - r - 1 <= inject_Z (round_sin c r deg) <= c + r + 1)%Q.

(** The weather band and the date header store above row 252. *)
Lemma upper_sections_rows width weather generatedAt w :
  2 ≤ width →
  w ∈ run_all round_cos round_sin width
        (weather_calls weather ++ [weather_rule width] ++ date_calls width generatedAt) →
  0 ≤ fst w < (dateSectionEnd + 2) * width.
Proof.
  intros Hwidth (c & Hw & Hc)%list_elem_of_bind.
  unfold weather_calls, weather_rule, date_calls, dateSectionEnd,
    weatherSectionHeight, MARGIN in *.
  cbv zeta in Hc. elem_inv; subst c; cbn [run] in Hw;
    try (apply drawText_elem in Hw as (px & py & (-> & ? & ?) & ?); simpl; nia);
    try (apply drawHLine_elem in Hw as (px & py & (-> & ? & ?) & _ & ? & _);
         simpl; nia).
  apply (drawWeatherIcon_elem round_cos round_sin round_cos_bound round_sin_bound)
    in Hw as (px & py & -> & ? & ?).
  nia.
Qed.

(** The footer stores from row [height - 40] on. *)
Lemma footer_rows width height generatedAt w :
  w ∈ run_all round_cos round_sin width (footer_calls width height generatedAt) →
  (height - 40) * width ≤ fst w.
Proof.
  intros (c & Hw & Hc)%list_elem_of_bind.
  unfold footer_calls in Hc. cbv zeta in Hc. elem_inv; subst c; cbn [run] in Hw.
  - apply drawHLine_elem in Hw as (px & py & (-> & ? & ?) & _ & ? & _). simpl. nia.
  - apply drawText_elem in Hw as (px & py & (-> & ? & ?) & ?). simpl. nia.
Qed.

(** X30: the empty agenda.  With no calendar days, on a canvas at
    least two pixels wide, every pixel of the agenda area, the rows
    below the date-header rule (from row 252) and above the footer
    rule (before row [height - 40]), is paper-white in the buffer
    that [renderDisplay] returns.  (The marks of rain, snow and
    lightning are stored without a test of their column and continue
    in a later row on a canvas narrower than the icon; from width 2
    on they still end above row 252.) *)
Theorem empty_agenda_stays_white (width height : Z) (weather : WeatherData)
    (generatedAt : DateView) (pixels : list Z) :
  2 ≤ width →
  renderDisplay round_cos round_sin width height weather [] generatedAt = Some pixels →
  ∀ x y, 0 ≤ x < width → dateSectionEnd + 2 ≤ y < height - 40 →
         pixels !! Z.to_nat (y * width + x) = Some PAPER_WHITE.
Proof.
  intros Hwidth Hrender x y Hx Hy.
  pose proof (renderDisplay_length round_cos round_sin width height weather []
                generatedAt) as Hlen.
  rewrite Hrender in Hlen.
  revert Hrender. unfold renderDisplay, newUint8Array.
  destruct (width * height <? 0); [discriminate|].
  cbn [mbind option_bind]. intros [= <-].
  rewrite apply_writes_length, !length_replicate in Hlen.
  rewrite length_replicate.
  rewrite apply_writes_lookup_other.
  - apply lookup_replicate_2. unfold dateSectionEnd, weatherSectionHeight in Hy. nia.
  - intros w Hw. unfold render_writes in Hw.
    assert (Hcalls : render_calls width height weather [] generatedAt
              = (weather_calls weather ++ [weather_rule width]
                 ++ date_calls width generatedAt)
                ++ footer_calls width height generatedAt).
    { unfold render_calls. change (agenda_calls width height []) with (@nil call).
      rewrite <- !app_assoc. reflexivity. }
    rewrite Hcalls in Hw.
    apply list_elem_of_bind in Hw as (c & Hw & [Hc|Hc]%elem_of_app).
    + assert (Hup : w ∈ run_all round_cos round_sin width
                (weather_calls weather ++ [weather_rule width]
                 ++ date_calls width generatedAt)).
      { apply list_elem_of_bind. eauto. }
      apply upper_sections_rows in Hup; [|done].
      unfold dateSectionEnd, weatherSectionHeight in *. rewrite Z2Nat.id by nia. nia.
    + assert (Hdown : w ∈ run_all round_cos round_sin width
                (footer_calls width height generatedAt)).
      { apply list_elem_of_bind. eauto. }
      apply footer_rows in Hdown.
      unfold dateSectionEnd, weatherSectionHeight in *. rewrite Z2Nat.id by nia.
      assert ((y + 1) * width ≤ (height - 40) * width)
        by (apply Z.mul_le_mono_nonneg_r; lia).
      lia.
Qed.

End EmptyAgenda.

Lemma empty_agenda_stays_white_witness :
  let pixels := default [] (renderDisplay sample_round_cos sample_round_sin 2 300
                              sample_weather [] sample_date) in
  pixels !! Z.to_nat (255 * 2 + 1) = Some PAPER_WHITE.
Proof.
  intros pixels.
  apply (empty_agenda_stays_white sample_round_cos sample_round_sin
           sample_round_cos_bound sample_round_sin_bound
           2 300 sample_weather sample_date pixels);
    [lia|vm_compute; reflexivity|lia|unfold dateSectionEnd, weatherSectionHeight; lia].
Defined.

Lemma writes_agree_check (l : list write) (j v : Z) :
  forallb (fun w => negb (fst w =? j) || (snd w =? v)) l = true →
  ∀ w, w ∈ l → fst w = j → snd w = v.
Proof.
  intros Hall w Hw%list_elem_of_In Hj.
  apply (proj1 (forallb_forall _ _) Hall) in Hw.
  rewrite (proj2 (Z.eqb_eq _ _) Hj) in Hw. simpl in Hw. by apply Z.eqb_eq.
Qed.

(** C9: the code at a canvas one pixel wide, with no calendar days
    and rain.  The environment [DISPLAY_WIDTH = "1"] gives the
    dimensions 1 x 800.  The rain drops of the icon are stored without
    a test of their column, at index [(52 + j) * width + 254 + 10 * i]
    (the arcs of the cloud next to them are stored only for a column
    below [width]); with [width = 1] these are the indices 306..333,
    rows of the agenda area, and no later store paints them over.
    Whatever the roundings of the cloud outline, the pixel of row 306
    is black in the returned buffer, not paper-white. *)
Theorem narrow_canvas_rain_drops :
  let env := {| DISPLAY_WIDTH := Some (js "1"); DISPLAY_HEIGHT := None;
                GOOGLE_CALENDAR_API_KEY := None; GOOGLE_CALENDAR_ID := None |} in
  display_width env = Int 1
  ∧ display_height env = Int 800
  ∧ (∀ round_cos round_sin : Q → Q → Z → Z,
       ((52 + 0) * 1 + 254, INK_BLACK)
         ∈ drawWeatherIcon round_cos round_sin 1 240 20 (conditionCode sample_weather)
       ∧ ∃ pixels,
           renderDisplay round_cos round_sin 1 800 sample_weather [] sample_date
           = Some pixels
           ∧ pixels !! Z.to_nat (306 * 1 + 0) = Some INK_BLACK)
  ∧ dateSectionEnd + 2 ≤ 306 < 800 - 40
  ∧ INK_BLACK ≠ PAPER_WHITE.
Proof.
  intros env. split; [reflexivity|]. split; [reflexivity|].
  split; [|by vm_compute].
  intros rc rs.
  set (drops := i ← seqZ 0 3; j ← seqZ 0 8;
                [((20 + 32 + j) * 1 + (240 + 14 + i * 10), INK_BLACK)]).
  split.
  { change (drawWeatherIcon rc rs 1 240 20 (conditionCode sample_weather))
      with (drawCloudShape rc rs 1 (240 + 8) (20 + 8) 32 16 ++ drops).
    apply elem_of_app. right. apply elem_of_check. vm_compute. reflexivity. }
  eexists. split; [reflexivity|].
  unfold render_writes.
  set (later :=
         [DrawText (240 + 56) 28 (js "BROOKLYN NY") INK_BLACK 2;
          DrawText (240 + 56) 60 (js "Rain") DARK_GRAY 2;
          DrawText (240 + 56) 92 (js "H:78 L:61") DARK_GRAY 2;
          weather_rule 1]
         ++ date_calls 1 sample_date ++ footer_calls 1 800 sample_date).
  assert (Hcalls : render_calls 1 800 sample_weather [] sample_date
            = DrawText 24 30 (js "72") INK_BLACK 10
              :: DrawText (24 + 160) 30 [0xB0] INK_BLACK 4
              :: DrawWeatherIcon 240 20 61 :: later)
    by (vm_compute; reflexivity).
  rewrite Hcalls.
  change (run_all rc rs 1 (?c1 :: ?c2 :: DrawWeatherIcon 240 20 61 :: later))
    with (run rc rs 1 c1 ++ run rc rs 1 c2
          ++ (drawCloudShape rc rs 1 (240 + 8) (20 + 8) 32 16 ++ drops)
          ++ run_all rc rs 1 later).
  rewrite !apply_writes_app, <- (apply_writes_app _ drops).
  apply (apply_writes_lookup_unique (drops ++ run_all rc rs 1 later) _ 306 INK_BLACK).
  - apply elem_of_check. vm_compute. reflexivity.
  - apply writes_agree_check. vm_compute. reflexivity.
  - rewrite !apply_writes_length, length_replicate. by vm_compute.
Qed.

(* ===================================================================== *)
(** * Further properties *)
(* ===================================================================== *)

(** ** Shapes: the exact footprint of the primitives *)

(** A pixel index determines its row and column. *)
Lemma cell_inj width px py px' py' :
  0 ≤ px < width → 0 ≤ px' < width →
  py * width + px = py' * width + px' → px = px' ∧ py = py'.
Proof.
  intros Hx Hx' Heq.
  assert (py = py') by nia. subst. lia.
Qed.

(** The row and the column of a pixel index. *)
Lemma cell_div_mod width px py :
  0 ≤ px < width →
  (py * width + px) / width = py ∧ (py * width + px) mod width = px.
Proof.
  intros Hpx. rewrite Z.add_comm, Z.div_add, Z.mod_add by lia.
  rewrite Z.div_small, Z.mod_small by lia. lia.
Qed.

Lemma fillRect_elem_iff width height x y w h color px py :
  0 ≤ px < width →
  (py * width + px, color) ∈ fillRect width height x y w h color
  ↔ x ≤ px < x + w ∧ y ≤ py < y + h ∧ 0 ≤ py < height.
Proof.
  intros Hpx. split.
  - intros (px' & py' & ([= Heq] & Hx' & Hy') & ? & ? & ?)%fillRect_elem.
    apply cell_inj in Heq as [-> ->]; lia.
  - intros (Hx & Hy & Hh). unfold fillRect.
    apply list_elem_of_bind. exists py. split; [|apply elem_of_seqZ; lia].
    apply list_elem_of_bind. exists px. split; [|apply elem_of_seqZ; lia].
    decide_cmp. simpl. apply list_elem_of_here.
Qed.

(** X1: [fillRect] on a [width] x [height] buffer sets exactly the
    pixels of the rectangle that fall inside the buffer to the colour
    (reduced to a byte) and leaves every other pixel as it was. *)
Theorem fillRect_effect (a : list Z) (width height x y w h color px py : Z) :
  Z.of_nat (length a) = width * height →
  0 ≤ px < width → 0 ≤ py < height →
  apply_writes a (fillRect width height x y w h color) !! Z.to_nat (py * width + px)
  = if decide (x ≤ px < x + w ∧ y ≤ py < y + h)
    then Some (color mod 256)
    else a !! Z.to_nat (py * width + px).
Proof.
  intros Hlen Hpx Hpy.
  pose proof (cell_in_range width height px py Hpx Hpy) as Hidx.
  case_decide as Hin.
  - apply apply_writes_lookup_unique.
    + apply fillRect_elem_iff; lia.
    + by intros wr (px' & py' & (-> & _) & _)%fillRect_elem _.
    + lia.
  - apply apply_writes_lookup_other.
    intros wr (px' & py' & (-> & Hx' & Hy') & ? & ? & ?)%fillRect_elem. simpl.
    rewrite Z2Nat.id by lia. intros Heq.
    apply cell_inj in Heq as [-> ->]; lia.
Qed.

Lemma fillRect_effect_witness :
  apply_writes (replicate 12 255) (fillRect 4 3 1 1 2 5 64) !! Z.to_nat (2 * 4 + 2)
  = Some 64
  ∧ apply_writes (replicate 12 255) (fillRect 4 3 1 1 2 5 64) !! Z.to_nat (0 * 4 + 2)
    = Some 255.
Proof.
  split.
  - apply (fillRect_effect (replicate 12 255) 4 3 1 1 2 5 64 2 2); simpl; lia.
  - apply (fillRect_effect (replicate 12 255) 4 3 1 1 2 5 64 2 0); simpl; lia.
Defined.

(** The dash pattern, from any state of the loop: [start] is where
    the next dash begins. *)
Lemma dashed_loop_pattern fuel width y x x2 drawing color dashLen gapLen ws w :
  0 ≤ dashLen → 0 ≤ gapLen → 0 < dashLen + gapLen →
  dashed_loop fuel width y x x2 drawing color dashLen gapLen = Some ws →
  w ∈ ws
  ↔ ∃ px, w = (y * width + px, color)
          ∧ (let start := if drawing then x else x + gapLen in
             start ≤ px < x2 ∧ (px - start) mod (dashLen + gapLen) < dashLen).
Proof.
  intros Hd Hg Hperiod. revert x drawing ws.
  induction fuel as [|fuel IH]; intros x drawing ws; simpl.
  - case_match; [discriminate|]. intros [= <-]. guards.
    rewrite elem_of_nil. split; [done|]. intros (px & _ & Hpx). destruct drawing; lia.
  - case_match; guards.
    2: { intros [= <-]. rewrite elem_of_nil. split; [done|].
         intros (px & _ & Hpx). destruct drawing; lia. }
    destruct drawing.
    + destruct (dashed_loop fuel _ _ (x + dashLen)) as [rest|] eqn:Hrest; [|discriminate].
      simpl. intros [= <-]. rewrite elem_of_app, (IH _ _ _ Hrest). cbv zeta.
      assert (Hdash : w ∈ (px' ← seqZ x (Z.min (x + dashLen) x2 - x);
                           [(y * width + px', color)])
                      ↔ ∃ px, w = (y * width + px, color)
                              ∧ x ≤ px < Z.min (x + dashLen) x2).
      { rewrite list_elem_of_bind. split.
        - intros (px' & ->%list_elem_of_singleton & Hpx'%elem_of_seqZ).
          exists px'. split; [done|lia].
        - intros (px & -> & Hpx). exists px. split; [apply list_elem_of_here|].
          apply elem_of_seqZ. lia. }
      rewrite Hdash. split.
      * intros [(px & -> & Hpx) | (px & -> & Hpx & Hmod)]; exists px; (split; [done|]).
        -- rewrite (Z.mod_small (px - x)) by lia. lia.
        -- replace (px - x) with (px - (x + dashLen + gapLen) + 1 * (dashLen + gapLen))
             by lia.
           rewrite Z.mod_add by lia. lia.
      * intros (px & -> & Hpx & Hmod).
        destruct (Z.lt_ge_cases px (x + dashLen)) as [Hlt|Hge].
        -- left. exists px. split; [done|lia].
        -- right. exists px. split; [done|].
           destruct (Z.lt_ge_cases px (x + dashLen + gapLen)) as [Hgap|Hnext].
           ++ rewrite (Z.mod_small (px - x)) in Hmod by lia. lia.
           ++ replace (px - x)
                with (px - (x + dashLen + gapLen) + 1 * (dashLen + gapLen)) in Hmod
                by lia.
              rewrite Z.mod_add in Hmod by lia. lia.
    + intros Hrest. rewrite (IH _ _ _ Hrest). cbv zeta. reflexivity.
Qed.

(** X2: when the dash and gap lengths are not negative and not both
    zero, the loop of [drawDashedHLine] exits within [2 * (x2 - x1)]
    iterations, and its stores are exactly the colour at the indices
    [y * width + px] with [px] in [x1, x2) and in the first [dashLen]
    columns of its period of [dashLen + gapLen] columns counted from
    [x1].  The columns are not clipped: it is for a line that lies
    between the edges, [0 ≤ x1] and [x2 ≤ width], that every store is
    on row [y], at a column of [x1, x2). *)
Theorem dashed_line_pattern (width y x1 x2 color dashLen gapLen : Z) :
  0 ≤ dashLen → 0 ≤ gapLen → 0 < dashLen + gapLen →
  dashed_loop (Z.to_nat (2 * (x2 - x1))) width y x1 x2 true color dashLen gapLen
  = Some (drawDashedHLine width y x1 x2 color dashLen gapLen)
  ∧ (∀ w, w ∈ drawDashedHLine width y x1 x2 color dashLen gapLen
          ↔ ∃ px, w = (y * width + px, color)
                  ∧ x1 ≤ px < x2 ∧ (px - x1) mod (dashLen + gapLen) < dashLen)
  ∧ (0 ≤ x1 → x2 ≤ width →
     ∀ w, w ∈ drawDashedHLine width y x1 x2 color dashLen gapLen →
          fst w / width = y ∧ x1 ≤ fst w mod width < x2).
Proof.
  intros Hd Hg Hperiod.
  pose proof (drawDashedHLine_total width y x1 x2 color dashLen gapLen Hperiod)
    as Htotal.
  pose proof (fun w => dashed_loop_pattern _ _ _ _ _ _ _ _ _ _ w Hd Hg Hperiod Htotal)
    as Hpattern.
  split; [done|]. split; [exact Hpattern|].
  intros Hx1 Hx2 w (px & -> & Hpx & _)%Hpattern. cbn [fst].
  rewrite Z.add_comm, Z.div_add, Z.mod_add by lia.
  rewrite Z.div_small, Z.mod_small by lia. lia.
Qed.

Lemma dashed_line_pattern_witness :
  (285 * 480 + 49, DARK_GRAY) ∈ drawDashedHLine 480 285 24 456 DARK_GRAY 6 4
  ∧ ¬ (285 * 480 + 50, DARK_GRAY) ∈ drawDashedHLine 480 285 24 456 DARK_GRAY 6 4
  ∧ ∀ w, w ∈ drawDashedHLine 480 285 24 456 DARK_GRAY 6 4 →
         fst w / 480 = 285 ∧ 24 ≤ fst w mod 480 < 456.
Proof.
  pose proof (dashed_line_pattern 480 285 24 456 DARK_GRAY 6 4
                ltac:(lia) ltac:(lia) ltac:(lia)) as (_ & Hpattern & Hrow).
  split; [|split].
  - apply Hpattern. exists 49. split; [reflexivity|]. split; [lia|]. by vm_compute.
  - intros (px & [= Heq] & _ & Hmod)%Hpattern.
    assert (px = 50) as -> by lia. vm_compute in Hmod. discriminate.
  - apply Hrow; lia.
Defined.

(** ** Glyphs and text *)

Lemma land_pow2_testbit (r k : Z) :
  0 ≤ k → (Z.land r (2 ^ k) =? 0) = negb (Z.testbit r k).
Proof.
  intros Hk.
  assert (Hland : Z.land r (2 ^ k) = if Z.testbit r k then 2 ^ k else 0).
  { apply Z.bits_inj'. intros n Hn. rewrite Z.land_spec, Z.pow2_bits_eqb by done.
    destruct (Z.eqb_spec k n) as [->|Hne].
    - destruct (Z.testbit r n) eqn:Hb; simpl.
      + by rewrite Z.pow2_bits_true.
      + by rewrite Z.bits_0.
    - rewrite andb_false_r. destruct (Z.testbit r k).
      + by rewrite Z.pow2_bits_false.
      + by rewrite Z.bits_0. }
  rewrite Hland. destruct (Z.testbit r k); simpl; [|done].
  apply Z.eqb_neq. pose proof (Z.pow_pos_nonneg 2 k). lia.
Qed.

(** The test [rowData & (0x80 >> col)] reads bit [7 - col]. *)
Lemma glyph_mask_bit (r col : Z) :
  0 ≤ col < 8 → (Z.land r (Z.shiftr 0x80 col) =? 0) = negb (Z.testbit r (7 - col)).
Proof.
  intros Hcol. rewrite <- land_pow2_testbit by lia. do 2 f_equal.
  assert (col = 0 ∨ col = 1 ∨ col = 2 ∨ col = 3 ∨ col = 4 ∨ col = 5 ∨ col = 6 ∨ col = 7)
    as Hc by lia.
  repeat (destruct Hc as [-> | Hc]; [reflexivity|]). by subst.
Qed.

(** The block of a magnified cell that holds a pixel. *)
Lemma block_of_pixel (x scale col s p : Z) :
  0 < scale → 0 ≤ s < scale → p = x + col * scale + s → (p - x) / scale = col.
Proof.
  intros Hs Hr ->. replace (x + col * scale + s - x) with (s + col * scale) by lia.
  rewrite Z.div_add by lia. rewrite Z.div_small by lia. lia.
Qed.

(** X3: [drawChar] magnifies the 8 x 8 mask of the glyph: inside the
    columns of the buffer and at a row that is not negative, a pixel
    is stored exactly when it lies in the cell of [8 * scale] by
    [8 * scale] pixels at [(x, y)] and the bit of the glyph for its
    block, row [(py - y) / scale] and column [(px - x) / scale], is
    set. *)
Theorem drawChar_glyph (width x y : Z) (char : jsstring) (color scale : Z)
    (data : list Z) (px py : Z) :
  0 < scale → FONT_DATA char = Some data → 0 ≤ px < width →
  (py * width + px, color) ∈ drawChar width x y char color scale
  ↔ 0 ≤ py ∧ x ≤ px < x + 8 * scale ∧ y ≤ py < y + 8 * scale
    ∧ glyph_bit data ((py - y) / scale) ((px - x) / scale) = true.
Proof.
  intros Hs Hdata Hpx. unfold drawChar, glyph_bit. rewrite Hdata. split.
  - intros (row & Hw & Hrow%elem_of_seqZ)%list_elem_of_bind.
    apply list_elem_of_bind in Hw as (col & Hw & Hcol%elem_of_seqZ).
    destruct (Z.land _ _ =? 0) eqn:Hbit; [by apply elem_of_nil in Hw|].
    apply list_elem_of_bind in Hw as (sy & Hw & Hsy%elem_of_seqZ).
    apply list_elem_of_bind in Hw as (sx & Hw & Hsx%elem_of_seqZ).
    destruct (_ && _) eqn:Hguard; [|by apply elem_of_nil in Hw].
    apply list_elem_of_singleton in Hw. injection Hw as Heq.
    rewrite glyph_mask_bit in Hbit by lia. apply negb_false_iff in Hbit.
    guards. apply cell_inj in Heq as [-> ->]; [|lia..].
    rewrite (block_of_pixel x scale col sx) by lia.
    rewrite (block_of_pixel y scale row sy) by lia.
    split; [lia|]. split; [nia|]. split; [nia|done].
  - intros (Hpy & Hx & Hy & Hbit).
    set (row := (py - y) / scale) in *. set (col := (px - x) / scale) in *.
    assert (Hrow : 0 ≤ row < 8).
    { subst row. split; [apply Z.div_pos; lia|apply Z.div_lt_upper_bound; lia]. }
    assert (Hcol : 0 ≤ col < 8).
    { subst col. split; [apply Z.div_pos; lia|apply Z.div_lt_upper_bound; lia]. }
    pose proof (Z.mod_pos_bound (py - y) scale Hs) as Hsy.
    pose proof (Z.mod_pos_bound (px - x) scale Hs) as Hsx.
    pose proof (Z.div_mod (py - y) scale ltac:(lia)) as Hdy.
    pose proof (Z.div_mod (px - x) scale ltac:(lia)) as Hdx.
    fold row in Hdy. fold col in Hdx.
    apply list_elem_of_bind. exists row. split; [|apply elem_of_seqZ; lia].
    apply list_elem_of_bind. exists col. split; [|apply elem_of_seqZ; lia].
    rewrite glyph_mask_bit, Hbit by lia. simpl.
    apply list_elem_of_bind. exists ((py - y) mod scale). split; [|apply elem_of_seqZ; lia].
    apply list_elem_of_bind. exists ((px - x) mod scale). split; [|apply elem_of_seqZ; lia].
    replace (x + col * scale + (px - x) mod scale) with px by lia.
    replace (y + row * scale + (py - y) mod scale) with py by lia.
    decide_cmp. simpl. apply list_elem_of_here.
Qed.

Lemma drawChar_glyph_witness :
  (1 * 480 + 2, INK_BLACK) ∈ drawChar 480 0 0 (js "T") INK_BLACK 2
  ↔ 0 ≤ 1 ∧ 0 ≤ 2 < 0 + 8 * 2 ∧ 0 ≤ 1 < 0 + 8 * 2
    ∧ glyph_bit [0x7E;0x18;0x18;0x18;0x18;0x18;0x18;0x00;0x00;0x00;0x00;0x00]
        ((1 - 0) / 2) ((2 - 0) / 2) = true.
Proof.
  apply (drawChar_glyph 480 0 0 (js "T") INK_BLACK 2); [lia|reflexivity|lia].
Defined.

Lemma drawText_loop_app width cx y pre post color scale :
  fst (drawText_loop width cx y (pre ++ post) color scale)
  = fst (drawText_loop width cx y pre color scale)
    ++ fst (drawText_loop width (cx + 8 * scale * Z.of_nat (length pre)) y post color scale).
Proof.
  revert cx. induction pre as [|c pre IH]; intros cx; simpl.
  - f_equal. f_equal. lia.
  - rewrite IH, <- app_assoc.
    replace (cx + 8 * scale + 8 * scale * Z.of_nat (length pre))
      with (cx + 8 * scale * Z.of_nat (S (length pre))) by lia.
    reflexivity.
Qed.

(** X4: [drawText] draws the elements of the string iterator side by
    side, and an element that has no glyph (a character missing from
    the font, every surrogate pair) stores nothing but still takes
    its cell: the text after it is drawn [8 * scale] further right,
    exactly where it would be if the glyph existed. *)
Theorem text_skips_missing_glyph (width x y : Z) (text : jsstring) (color scale : Z)
    (pre post : list jsstring) (char : jsstring) :
  code_points text = pre ++ char :: post → FONT_DATA char = None →
  drawText width x y text color scale
  = fst (drawText_loop width x y pre color scale)
    ++ fst (drawText_loop width (x + 8 * scale * (Z.of_nat (length pre) + 1)) y post
              color scale).
Proof.
  intros Hcp Hnone. unfold drawText. rewrite Hcp, drawText_loop_app. f_equal.
  cbn [drawText_loop fst]. unfold drawChar. rewrite Hnone. simpl.
  do 2 f_equal. lia.
Qed.

Lemma text_skips_missing_glyph_witness :
  drawText 480 24 30 (js "A?B") INK_BLACK 2
  = fst (drawText_loop 480 24 30 [js "A"] INK_BLACK 2)
    ++ fst (drawText_loop 480 (24 + 8 * 2 * (Z.of_nat (length [js "A"]) + 1)) 30 [js "B"]
              INK_BLACK 2).
Proof.
  apply (text_skips_missing_glyph 480 24 30 (js "A?B") INK_BLACK 2
           [js "A"] [js "B"] (js "?")); reflexivity.
Defined.

(** X5: aligned text keeps to its side.  Every store of
    [drawRightAlignedText] lies in the columns from
    [width - margin - textWidth] up to, but not including,
    [width - margin]; every store of [drawCenteredText] lies between
    the origin [x = floor((width - textWidth) / 2)] and its mirror
    image [width - x], so the free space on the right is the one on
    the left or one pixel more. *)
Theorem aligned_text_extent (width y : Z) (text : jsstring) (color scale margin : Z) :
  (∀ w, w ∈ drawRightAlignedText width y text color scale margin →
        ∃ px py, w = (py * width + px, color)
                 ∧ width - margin - getTextWidth text scale ≤ px < width - margin)
  ∧ (∀ w, w ∈ drawCenteredText width y text color scale →
          ∃ px py, w = (py * width + px, color)
                   ∧ (width - getTextWidth text scale) / 2 ≤ px
                   ∧ px < width - (width - getTextWidth text scale) / 2)
  ∧ 0 ≤ width - getTextWidth text scale - 2 * ((width - getTextWidth text scale) / 2) ≤ 1.
Proof.
  pose proof (code_points_length text) as Hcp.
  assert (Hext : ∀ x w, w ∈ drawText width x y text color scale →
            ∃ px py, w = (py * width + px, color)
                     ∧ x ≤ px < x + getTextWidth text scale).
  { intros x w (px & py & (-> & _) & Hx & _)%drawText_loop_elem.
    exists px, py. split; [done|]. unfold getTextWidth.
    assert (0 < scale) by nia.
    assert (8 * scale * Z.of_nat (length (code_points text))
            ≤ 8 * scale * Z.of_nat (length text))
      by (apply Z.mul_le_mono_nonneg_l; lia).
    lia. }
  pose proof (Z.div_mod (width - getTextWidth text scale) 2 ltac:(lia)) as Hdiv.
  pose proof (Z.mod_pos_bound (width - getTextWidth text scale) 2 ltac:(lia)) as Hmod.
  split; [|split].
  - intros w (px & py & -> & Hx)%Hext. exists px, py. split; [done|lia].
  - intros w (px & py & -> & Hx)%Hext. exists px, py. split; [done|lia].
  - lia.
Qed.

(** ** The title loop in closed form *)

Lemma take_ellipsis_length (title : jsstring) (k : nat) :
  (k + 3 ≤ length title)%nat → length (take k title ++ js "...") = (k + 3)%nat.
Proof. intros Hk. rewrite length_app, length_take. simpl. lia. Qed.

(** From a title already cut to [k] characters and the ellipsis, the
    loop goes on cutting while more than [max 3 (maxW / 16)]
    characters are left. *)
Lemma truncate_loop_ellipsis fuel maxW (title : jsstring) (k : nat) :
  (k + 3 ≤ length title)%nat → (k + 3 ≤ fuel)%nat →
  truncate_loop fuel maxW (take k title ++ js "...")
  = Some (take (Nat.min k (Z.to_nat (Z.max 3 (maxW / 16) - 3))) title ++ js "...").
Proof.
  revert fuel. induction k as [|k IH]; intros fuel Hk Hfuel.
  - destruct fuel; simpl; unfold truncate_cond;
      rewrite andb_false_r; reflexivity.
  - destruct fuel as [|fuel]; [lia|]. cbn [truncate_loop].
    pose proof (take_ellipsis_length title (S k) Hk) as Hlen.
    pose proof (Z.div_mod maxW 16 ltac:(lia)) as Hdiv.
    pose proof (Z.mod_pos_bound maxW 16 ltac:(lia)) as Hmod.
    destruct (truncate_cond maxW (take (S k) title ++ js "...")) eqn:Hc.
    + assert (Hbody : truncate_body (take (S k) title ++ js "...")
                      = take k title ++ js "...").
      { unfold truncate_body. rewrite slice_drop_last4 by lia. rewrite Hlen.
        replace (S k + 3 - 4)%nat with k by lia.
        rewrite take_app_le by (rewrite length_take; lia).
        rewrite take_take. by replace (k `min` S k)%nat with k by lia. }
      rewrite Hbody, IH by lia. do 3 f_equal.
      unfold truncate_cond, getTextWidth in Hc. rewrite Hlen in Hc.
      rewrite andb_true_iff, !Z.gtb_ltb, !Z.ltb_lt in Hc. lia.
    + do 3 f_equal.
      unfold truncate_cond, getTextWidth in Hc. rewrite Hlen in Hc.
      rewrite andb_false_iff, !Z.gtb_ltb, !Z.ltb_ge in Hc. lia.
Qed.

Lemma truncateTitle_spec (maxTitleWidth : Z) (title : jsstring) :
  let n := Z.of_nat (length title) in
  let m := Z.max 3 (maxTitleWidth / 16) in
  truncateTitle maxTitleWidth title
  = (if decide (16 * n ≤ maxTitleWidth ∨ n ≤ 3) then title
     else take (Z.to_nat (m - 3)) title ++ js "...").
Proof.
  intros n m.
  pose proof (Z.div_mod maxTitleWidth 16 ltac:(lia)) as Hdiv.
  pose proof (Z.mod_pos_bound maxTitleWidth 16 ltac:(lia)) as Hmod.
  case_decide as Hfit.
  - apply truncateTitle_fixed. unfold truncate_cond, getTextWidth. fold n.
    rewrite andb_false_iff, !Z.gtb_ltb, !Z.ltb_ge. lia.
  - unfold truncateTitle.
    destruct (length title) as [|fuel] eqn:Hlen; [lia|]. cbn [truncate_loop].
    assert (Hc : truncate_cond maxTitleWidth title = true).
    { unfold truncate_cond, getTextWidth. rewrite Hlen.
      rewrite andb_true_iff, !Z.gtb_ltb, !Z.ltb_lt. lia. }
    rewrite Hc. unfold truncate_body. rewrite slice_drop_last4 by lia.
    rewrite truncate_loop_ellipsis by lia. simpl. do 2 f_equal. lia.
Qed.

(** X6: the title loop in closed form.  A title that fits the width,
    or has at most three characters, is kept; any other title becomes
    its first [m - 3] characters followed by the ellipsis, where
    [m = max 3 (floor (maxTitleWidth / 16))] is the number of
    characters that fit, but at least three.  So the result is never
    longer than the title, it fits as soon as three characters fit,
    and a title of four characters or more that does not fit a width
    below 64 is reduced to the bare ellipsis. *)
Theorem truncateTitle_closed_form (maxTitleWidth : Z) (title : jsstring) :
  let n := Z.of_nat (length title) in
  let m := Z.max 3 (maxTitleWidth / 16) in
  truncateTitle maxTitleWidth title
  = (if decide (16 * n ≤ maxTitleWidth ∨ n ≤ 3) then title
     else take (Z.to_nat (m - 3)) title ++ js "...")
  ∧ (length (truncateTitle maxTitleWidth title) ≤ length title)%nat
  ∧ (48 ≤ maxTitleWidth → getTextWidth (truncateTitle maxTitleWidth title) 2 ≤ maxTitleWidth).
Proof.
  intros n m.
  pose proof (Z.div_mod maxTitleWidth 16 ltac:(lia)) as Hdiv.
  pose proof (Z.mod_pos_bound maxTitleWidth 16 ltac:(lia)) as Hmod.
  pose proof (truncateTitle_spec maxTitleWidth title) as Hspec. cbv zeta in Hspec.
  fold n m in Hspec. split; [done|]. rewrite Hspec. case_decide as Hfit.
  - split; [done|]. unfold getTextWidth. fold n. lia.
  - assert (Hlen : length (take (Z.to_nat (m - 3)) title ++ js "...") = Z.to_nat m).
    { rewrite take_ellipsis_length by lia. lia. }
    unfold getTextWidth. rewrite Hlen. split; lia.
Qed.

(** X7: event titles keep inside the right margin.  On a canvas at
    least 206 pixels wide an event is painted by a call for the time,
    a call for the truncated title and, perhaps, a divider; every
    store of the title lies in the 16 rows from [eventY] and in the
    columns from 124 to [width - 35], ten pixels or more short of the
    right margin at [width - 24]. *)
Theorem event_title_fits (round_cos round_sin : Q → Q → Z → Z)
    (width maxContentY : Z) (isToday : bool) (total : Z) (event : CalendarEvent)
    (eventIndex eventY : Z) :
  206 ≤ width →
  ∃ timeCall titleCall divider,
    event_calls width maxContentY isToday total event eventIndex eventY
    = timeCall :: titleCall :: divider
    ∧ call_text titleCall = truncateTitle (width - 158) (title event)
    ∧ ∀ w, w ∈ run round_cos round_sin width titleCall →
           ∃ px py, fst w = py * width + px
                    ∧ 124 ≤ px < width - 34 ∧ eventY ≤ py < eventY + 16.
Proof.
  intros Hwidth. unfold event_calls, MARGIN, timeColumnWidth. cbv zeta.
  replace (width - 24 * 2 - 100 - 10) with (width - 158) by lia.
  eexists _, _, _. split; [reflexivity|]. split; [reflexivity|].
  - cbn [run]. intros w (px & py & (-> & _) & Hpx & Hpy)%drawText_loop_elem.
    exists px, py. split; [done|]. split; [|lia].
    pose proof (code_points_length (truncateTitle (width - 158) (title event))) as Hcp.
    assert (Hfit : 16 * Z.of_nat (length (truncateTitle (width - 158) (title event)))
                   ≤ width - 158); [|lia].
    pose proof (Z.div_mod (width - 158) 16 ltac:(lia)) as Hdiv.
    pose proof (Z.mod_pos_bound (width - 158) 16 ltac:(lia)) as Hmod.
    rewrite truncateTitle_spec. cbv zeta. case_decide as Hkeep; [lia|].
    rewrite take_ellipsis_length by lia. lia.
Qed.

Lemma event_title_fits_witness :
  ∃ timeCall titleCall divider,
    event_calls 480 750 true 3
      {| time := js "09:00"; title := js "Design Review of the quarterly roadmap";
         isAllDay := false |} 0 305
    = timeCall :: titleCall :: divider
    ∧ call_text titleCall
      = truncateTitle (480 - 158) (js "Design Review of the quarterly roadmap")
    ∧ ∀ w, w ∈ run sample_round_cos sample_round_sin 480 titleCall →
           ∃ px py, fst w = py * 480 + px ∧ 124 ≤ px < 480 - 34 ∧ 305 ≤ py < 305 + 16.
Proof.
  apply (event_title_fits sample_round_cos sample_round_sin 480 750 true 3
           {| time := js "09:00"; title := js "Design Review of the quarterly roadmap";
              isAllDay := false |} 0 305).
  lia.
Defined.

(** ** The texts that the worker composes *)











Lemma wmo_lookup_elem code table text :
  wmo_lookup code table = Some text → (code, text) ∈ table.
Proof.
  induction table as [|[k t] table IH]; simpl; [discriminate|].
  destruct (Z.eqb_spec code k) as [->|Hne].
  - intros [= ->]. apply list_elem_of_here.
  - intros Ht. apply list_elem_of_further. auto.
Qed.



(** ** Weather codes, condition texts and icons *)

(** The codes for which the conditional chain falls through to the
    unknown icon. *)
Lemma icon_unknown_codes code :
  icon_for_code code = Unknown
  ↔ code < 0 ∨ 4 ≤ code ≤ 44 ∨ 49 ≤ code ≤ 50 ∨ 68 ≤ code ≤ 70 ∨ 78 ≤ code ≤ 79
    ∨ 83 ≤ code ≤ 84 ∨ 87 ≤ code ≤ 94.
Proof.
  assert (Hcases :
    code < 0 ∨ code = 0 ∨ code = 1 ∨ 2 ≤ code ≤ 3 ∨ 4 ≤ code ≤ 44 ∨ 45 ≤ code ≤ 48
    ∨ 49 ≤ code ≤ 50 ∨ 51 ≤ code ≤ 67 ∨ 68 ≤ code ≤ 70 ∨ 71 ≤ code ≤ 77
    ∨ 78 ≤ code ≤ 79 ∨ 80 ≤ code ≤ 82 ∨ 83 ≤ code ≤ 84 ∨ 85 ≤ code ≤ 86
    ∨ 87 ≤ code ≤ 94 ∨ 95 ≤ code) by lia.
  unfold icon_for_code, icon_table. cbn [lookup_icon in_range snd].
  repeat (destruct Hcases as [Hc | Hcases]);
    try rename Hcases into Hc;
    decide_cmp; cbn [andb orb]; (split; [intros Hi; (discriminate || lia)|]);
    (reflexivity || lia).
Qed.

(** X9: for every condition code outside the ranges of the six
    icons, the sentinel -1 of a failed weather request included,
    [drawWeatherIcon] stores nothing at all: the fallback draws a
    question mark, and the font has no glyph for it. *)
Theorem unknown_code_draws_nothing (round_cos round_sin : Q → Q → Z → Z)
    (width x y code : Z) :
  (code < 0 ∨ 4 ≤ code ≤ 44 ∨ 49 ≤ code ≤ 50 ∨ 68 ≤ code ≤ 70 ∨ 78 ≤ code ≤ 79
   ∨ 83 ≤ code ≤ 84 ∨ 87 ≤ code ≤ 94 →
   drawWeatherIcon round_cos round_sin width x y code = [])
  ∧ drawWeatherIcon round_cos round_sin width x y (conditionCode (fetchWeather None)) = [].
Proof.
  assert (Hblank : code < 0 ∨ 4 ≤ code ≤ 44 ∨ 49 ≤ code ≤ 50 ∨ 68 ≤ code ≤ 70
            ∨ 78 ≤ code ≤ 79 ∨ 83 ≤ code ≤ 84 ∨ 87 ≤ code ≤ 94 →
            drawWeatherIcon round_cos round_sin width x y code = []).
  { intros Hcode. unfold drawWeatherIcon.
    repeat (destruct Hcode as [Hc | Hcode]);
      try rename Hcode into Hc;
      decide_cmp; cbn [andb orb]; apply unknownIcon_empty. }
  split; [done|]. apply unknownIcon_empty.
Qed.

(** X10: the table of condition texts and the icon ranges agree.  For
    every outcome of the weather request, a weather whose code falls
    through to the unknown icon carries the text "Unknown" or
    "Unavailable": every code that [WMO_CODES] names has one of the
    six drawn icons. *)
Theorem named_condition_has_icon (response : option WeatherReading) :
  let weather := fetchWeather response in
  (icon_for_code (conditionCode weather) = Unknown
   → condition weather = js "Unknown" ∨ condition weather = js "Unavailable")
  ∧ ∀ code text, wmo_lookup code WMO_CODES = Some text → icon_for_code code ≠ Unknown.
Proof.
  assert (Hnamed : ∀ code text,
            wmo_lookup code WMO_CODES = Some text → icon_for_code code ≠ Unknown).
  { intros code text Htext%wmo_lookup_elem Hicon.
    apply icon_unknown_codes in Hicon.
    assert (Hcodes : Forall (fun entry => icon_for_code (fst entry) ≠ Unknown) WMO_CODES).
    { repeat apply Forall_cons_2; try apply Forall_nil_2; by vm_compute. }
    apply (proj1 (list.Forall_forall _ _) Hcodes) in Htext. simpl in Htext.
    by apply Htext, icon_unknown_codes. }
  split; [|done].
  destruct response as [data|]; cbn [fetchWeather conditionCode condition]; [|by right].
  intros Hicon. left.
  destruct (wmo_lookup (weather_code data) WMO_CODES) as [text|] eqn:Htext; [|done].
  by apply Hnamed in Htext.
Qed.

(** ** The BMP file: header, pixel rows and failure *)

Lemma dv_set_inv n buf off v b :
  dv_set n buf off v = Some b →
  0 ≤ off ∧ off + Z.of_nat n ≤ Z.of_nat (length buf) ∧ length b = length buf.
Proof.
  unfold dv_set. case_match eqn:Hguard; [|discriminate]. intros [= <-].
  guards. rewrite apply_writes_length. lia.
Qed.

Lemma dv_set_lookup_other n buf off v b (j : nat) :
  dv_set n buf off v = Some b →
  Z.of_nat j < off ∨ off + Z.of_nat n ≤ Z.of_nat j → b !! j = buf !! j.
Proof.
  unfold dv_set. case_match; [|discriminate]. intros [= <-] Hj.
  apply apply_writes_lookup_other.
  intros w (k & byte & -> & Hk)%elem_of_lookup_imap. simpl.
  apply lookup_lt_Some in Hk. rewrite le_bytes_length in Hk. lia.
Qed.

(** Carry a byte back over the stores of the header. *)
Ltac byte_back :=
  repeat match goal with
  | H : dv_set _ ?buf _ _ = Some ?b |- context [?b !! _] =>
      rewrite (dv_set_lookup_other _ _ _ _ _ _ H) by (simpl Z.of_nat; lia)
  end.

(** The stores of the pixel loop lie in the pixel area. *)
Lemma pixel_writes_area off width height pixelData w :
  w ∈ pixel_writes off (ceil_div width 4 * 4) width height pixelData → off ≤ fst w.
Proof.
  unfold pixel_writes. intros Hw. elem_inv. subst w. simpl.
  pose proof (ceil_div_4_nonneg width ltac:(lia)). nia.
Qed.

(** The file that [createBMP] returns whenever the 54 bytes of the two
    headers fit in it: the fields of the headers, then zeros, with
    the palette and the pixel rows stored over them. *)
Lemma createBMP_shape width height pixelData :
  let padded := ceil_div width 4 * 4 in
  let fileSize := 14 + 40 + 256 * 4 + padded * height in
  54 ≤ fileSize →
  ∃ header,
    createBMP width height pixelData
    = Some (apply_writes (apply_writes header (palette_writes 54))
              (pixel_writes 1078 padded width height pixelData))
    ∧ Z.of_nat (length header) = fileSize
    ∧ header !! 0%nat = Some 0x42 ∧ header !! 1%nat = Some 0x4D
    ∧ dv_get 4 header 2 = Some (fileSize mod 2 ^ 32)
    ∧ dv_get 4 header 6 = Some 0
    ∧ dv_get 4 header 10 = Some 1078
    ∧ dv_get 4 header 14 = Some 40
    ∧ dv_get 4 header 18 = Some (width mod 2 ^ 32)
    ∧ dv_get 4 header 22 = Some ((- height) mod 2 ^ 32)
    ∧ dv_get 2 header 26 = Some 1
    ∧ dv_get 2 header 28 = Some 8
    ∧ dv_get 4 header 30 = Some 0
    ∧ dv_get 4 header 34 = Some ((padded * height) mod 2 ^ 32)
    ∧ dv_get 4 header 38 = Some 2835
    ∧ dv_get 4 header 42 = Some 2835
    ∧ dv_get 4 header 46 = Some 256
    ∧ dv_get 4 header 50 = Some 256
    ∧ ∀ j : nat, 54 ≤ Z.of_nat j < fileSize → header !! j = Some 0.
Proof.
  intros padded fileSize Hsize.
  unfold createBMP. cbv zeta. fold padded. fold fileSize.
  clearbody fileSize. clearbody padded.
  unfold newUint8Array. rewrite (proj2 (Z.ltb_ge fileSize 0)) by lia.
  cbn [mbind option_bind].
  set (buffer0 := store (store (replicate (Z.to_nat fileSize) 0) 0 66) 1 77).
  assert (Hlen0 : length buffer0 = Z.to_nat fileSize)
    by (subst buffer0; by rewrite !store_length, length_replicate).
  unfold setUint32, setInt32, setUint16.
  do 14 header_store.
  exists buffer13. split; [reflexivity|].
  split; [lia|].
  change (256 ^ Z.of_nat 4) with (2 ^ 32) in *.
  split; [|split].
  { byte_back. subst buffer0. rewrite store_lookup_ne by lia.
    change 0%nat with (Z.to_nat 0). rewrite store_lookup_eq; [done|].
    rewrite length_replicate. lia. }
  { byte_back. subst buffer0.
    change 1%nat with (Z.to_nat 1). rewrite store_lookup_eq; [done|].
    rewrite store_length, length_replicate. lia. }
  repeat (split; [frame_back; reflexivity|]).
  intros j Hj. byte_back. subst buffer0.
  rewrite !store_lookup_ne by lia. apply lookup_replicate_2. lia.
Qed.

Lemma padded_row_size width :
  width ≤ ceil_div width 4 * 4 < width + 4.
Proof.
  unfold ceil_div.
  pose proof (Z.div_mod (- width) 4 ltac:(lia)).
  pose proof (Z.mod_pos_bound (- width) 4 ltac:(lia)). lia.
Qed.

(** X11: the file header and the remaining fields of the info header.
    For a width below 2^31 and a file below 2^32 bytes the file
    starts with the signature "BM"; the file-size field (offset 2)
    holds the length of the file, the reserved field 0, the
    pixel-data offset (offset 10) 1078; the info header gives its own
    size 40, the width, one plane, the size of the pixel data
    [paddedRowSize * height], 2835 pixels per metre in both
    directions and 256 colours used and important. *)
Theorem createBMP_header (width height : Z) (pixelData : list Z) :
  0 ≤ width < 2 ^ 31 → 0 ≤ height →
  14 + 40 + 256 * 4 + ceil_div width 4 * 4 * height < 2 ^ 32 →
  ∃ bmp,
    createBMP width height pixelData = Some bmp
    ∧ take 2 bmp = [0x42; 0x4D]
    ∧ getUint32 bmp 2 = Some (Z.of_nat (length bmp))
    ∧ getUint32 bmp 6 = Some 0
    ∧ getUint32 bmp 10 = Some (14 + 40 + 256 * 4)
    ∧ getUint32 bmp 14 = Some 40
    ∧ getInt32 bmp 18 = Some width
    ∧ getUint16 bmp 26 = Some 1
    ∧ getUint32 bmp 34 = Some (ceil_div width 4 * 4 * height)
    ∧ getInt32 bmp 38 = Some 2835
    ∧ getInt32 bmp 42 = Some 2835
    ∧ getUint32 bmp 46 = Some 256
    ∧ getUint32 bmp 50 = Some 256.
Proof.
  intros Hw Hh Hsize.
  pose proof (padded_row_size width) as Hpad.
  assert (Hdata : 0 ≤ ceil_div width 4 * 4 * height) by (apply Z.mul_nonneg_nonneg; lia).
  destruct (createBMP_shape width height pixelData ltac:(lia))
    as (header & Hbmp & Hlen & Hb0 & Hb1 & Hf2 & Hf6 & Hf10 & Hf14 & Hf18 & _ & Hf26
        & _ & _ & Hf34 & Hf38 & Hf42 & Hf46 & Hf50 & _).
  set (padded := ceil_div width 4 * 4) in *. clearbody padded.
  set (palette := palette_writes 54) in *.
  set (pixels := pixel_writes 1078 padded width height pixelData) in *.
  assert (Hpalette : ∀ w, w ∈ palette → 54 ≤ fst w < 1078).
  { intros w (i & k & Hi & Hk & -> & _)%palette_writes_elem. lia. }
  assert (Hpixels : ∀ w, w ∈ pixels → 1078 ≤ fst w).
  { intros w Hw'%pixel_writes_elem; lia. }
  assert (Hframe : ∀ n off, 0 ≤ off → off + Z.of_nat n ≤ 54 →
            dv_get n (apply_writes (apply_writes header palette) pixels) off
            = dv_get n header off).
  { intros n off Hoff Hn. rewrite !dv_get_frame_writes; try done.
    - intros w Hw'%Hpalette. lia.
    - intros w Hw'%Hpixels. lia. }
  assert (Hbyte : ∀ j : nat, (j < 54)%nat →
            apply_writes (apply_writes header palette) pixels !! j = header !! j).
  { intros j Hj. rewrite !apply_writes_lookup_other; [done| |].
    - intros w Hw'%Hpalette. lia.
    - intros w Hw'%Hpixels. lia. }
  eexists. split; [exact Hbmp|].
  unfold getUint32, getUint16, getInt32.
  rewrite !Hframe by (simpl Z.of_nat; lia).
  rewrite Hf2, Hf6, Hf10, Hf14, Hf18, Hf26, Hf34, Hf38, Hf42, Hf46, Hf50.
  rewrite !apply_writes_length.
  change (2 ^ 31) with 2147483648 in *. change (2 ^ 32) with 4294967296 in *.
  rewrite !Z.mod_small by lia.
  repeat split; try reflexivity.
  - apply list_eq. intros [|[|j]]; rewrite lookup_take.
    + rewrite decide_True by lia. by rewrite Hbyte by lia.
    + rewrite decide_True by lia. by rewrite Hbyte by lia.
    + by rewrite decide_False by lia.
  - f_equal. lia.
  - cbn [fmap option_fmap option_map]. f_equal. decide_cmp. reflexivity.
Qed.

Lemma createBMP_header_witness :
  ∃ bmp,
    createBMP 3 2 [255; 0; 64; 176; 255; 0] = Some bmp
    ∧ take 2 bmp = [0x42; 0x4D]
    ∧ getUint32 bmp 2 = Some (Z.of_nat (length bmp))
    ∧ getUint32 bmp 6 = Some 0
    ∧ getUint32 bmp 10 = Some (14 + 40 + 256 * 4)
    ∧ getUint32 bmp 14 = Some 40
    ∧ getInt32 bmp 18 = Some 3
    ∧ getUint16 bmp 26 = Some 1
    ∧ getUint32 bmp 34 = Some (ceil_div 3 4 * 4 * 2)
    ∧ getInt32 bmp 38 = Some 2835
    ∧ getInt32 bmp 42 = Some 2835
    ∧ getUint32 bmp 46 = Some 256
    ∧ getUint32 bmp 50 = Some 256.
Proof.
  apply (createBMP_header 3 2 [255; 0; 64; 176; 255; 0]); by vm_compute.
Defined.

(** Where the pixel loop leaves each byte of a row. *)
Lemma createBMP_rows (width height : Z) (pixelData : list Z) :
  0 ≤ width → 0 ≤ height →
  let padded := ceil_div width 4 * 4 in
  ∃ bmp,
    createBMP width height pixelData = Some bmp
    ∧ Z.of_nat (length bmp) = 14 + 40 + 256 * 4 + padded * height
    ∧ ∀ x y, 0 ≤ y < height →
        (0 ≤ x < width →
         bmp !! Z.to_nat (1078 + y * padded + x)
         = Some (default 0 (load pixelData (y * width + x)) mod 256))
        ∧ (width ≤ x < padded →
           bmp !! Z.to_nat (1078 + y * padded + x) = Some 0).
Proof.
  intros Hw Hh padded.
  pose proof (padded_row_size width) as Hpad. fold padded in Hpad.
  assert (Hdata : 0 ≤ padded * height) by (apply Z.mul_nonneg_nonneg; lia).
  destruct (createBMP_shape width height pixelData ltac:(fold padded; lia))
    as (header & Hbmp & Hlen & Hrest).
  do 16 (destruct Hrest as [_ Hrest]).
  fold padded in Hbmp, Hlen, Hrest.
  clearbody padded.
  exists (apply_writes (apply_writes header (palette_writes 54))
            (pixel_writes 1078 padded width height pixelData)).
  split; [done|]. split; [by rewrite !apply_writes_length|].
  intros x y Hy. split; intros Hx.
  - apply (apply_writes_lookup_unique _ _ (1078 + y * padded + x)
             (default 0 (load pixelData (y * width + x)))).
    + unfold pixel_writes.
      apply list_elem_of_bind. exists y. split; [|apply elem_of_seqZ; lia].
      apply list_elem_of_bind. exists x. split; [|apply elem_of_seqZ; lia].
      apply list_elem_of_here.
    + unfold pixel_writes. intros w Hin Heq. elem_inv. subst w. cbn [fst snd] in *.
      assert (Hsame : y * padded + x = x0 * padded + x1) by lia.
      apply cell_inj in Hsame as [-> ->]; [done|lia..].
    + rewrite apply_writes_length. nia.
  - rewrite apply_writes_lookup_other.
    + rewrite apply_writes_lookup_other.
      * apply Hrest. nia.
      * intros w (i & k & Hi & Hk & -> & _)%palette_writes_elem. nia.
    + unfold pixel_writes. intros w Hin. elem_inv. subst w. simpl.
      rewrite Z2Nat.id by nia. intros Heq.
      assert (Hsame : x0 * padded + x1 = y * padded + x) by lia.
      apply cell_inj in Hsame as [-> ->]; lia.
Qed.

(** X12: the pixel rows.  For a width and a height that are not
    negative, row [y] of the image starts at offset
    [1078 + y * paddedRowSize], where [paddedRowSize] is the width
    rounded up to a multiple of four; its first [width] bytes are
    the pixels [pixelData[y * width + x]] in order, each reduced to a
    byte and a missing one read as 0, and the bytes that pad the row
    are 0. *)
Theorem createBMP_pixel_rows (width height : Z) (pixelData : list Z) :
  0 ≤ width → 0 ≤ height →
  let padded := ceil_div width 4 * 4 in
  ∃ bmp,
    createBMP width height pixelData = Some bmp
    ∧ width ≤ padded < width + 4
    ∧ padded mod 4 = 0
    ∧ ∀ x y, 0 ≤ y < height →
        (0 ≤ x < width →
         bmp !! Z.to_nat (1078 + y * padded + x)
         = Some (default 0 (load pixelData (y * width + x)) mod 256))
        ∧ (width ≤ x < padded →
           bmp !! Z.to_nat (1078 + y * padded + x) = Some 0).
Proof.
  intros Hw Hh padded.
  destruct (createBMP_rows width height pixelData Hw Hh) as (bmp & Hbmp & _ & Hrows).
  exists bmp. split; [done|]. split; [apply padded_row_size|].
  split; [apply Z.mod_mul; lia|done].
Qed.

Lemma createBMP_pixel_rows_witness :
  ∃ bmp,
    createBMP 3 2 [255; 0; 64; 176; 255; 0] = Some bmp
    ∧ bmp !! Z.to_nat (1078 + 1 * 4 + 0) = Some 176
    ∧ bmp !! Z.to_nat (1078 + 1 * 4 + 3) = Some 0.
Proof.
  destruct (createBMP_pixel_rows 3 2 [255; 0; 64; 176; 255; 0] ltac:(lia) ltac:(lia))
    as (bmp & Hbmp & _ & _ & Hrows).
  exists bmp. split; [exact Hbmp|]. split.
  - apply (proj1 (Hrows 0 1 ltac:(lia))). lia.
  - apply (proj2 (Hrows 3 1 ltac:(lia))). split; [lia|exact eq_refl].
Defined.

(** X13: when the encoder fails.  [createBMP] raises whenever the
    computed file size is below the 54 bytes of the two headers (a
    negative size fails the allocation, a size of 0 to 53 fails a
    header field that does not fit in the buffer); a file that it
    returns has exactly the computed size, which is then at least
    54. *)
Theorem createBMP_small_size_raises (width height : Z) (pixelData : list Z) :
  let fileSize := 14 + 40 + 256 * 4 + ceil_div width 4 * 4 * height in
  (fileSize < 54 → createBMP width height pixelData = None)
  ∧ ∀ bmp, createBMP width height pixelData = Some bmp →
           54 ≤ fileSize ∧ Z.of_nat (length bmp) = fileSize.
Proof.
  intros fileSize.
  assert (Hsmall : fileSize < 54 → createBMP width height pixelData = None).
  { intros Hsmall.
    destruct (createBMP width height pixelData) as [bmp|] eqn:Hbmp; [exfalso|done].
    unfold createBMP in Hbmp. cbv zeta in Hbmp. fold fileSize in Hbmp.
    clearbody fileSize.
    apply bind_Some in Hbmp as (buffer & Hnew & Hbmp).
    unfold newUint8Array in Hnew.
    destruct (fileSize <? 0) eqn:Hneg; [discriminate|]. injection Hnew as <-.
    guards.
    unfold setUint32, setInt32, setUint16 in Hbmp.
    repeat match type of Hbmp with
    | _ ≫= _ = Some _ =>
        let b := fresh "b" in
        let Hb := fresh "Hb" in
        apply bind_Some in Hbmp as (b & Hb & Hbmp);
        apply dv_set_inv in Hb as (_ & ? & ?)
    end.
    rewrite !store_length, length_replicate in *.
    simpl Z.of_nat in *. lia. }
  split; [done|]. intros bmp Hbmp.
  destruct (Z.lt_ge_cases fileSize 54) as [Hlt|Hge]; [rewrite Hsmall in Hbmp; done|].
  split; [done|].
  destruct (createBMP_shape width height pixelData Hge) as (header & Hbmp' & Hshape).
  rewrite Hbmp in Hbmp'. apply (inj Some) in Hbmp'. subst bmp.
  destruct Hshape as (Hlen & _). by rewrite !apply_writes_length.
Qed.

Lemma createBMP_small_size_raises_witness :
  createBMP 4 (-260) [] = None ∧ createBMP 4 (-300) [] = None.
Proof.
  split.
  - apply (proj1 (createBMP_small_size_raises 4 (-260) [])). vm_compute. reflexivity.
  - apply (proj1 (createBMP_small_size_raises 4 (-300) [])). vm_compute. reflexivity.
Defined.

(** ** The response of the handler *)

Lemma renderDisplay_levels (round_cos round_sin : Q → Q → Z → Z)
    width height weather days generatedAt pixels :
  renderDisplay round_cos round_sin width height weather days generatedAt = Some pixels →
  Forall is_level pixels.
Proof.
  unfold renderDisplay, newUint8Array.
  destruct (width * height <? 0); [discriminate|]. simpl. intros [= <-].
  apply (apply_writes_Forall is_level).
  - intros w Hw. apply run_all_levels in Hw; [|apply render_calls_levels].
    by rewrite is_level_byte.
  - apply Forall_replicate. auto with levels.
Qed.

(** What [fetch] returns comes from two finite dimensions. *)
Lemma fetch_Some (round_cos round_sin : Q → Q → Z → Z) env weather days generatedAt bmp :
  fetch round_cos round_sin env weather days generatedAt = Some bmp →
  ∃ width height pixels,
    display_width env = Int width ∧ display_height env = Int height
    ∧ renderDisplay round_cos round_sin width height weather days generatedAt
      = Some pixels
    ∧ createBMP width height pixels = Some bmp.
Proof.
  unfold fetch.
  destruct (display_width env) as [| |width]; [done..|].
  destruct (display_height env) as [| |height]; [done..|].
  intros (pixels & Hpixels & Hbmp)%bind_Some. eauto 10.
Qed.

(** X14: the handler end to end.  With two positive dimensions,
    whatever the weather, the days and the time, a response of
    [fetch] is a file of [1078 + paddedRowSize * height] bytes, and
    the byte of row [y], column [x] of its pixel area is the pixel
    [(x, y)] of the buffer that [renderDisplay] produced: the image is
    stored top row first, unchanged. *)
Theorem fetch_response (round_cos round_sin : Q → Q → Z → Z) (env : Env)
    (weather : WeatherData) (days : list DayEvents) (generatedAt : DateView)
    (width height : Z) (bmp : list Z) :
  display_width env = Int width → display_height env = Int height →
  0 < width → 0 < height →
  fetch round_cos round_sin env weather days generatedAt = Some bmp →
  let padded := ceil_div width 4 * 4 in
  ∃ pixels,
    renderDisplay round_cos round_sin width height weather days generatedAt = Some pixels
    ∧ Z.of_nat (length pixels) = width * height
    ∧ Z.of_nat (length bmp) = 1078 + padded * height
    ∧ ∀ x y, 0 ≤ x < width → 0 ≤ y < height →
        bmp !! Z.to_nat (1078 + y * padded + x) = pixels !! Z.to_nat (y * width + x).
Proof.
  intros Hwidth Hheight Hw Hh
    (width' & height' & pixels & Hwidth' & Hheight' & Hrender & Hbmp)%fetch_Some padded.
  assert (width' = width) as -> by congruence.
  assert (height' = height) as -> by congruence.
  pose proof (renderDisplay_length round_cos round_sin width height weather days
                generatedAt) as Hlen.
  rewrite Hrender in Hlen.
  pose proof (renderDisplay_levels _ _ _ _ _ _ _ _ Hrender) as Hlevels.
  destruct (createBMP_rows width height pixels ltac:(lia) ltac:(lia))
    as (bmp' & Hbmp' & Hsize & Hrows).
  rewrite Hbmp in Hbmp'. injection Hbmp' as <-.
  exists pixels. split; [done|]. split; [done|].
  split; [fold padded in Hsize; lia|].
  intros x y Hx Hy. unfold padded. rewrite (proj1 (Hrows x y Hy) Hx).
  pose proof (cell_in_range width height x y Hx Hy) as Hidx.
  unfold load. rewrite (proj2 (Z.leb_le _ _)) by lia.
  destruct (pixels !! Z.to_nat (y * width + x)) as [v|] eqn:Hv.
  - simpl. f_equal. apply is_level_byte.
    apply list_elem_of_lookup_2 in Hv.
    by apply (proj1 (list.Forall_forall _ _) Hlevels).
  - apply lookup_ge_None in Hv. lia.
Qed.

Lemma fetch_response_witness :
  let env := {| DISPLAY_WIDTH := Some (js "3"); DISPLAY_HEIGHT := Some (js "2");
                GOOGLE_CALENDAR_API_KEY := None; GOOGLE_CALENDAR_ID := None |} in
  let bmp := default [] (fetch sample_round_cos sample_round_sin env sample_weather
                           [sample_next_day] sample_date) in
  let padded := ceil_div 3 4 * 4 in
  ∃ pixels,
    renderDisplay sample_round_cos sample_round_sin 3 2 sample_weather
      [sample_next_day] sample_date = Some pixels
    ∧ Z.of_nat (length pixels) = 3 * 2
    ∧ Z.of_nat (length bmp) = 1078 + padded * 2
    ∧ ∀ x y, 0 ≤ x < 3 → 0 ≤ y < 2 →
        bmp !! Z.to_nat (1078 + y * padded + x) = pixels !! Z.to_nat (y * 3 + x).
Proof.
  intros env bmp.
  apply (fetch_response sample_round_cos sample_round_sin env sample_weather
           [sample_next_day] sample_date 3 2 bmp);
    [reflexivity|reflexivity|lia|lia|vm_compute; reflexivity].
Defined.

(** X15: when the handler fails.  [fetch] raises, by the RangeError of
    the pixel buffer, whenever the two dimensions have opposite signs
    and whenever one of them is infinite; a response, when there is
    one, comes from two finite dimensions of the same sign. *)
Theorem fetch_raises (round_cos round_sin : Q → Q → Z → Z) (env : Env)
    (weather : WeatherData) (days : list DayEvents) (generatedAt : DateView) :
  (∀ width height,
     display_width env = Int width → display_height env = Int height →
     width * height < 0 →
     fetch round_cos round_sin env weather days generatedAt = None)
  ∧ (∀ negative,
       display_width env = Infinity negative ∨ display_height env = Infinity negative →
       fetch round_cos round_sin env weather days generatedAt = None)
  ∧ ∀ bmp,
      fetch round_cos round_sin env weather days generatedAt = Some bmp →
      ∃ width height,
        display_width env = Int width ∧ display_height env = Int height
        ∧ 0 < width * height.
Proof.
  split; [|split].
  - intros width height Hwidth Hheight Hneg. unfold fetch. rewrite Hwidth, Hheight.
    pose proof (renderDisplay_length round_cos round_sin width height weather days
                  generatedAt) as Hlen.
    destruct (renderDisplay _ _ _ _ _ _ _); [lia|done].
  - intros negative [Hinf|Hinf]; unfold fetch; rewrite Hinf; [done|].
    by destruct (display_width env).
  - intros bmp (width & height & pixels & Hwidth & Hheight & Hrender & Hbmp)%fetch_Some.
    exists width, height. split; [done|]. split; [done|].
    pose proof (renderDisplay_length round_cos round_sin width height weather days
                  generatedAt) as Hlen.
    rewrite Hrender in Hlen.
    assert (width ≠ 0).
    { intros ->.
      destruct (or_default_nonzero (parseInt (DISPLAY_WIDTH env)) 480 ltac:(lia))
        as [Hzero _].
      exact (Hzero Hwidth). }
    assert (height ≠ 0).
    { intros ->.
      destruct (or_default_nonzero (parseInt (DISPLAY_HEIGHT env)) 800 ltac:(lia))
        as [Hzero _].
      exact (Hzero Hheight). }
    nia.
Qed.

(** ** The agenda: capacity and rows *)

Lemma row_capacity_nonneg maxY y : 0 ≤ row_capacity maxY y.
Proof.
  unfold row_capacity, eventRowHeight. rewrite Z.gtb_ltb.
  destruct (Z.ltb_spec maxY (y + 30)); [lia|].
  assert (0 ≤ (maxY - 30 - y) / 45) by (apply Z.div_pos; lia). lia.
Qed.

Lemma row_capacity_step maxY y :
  y + 30 ≤ maxY → row_capacity maxY y = row_capacity maxY (y + eventRowHeight) + 1.
Proof.
  intros Hfit. unfold row_capacity, eventRowHeight. rewrite !Z.gtb_ltb.
  rewrite (proj2 (Z.ltb_ge _ _)) by lia.
  destruct (Z.ltb_spec maxY (y + 45 + 30)).
  - rewrite Z.div_small by lia. lia.
  - replace (maxY - 30 - y) with (maxY - 30 - (y + 45) + 1 * 45) by lia.
    rewrite Z.div_add by lia. lia.
Qed.

(** The inner loop paints as many events as there are rows. *)
Lemma painted_capacity maxY evs y :
  Z.of_nat (painted maxY evs y) = Z.min (Z.of_nat (length evs)) (row_capacity maxY y).
Proof.
  revert y. induction evs as [|e evs IH]; intros y; cbn [painted length].
  - pose proof (row_capacity_nonneg maxY y). lia.
  - destruct (y + 30 >? maxY) eqn:Hfit; rewrite Z.gtb_ltb in Hfit; guards.
    + unfold row_capacity. rewrite Z.gtb_ltb, (proj2 (Z.ltb_lt _ _)) by lia. lia.
    + rewrite row_capacity_step by lia. rewrite Nat2Z.inj_succ, IH. lia.
Qed.

(** X16: how many events of a day are painted.  From the row [eventY]
    at which the events of a day start, [floor((maxContentY - 30 -
    eventY) / 45) + 1] rows fit (none when [eventY + 30] is already
    past [maxContentY]).  The inner loop paints the first events of the
    day up to that number, each 45 rows below the one before; when
    the day has more, it adds the marker on the next row, counting
    the rest, and otherwise no marker. *)
Theorem day_capacity (width maxContentY : Z) (isToday : bool)
    (evs : list CalendarEvent) (eventY : Z) :
  let n := Z.of_nat (length evs) in
  let cap := row_capacity maxContentY eventY in
  fst (renderEvents width maxContentY isToday n evs 0 eventY)
  = paint_all width maxContentY isToday n (take (Z.to_nat cap) evs) 0 eventY
    ++ (if decide (n ≤ cap) then []
        else [more_marker (eventY + eventRowHeight * cap) (n - cap)]).
Proof.
  intros n cap. rewrite renderEvents_spec by lia. cbv zeta.
  pose proof (painted_capacity maxContentY evs eventY) as Hp. fold n cap in Hp.
  pose proof (row_capacity_nonneg maxContentY eventY) as Hcap. fold cap in Hcap.
  destruct (decide (painted maxContentY evs eventY < length evs)%nat) as [Hlt|Hge];
    cbn [fst].
  - rewrite decide_False by lia.
    replace (Z.to_nat cap) with (painted maxContentY evs eventY) by lia.
    replace (Z.of_nat (painted maxContentY evs eventY)) with cap by lia.
    replace (n - 0 - cap) with (n - cap) by lia. reflexivity.
  - rewrite decide_True by lia. rewrite take_ge by lia. by rewrite app_nil_r.
Qed.

Lemma event_calls_rows width maxY lo isToday total e idx y :
  lo ≤ y → y + 30 ≤ maxY →
  Forall (agenda_call width maxY lo) (event_calls width maxY isToday total e idx y).
Proof.
  intros Hlo Hfit. unfold event_calls, agenda_call, MARGIN, timeColumnWidth. cbv zeta.
  apply Forall_app. split.
  - destruct isToday; repeat apply Forall_cons_2; try apply Forall_nil_2; simpl; lia.
  - case_match; [|constructor]. guards. unfold eventRowHeight in *.
    apply Forall_cons_2; [simpl; lia|apply Forall_nil_2].
Qed.

Lemma renderEvents_rows width maxY lo isToday total rest idx y :
  lo ≤ y → y ≤ maxY + 15 →
  Forall (agenda_call width maxY lo) (fst (renderEvents width maxY isToday total rest idx y)).
Proof.
  revert idx y. induction rest as [|e rest IH]; intros idx y Hlo Hhi; cbn [renderEvents];
    [constructor|].
  destruct (y + 30 >? maxY) eqn:Hfit; rewrite Z.gtb_ltb in Hfit; guards.
  - destruct (total - idx >? 0); cbn [fst]; [|constructor].
    apply Forall_cons_2; [|apply Forall_nil_2].
    unfold more_marker, agenda_call. simpl. lia.
  - cbn [fst]. apply Forall_app. split.
    + by apply event_calls_rows.
    + apply IH; unfold eventRowHeight; lia.
Qed.

Lemma agenda_call_weaken width maxY lo lo' c :
  lo ≤ lo' → agenda_call width maxY lo' c → agenda_call width maxY lo c.
Proof. unfold agenda_call. intros Hlo (? & ? & ?). split; [lia|done]. Qed.

Lemma renderDays_rows width maxY lo days idx y :
  lo ≤ y → Forall (agenda_call width maxY lo) (renderDays width maxY days idx y).
Proof.
  revert idx y. induction days as [|d days IH]; intros idx y Hlo; cbn [renderDays];
    [constructor|].
  cbv zeta. destruct (_ >? maxY) eqn:Hfit; [constructor|].
  rewrite Z.gtb_ltb in Hfit. guards.
  unfold dayHeaderHeight, eventRowHeight, MARGIN, timeColumnWidth in *.
  apply Forall_app. split.
  - case_match; [constructor|].
    apply Forall_cons_2; [|apply Forall_nil_2]. unfold agenda_call. simpl. lia.
  - apply Forall_cons_2.
    { unfold agenda_call, INK_BLACK, DARK_GRAY, LIGHT_GRAY.
      destruct (idx =? 0), (bool_decide (label d = js "TODAY")); simpl; lia. }
    case_match.
    + apply Forall_cons_2.
      { unfold agenda_call. simpl. case_match; lia. }
      apply IH. case_match; lia.
    + apply Forall_app. split.
      * apply renderEvents_rows; case_match; lia.
      * apply IH. etrans; [|apply renderEvents_advances]. case_match; lia.
Qed.

Lemma agenda_call_stores (round_cos round_sin : Q → Q → Z → Z) width maxY lo c w :
  agenda_call width maxY lo c → w ∈ run round_cos round_sin width c →
  ∃ px py, fst w = py * width + px ∧ 0 ≤ px < width
           ∧ fst (call_rows c) ≤ py < snd (call_rows c).
Proof.
  intros (_ & _ & Hc). destruct c; simpl in *; intros Hw.
  - apply drawText_elem in Hw as (px & py & (-> & ? & ?) & ?). eauto.
  - apply drawText_elem in Hw as (px & py & (-> & ? & ?) & ?). eauto.
  - apply drawText_elem in Hw as (px & py & (-> & ? & ?) & ?). eauto.
  - apply drawHLine_elem in Hw as (px & py & (-> & ? & ?) & _ & ? & _). eauto.
  - destruct Hc as (? & ? & ? & ?).
    apply drawDashedHLine_elem in Hw as (px & -> & ?); [|done..].
    exists px, y. simpl. split; [done|lia].
  - done.
Qed.

Lemma agenda_calls_rows width height days :
  Forall (agenda_call width (height - 50) (dateSectionEnd + 20))
    (agenda_calls width height days).
Proof. apply renderDays_rows. lia. Qed.

Lemma agenda_stores (round_cos round_sin : Q → Q → Z → Z) width height days w :
  w ∈ run_all round_cos round_sin width (agenda_calls width height days) →
  ∃ px py, fst w = py * width + px ∧ 0 ≤ px < width
           ∧ dateSectionEnd + 20 ≤ py < height - 19.
Proof.
  intros (c & Hw & Hc)%list_elem_of_bind.
  pose proof (proj1 (list.Forall_forall _ _) (agenda_calls_rows width height days) c Hc)
    as Hok.
  destruct (agenda_call_stores round_cos round_sin _ _ _ _ _ Hok Hw)
    as (px & py & Hidx & Hpx & Hpy).
  exists px, py. split; [done|]. split; [done|].
  destruct Hok as (Hlo & Hrows & _). destruct (is_marker c); lia.
Qed.

(** X17: the agenda keeps to its band.  Whatever the days and the
    size of the canvas, every store of the agenda is at a column of
    the buffer and at a row from 270, 20 rows below the date header,
    to [height - 20].  Every call but the overflow marker ends at row
    [height - 64] or above, clear of the footer; the marker starts
    between the rows [height - 79] and [height - 35] and is 16 rows
    high, so it can reach across the footer rule at row
    [height - 40]. *)
Theorem agenda_band (round_cos round_sin : Q → Q → Z → Z) (width height : Z)
    (days : list DayEvents) :
  (∀ w, w ∈ run_all round_cos round_sin width (agenda_calls width height days) →
        ∃ px py, fst w = py * width + px ∧ 0 ≤ px < width
                 ∧ dateSectionEnd + 20 ≤ py < height - 19)
  ∧ (∀ c, c ∈ agenda_calls width height days →
          dateSectionEnd + 20 ≤ fst (call_rows c)
          ∧ if is_marker c
            then height - 80 < fst (call_rows c) ≤ height - 35
                 ∧ snd (call_rows c) = fst (call_rows c) + 16
            else snd (call_rows c) ≤ height - 64).
Proof.
  split; [intros w; apply agenda_stores|].
  intros c Hc.
  destruct (proj1 (list.Forall_forall _ _) (agenda_calls_rows width height days) c Hc)
    as (Hlo & Hrows & _).
  split; [done|]. destruct (is_marker c); lia.
Qed.

(** ** The footer rule *)

Lemma run_all_app (round_cos round_sin : Q → Q → Z → Z) width cs1 cs2 :
  run_all round_cos round_sin width (cs1 ++ cs2)
  = run_all round_cos round_sin width cs1 ++ run_all round_cos round_sin width cs2.
Proof. apply bind_app. Qed.

(** X18: the footer rule is always whole.  On a canvas between 40
    and 10038 rows high, whatever the weather, the days and the time,
    every pixel of row [height - 40] between the margins is light
    gray in the buffer that [renderDisplay] returns: the rule is drawn
    after the agenda, so an overflow marker that reaches this row
    does not break it, and the timestamp is drawn below it.  (From
    10039 rows on the rule is not drawn: [drawHLine] clips at row
    9999.) *)
Theorem footer_rule_whole (round_cos round_sin : Q → Q → Z → Z) (width height : Z)
    (weather : WeatherData) (days : list DayEvents) (generatedAt : DateView) (x : Z) :
  40 ≤ height < 10039 → MARGIN ≤ x < width - MARGIN →
  ∃ pixels,
    renderDisplay round_cos round_sin width height weather days generatedAt = Some pixels
    ∧ pixels !! Z.to_nat ((height - 40) * width + x) = Some LIGHT_GRAY.
Proof.
  unfold MARGIN. intros Hh Hx.
  unfold renderDisplay, newUint8Array.
  rewrite (proj2 (Z.ltb_ge (width * height) 0)) by nia.
  cbn [mbind option_bind]. eexists. split; [reflexivity|].
  rewrite length_replicate.
  unfold render_writes, render_calls. rewrite !app_assoc, run_all_app, apply_writes_app.
  apply (apply_writes_lookup_unique _ _ _ LIGHT_GRAY).
  - apply list_elem_of_bind. eexists. split; [|apply list_elem_of_here].
    cbn [run]. unfold drawHLine. apply fillRect_elem_iff; unfold MARGIN; lia.
  - intros w (c & Hw & Hc)%list_elem_of_bind Hidx.
    unfold footer_calls in Hc. cbv zeta in Hc. elem_inv; subst c; cbn [run] in Hw.
    + by apply drawHLine_elem in Hw as (px & py & (-> & _) & _).
    + apply drawText_elem in Hw as (px & py & (-> & ? & ?) & ?). simpl in Hidx.
      apply cell_inj in Hidx as [-> Hrow]; lia.
  - rewrite apply_writes_length, length_replicate.
    pose proof (cell_in_range width height x (height - 40) ltac:(lia) ltac:(lia)). lia.
Qed.

Lemma footer_rule_whole_witness :
  ∃ pixels,
    renderDisplay sample_round_cos sample_round_sin 480 800 sample_weather
      [sample_busy_day; sample_next_day] sample_date = Some pixels
    ∧ pixels !! Z.to_nat ((800 - 40) * 480 + 30) = Some LIGHT_GRAY.
Proof.
  apply (footer_rule_whole sample_round_cos sample_round_sin 480 800 sample_weather
           [sample_busy_day; sample_next_day] sample_date 30); unfold MARGIN; lia.
Defined.

(** ** Grouping the calendar items by day *)

Lemma map_has_keys (m : date_map) key : map_has m key = true ↔ key ∈ map fst m.
Proof.
  induction m as [|[k v] m IH]; simpl.
  - split; [discriminate|by intros ?%elem_of_nil].
  - rewrite orb_true_iff, bool_decide_eq_true, IH, elem_of_cons.
    split; (intros [H|H]; [left|right]); done.
Qed.

Lemma map_push_keys (m : date_map) key event : map fst (map_push m key event) = map fst m.
Proof.
  induction m as [|[k [d evs]] m IH]; simpl; [done|].
  case_bool_decide; simpl; [done|by rewrite IH].
Qed.

(** With distinct keys, [push] changes the entry of [key] and no other. *)
Lemma map_push_elem (m : date_map) key event k d evs :
  NoDup (map fst m) →
  (k, (d, evs)) ∈ map_push m key event
  ↔ (k ≠ key ∧ (k, (d, evs)) ∈ m)
    ∨ (k = key ∧ ∃ evs0, (k, (d, evs0)) ∈ m ∧ evs = evs0 ++ [event]).
Proof.
  induction m as [|[k' [d' evs']] m IH]; simpl; intros Hnd.
  - split.
    + by intros ?%elem_of_nil.
    + intros [[_ ?%elem_of_nil] | [_ (evs0 & ?%elem_of_nil & _)]]; done.
  - apply list.NoDup_cons in Hnd as [Hk' Hnd]. specialize (IH Hnd).
    assert (Hfresh : ∀ v, (k', v) ∈ m → False).
    { intros v Hv. apply Hk'. apply list_elem_of_fmap. by exists (k', v). }
    case_bool_decide as Hkey.
    + subst k'. rewrite !elem_of_cons. split.
      * intros [Heq | Hin].
        -- injection Heq as -> -> ->.
           right. split; [done|]. exists evs'. split; [by left|done].
        -- left. split; [|by right]. intros ->. by eapply Hfresh.
      * intros [[Hne [Heq | Hin]] | [-> (evs0 & [Heq | Hin]%elem_of_cons & ->)]].
        -- by injection Heq as -> _ _.
        -- by right.
        -- injection Heq as -> ->. by left.
        -- exfalso. by eapply Hfresh.
    + rewrite !elem_of_cons, IH. split.
      * intros [Heq | [[Hne Hin] | [-> (evs0 & Hin & ->)]]].
        -- injection Heq as -> -> ->. left. split; [done|by left].
        -- left. split; [done|by right].
        -- right. split; [done|]. exists evs0.
           split; [by apply list_elem_of_further|done].
      * intros [[Hne [Heq | Hin]] | [-> (evs0 & [Heq | Hin]%elem_of_cons & ->)]].
        -- by left.
        -- right. left. done.
        -- by injection Heq as <- _ _.
        -- right. right. split; [done|]. by exists evs0.
Qed.

(** The sort of the days. *)

Lemma insert_day_perm d l : insert_day d l ≡ₚ d :: l.
Proof.
  induction l as [|e l IH]; simpl; [done|].
  case_match; [done|]. rewrite IH. apply Permutation_swap.
Qed.

Lemma sort_days_perm l : sort_days l ≡ₚ l.
Proof.
  induction l as [|d l IH]; simpl; [done|].
  by rewrite insert_day_perm, IH.
Qed.

Lemma insert_day_sorted d l :
  StronglySorted (fun a b => date a ≤ date b) l →
  StronglySorted (fun a b => date a ≤ date b) (insert_day d l).
Proof.
  induction l as [|e l IH]; simpl; intros Hl.
  - repeat constructor.
  - apply StronglySorted_inv in Hl as [Hl He].
    destruct (Z.leb_spec (date d) (date e)) as [Hle|Hgt].
    + constructor; [by constructor|].
      constructor; [done|]. eapply list.Forall_impl; [exact He|]. simpl. lia.
    + constructor; [by apply IH|].
      rewrite insert_day_perm. constructor; [lia|done].
Qed.

Lemma sort_days_sorted l : StronglySorted (fun a b => date a ≤ date b) (sort_days l).
Proof.
  induction l as [|d l IH]; simpl; [constructor|by apply insert_day_sorted].
Qed.

(** Days with distinct dates are sorted strictly. *)
Lemma sorted_strict l :
  StronglySorted (fun a b => date a ≤ date b) l → NoDup (map date l) →
  StronglySorted (fun a b => date a < date b) l.
Proof.
  induction l as [|d l IH]; simpl; intros Hl Hnd; [constructor|].
  apply StronglySorted_inv in Hl as [Hl Hd].
  apply list.NoDup_cons in Hnd as [Hfresh Hnd].
  constructor; [by apply IH|].
  apply list.Forall_forall. intros e He.
  pose proof (proj1 (list.Forall_forall _ _) Hd e He) as Hle. simpl in Hle.
  assert (date e ≠ date d); [|lia].
  intros Heq. apply Hfresh. rewrite <- Heq. apply list_elem_of_fmap. by exists e.
Qed.

Section CalendarFacts.

Context (newDate : jsstring → Z) (toDateString : Z → jsstring)
        (dayOfWeek : Z → Z) (localeTime : Z → jsstring).

Local Abbreviation startOf := (item_start newDate).
Local Abbreviation eventOf := (item_event newDate localeTime).
Local Abbreviation keyOf := (fun item => toDateString (item_start newDate item)).
Local Abbreviation eventsOn := (events_on newDate toDateString localeTime).
Local Abbreviation isGrouped := (grouped newDate toDateString localeTime).
Local Abbreviation groupStep := (group_step newDate toDateString localeTime).
Local Abbreviation groupItems := (group_items newDate toDateString localeTime).

Lemma events_on_snoc key items item :
  eventsOn key (items ++ [item])
  = eventsOn key items ++ (if decide (keyOf item = key) then [eventOf item] else []).
Proof.
  unfold events_on. rewrite list.filter_app, fmap_app. f_equal.
  rewrite filter_cons, filter_nil. by case_decide.
Qed.

Lemma grouped_step m items item :
  isGrouped m items → isGrouped (groupStep m item) (items ++ [item]).
Proof.
  intros (Hnd & Hentries & Hkeys). unfold group_step. cbv zeta.
  set (key := keyOf item).
  set (m' := if map_has m key then m else m ++ [(key, (startOf item, []))]).
  assert (Hnd' : NoDup (map fst m')).
  { subst m'. destruct (map_has m key) eqn:Hhas; [done|].
    rewrite map_app. apply list.NoDup_app. split; [done|]. split.
    - intros k Hk Hx. apply list_elem_of_singleton in Hx. subst k.
      apply map_has_keys in Hk. simpl in Hk. congruence.
    - apply NoDup_singleton. }
  assert (Hkey' : key ∈ map fst m').
  { subst m'. destruct (map_has m key) eqn:Hhas; [by apply map_has_keys|].
    rewrite map_app. apply elem_of_app. right. apply list_elem_of_here. }
  split; [by rewrite map_push_keys|]. split.
  - intros k d evs Hin. apply map_push_elem in Hin; [|done].
    rewrite events_on_snoc.
    destruct Hin as [[Hne Hin] | [-> (evs0 & Hin & ->)]].
    + rewrite decide_False by (fold key; congruence). rewrite app_nil_r.
      apply Hentries. subst m'. destruct (map_has m key); [done|].
      apply elem_of_app in Hin as [Hin|Hin%list_elem_of_singleton]; [done|].
      congruence.
    + rewrite decide_True by done.
      subst m'. destruct (map_has m key) eqn:Hhas.
      * destruct (Hentries _ _ _ Hin) as (-> & Hne & Hd).
        split; [done|]. split; [|done]. by intros [? _]%app_eq_nil.
      * apply elem_of_app in Hin as [Hin|Hin%list_elem_of_singleton].
        -- exfalso. assert (Hk : key ∈ map fst m).
           { apply list_elem_of_fmap. by exists (key, (d, evs0)). }
           apply map_has_keys in Hk. congruence.
        -- injection Hin as -> ->. split; [|done].
           assert (Hnone : eventsOn key items = []); [|by rewrite Hnone].
           unfold events_on.
           destruct (filter _ items) as [|it rest] eqn:Hf; [done|]. exfalso.
           assert (Hit : it ∈ filter (fun item => keyOf item = key) items)
             by (rewrite Hf; apply list_elem_of_here).
           apply list_elem_of_filter in Hit as [Hitk Hit].
           apply Hkeys in Hit. rewrite Hitk in Hit.
           apply map_has_keys in Hit. congruence.
  - intros it [Hit | Hit%list_elem_of_singleton]%elem_of_app; rewrite map_push_keys.
    + apply Hkeys in Hit. subst m'. destruct (map_has m key); [done|].
      rewrite map_app. apply elem_of_app. by left.
    + by subst it.
Qed.

Lemma grouped_fold items m pre :
  isGrouped m pre → isGrouped (fold_left groupStep items m) (pre ++ items).
Proof.
  revert m pre. induction items as [|item items IH]; intros m pre Hm; simpl.
  - by rewrite app_nil_r.
  - replace (pre ++ item :: items) with ((pre ++ [item]) ++ items)
      by (by rewrite <- app_assoc).
    apply IH. by apply grouped_step.
Qed.

Lemma group_items_grouped items : isGrouped (groupItems items) items.
Proof.
  apply (grouped_fold items [] []). split; [constructor|]. split.
  - by intros k d evs ?%elem_of_nil.
  - by intros item ?%elem_of_nil.
Qed.

Local Abbreviation labelledDays := (labelled_days toDateString dayOfWeek).
Local Abbreviation calendar := (calendarDays newDate toDateString dayOfWeek localeTime).

Lemma labelled_days_elem m todayDate tomorrowDate day :
  day ∈ labelledDays m todayDate tomorrowDate
  ↔ ∃ k d evs, (k, (d, evs)) ∈ m
      ∧ day = {| label := getDayLabel toDateString dayOfWeek d todayDate tomorrowDate;
                 date := d; events := evs |}.
Proof.
  unfold labelled_days. rewrite list_elem_of_fmap. split.
  - intros ([k [d evs]] & -> & Hin). by exists k, d, evs.
  - intros (k & d & evs & Hin & ->). by exists (k, (d, evs)).
Qed.

(** Two days of the map never share a date. *)
Lemma labelled_days_dates m items todayDate tomorrowDate :
  isGrouped m items → NoDup (map date (labelledDays m todayDate tomorrowDate)).
Proof.
  intros (Hnd & Hentries & _). unfold labelled_days. rewrite map_map. simpl.
  assert (Hdates : ∀ k d evs, (k, (d, evs)) ∈ m → toDateString d = k)
    by (intros k d evs Hin; by apply Hentries in Hin as (_ & _ & ?)).
  clear Hentries. induction m as [|[k [d evs]] m IH]; simpl; [constructor|].
  apply list.NoDup_cons in Hnd as [Hfresh Hnd].
  apply list.NoDup_cons. split.
  - intros ([k' [d' evs']] & Hd & Hin)%list_elem_of_fmap. simpl in Hd. subst d'.
    apply Hfresh.
    rewrite <- (Hdates k d evs) by apply list_elem_of_here.
    rewrite (Hdates k' d evs') by (by apply list_elem_of_further).
    apply list_elem_of_fmap. by exists (k', (d, evs')).
  - apply IH; [done|]. intros k' d' evs' Hin.
    apply (Hdates k' d' evs'). by apply list_elem_of_further.
Qed.

(** The days before the test for today: the entries of the map,
    labelled, sorted strictly by date. *)
Lemma sorted_days_spec items todayDate tomorrowDate :
  let days := sort_days (labelledDays (groupItems items) todayDate tomorrowDate) in
  StronglySorted (fun a b => date a < date b) days
  ∧ (∀ day, day ∈ days →
       events day = eventsOn (toDateString (date day)) items
       ∧ events day ≠ []
       ∧ label day = getDayLabel toDateString dayOfWeek (date day) todayDate tomorrowDate)
  ∧ (∀ item, item ∈ items →
       ∃ day, day ∈ days ∧ toDateString (date day) = keyOf item
              ∧ eventOf item ∈ events day).
Proof.
  intros days. pose proof (group_items_grouped items) as Hg.
  pose proof Hg as (Hnd & Hentries & Hkeys).
  split; [|split].
  - apply sorted_strict; [apply sort_days_sorted|].
    subst days. rewrite sort_days_perm. by apply labelled_days_dates with (items := items).
  - intros day Hday. subst days. rewrite sort_days_perm in Hday.
    apply labelled_days_elem in Hday as (k & d & evs & Hin & ->). simpl.
    apply Hentries in Hin as (-> & Hne & <-). done.
  - intros item Hitem. pose proof (Hkeys item Hitem) as Hk.
    apply list_elem_of_fmap in Hk as ([k [d evs]] & Hkey & Hin). simpl in Hkey. subst k.
    exists {| label := getDayLabel toDateString dayOfWeek d todayDate tomorrowDate;
              date := d; events := evs |}.
    split; [|split].
    + subst days. rewrite sort_days_perm. apply labelled_days_elem. eauto.
    + simpl. by apply Hentries in Hin as (_ & _ & ->).
    + simpl. apply Hentries in Hin as (-> & _ & _).
      unfold events_on. apply list_elem_of_fmap. exists item. split; [done|].
      by apply list_elem_of_filter.
Qed.

(** X19: grouping by day.  Every day that [fetchCalendarEvents]
    builds from a response is either the empty TODAY that it puts in
    front, or holds exactly the events of the items that start on
    that day, in the order of the response, at least one, under the
    label that [getDayLabel] gives its date; and every item of the
    response has its event in the day on which it starts.  No event
    is lost, doubled or moved to another day. *)
Theorem calendar_days_grouping (items : list CalendarItem) (nowLocal : Z) :
  (∀ day, day ∈ calendar items nowLocal →
     day = empty_today nowLocal
     ∨ (events day = eventsOn (toDateString (date day)) items
        ∧ events day ≠ []
        ∧ label day = getDayLabel toDateString dayOfWeek (date day)
                        (toDateString nowLocal) (toDateString (nowLocal + 86400000))))
  ∧ (∀ item, item ∈ items →
       ∃ day, day ∈ calendar items nowLocal
              ∧ toDateString (date day) = toDateString (startOf item)
              ∧ eventOf item ∈ events day).
Proof.
  destruct (sorted_days_spec items (toDateString nowLocal)
              (toDateString (nowLocal + 86400000))) as (_ & Hdays & Hitems).
  unfold calendarDays. cbv zeta.
  set (days := sort_days _) in *. clearbody days.
  split.
  - intros day Hday.
    destruct days as [|first rest]; [left; by apply list_elem_of_singleton in Hday|].
    case_bool_decide.
    + apply elem_of_cons in Hday as [->|Hday]; [by left|right; by apply Hdays].
    + right. by apply Hdays.
  - intros item Hitem. destruct (Hitems item Hitem) as (day & Hday & Hkey & Hev).
    exists day. split; [|done].
    destruct days as [|first rest]; [by apply elem_of_nil in Hday|].
    case_bool_decide; [by apply list_elem_of_further|done].
Qed.

(** X20: the order of the days.  The days that [fetchCalendarEvents]
    builds from a response are in strictly increasing order of date,
    no two on the same date, behind an empty TODAY that is put in
    front exactly when there is no day or the earliest day is not
    labelled TODAY.  So the list is never empty and its first day is
    labelled TODAY: this also holds for the mock days that are
    returned without a calendar or after an error. *)
Theorem calendar_days_order (items : list CalendarItem) (nowLocal : Z) :
  (∃ days,
     StronglySorted (fun a b => date a < date b) days
     ∧ calendar items nowLocal
       = (if decide (head (label <$> days) = Some (js "TODAY")) then days
          else empty_today nowLocal :: days))
  ∧ ∀ env response now,
      ∃ first rest,
        fetchCalendarEvents newDate toDateString dayOfWeek localeTime env response
          now nowLocal = first :: rest
        ∧ label first = js "TODAY".
Proof.
  assert (Horder : ∀ items',
    ∃ days,
     StronglySorted (fun a b => date a < date b) days
     ∧ calendar items' nowLocal
       = (if decide (head (label <$> days) = Some (js "TODAY")) then days
          else empty_today nowLocal :: days)).
  { intros items'.
    destruct (sorted_days_spec items' (toDateString nowLocal)
                (toDateString (nowLocal + 86400000))) as (Hsorted & _ & _).
    unfold calendarDays. cbv zeta.
    set (days := sort_days _) in *. clearbody days.
    exists days. split; [done|].
    destruct days as [|first rest]; simpl; [done|].
    case_bool_decide as Hlabel.
    - rewrite decide_False; [done|]. by intros [= ?].
    - rewrite decide_True; [done|]. f_equal.
      by destruct (decide (label first = js "TODAY")). }
  split; [apply Horder|].
  intros env response now. unfold fetchCalendarEvents.
  assert (Hmock : ∃ first rest, getMockEvents now = first :: rest
                                ∧ label first = js "TODAY")
    by (eexists _, _; split; reflexivity).
  destruct (_ || _); [done|]. destruct response as [items'|]; [|done].
  destruct (Horder (default [] items')) as (days & _ & ->).
  case_decide as Hhead.
  - destruct days as [|first rest]; [discriminate|].
    injection Hhead as Hhead. eauto.
  - eexists _, _. split; reflexivity.
Qed.

End CalendarFacts.

(** ** Decimal dimensions *)

(** X21: decimal dimensions are read back.  [parseInt] of the
    decimal text of an integer [n] is the double nearest to [n]: [n]
    itself when [n] has at most 53 bits, a rounded integer or an
    infinity beyond.  So a [DISPLAY_WIDTH] or [DISPLAY_HEIGHT] that
    holds the decimal text of such an [n] gives the dimension [n],
    except for [n = 0], which falls back to the default. *)
Theorem parseInt_numToString (n : Z) :
  parseInt (Some (numToString n)) = toNumber n
  ∧ (- 2 ^ 53 < n < 2 ^ 53 →
     parseInt (Some (numToString n)) = Int n
     ∧ ∀ env,
         (DISPLAY_WIDTH env = Some (numToString n) →
          display_width env = Int (if n =? 0 then 480 else n))
         ∧ (DISPLAY_HEIGHT env = Some (numToString n) →
            display_height env = Int (if n =? 0 then 800 else n)))
  ∧ toNumber (2 ^ 53 + 1) = Int (2 ^ 53)
  ∧ toNumber (2 ^ 53 + 3) = Int (2 ^ 53 + 4)
  ∧ toNumber (- 10 ^ 309) = Infinity true.
Proof.
  pose proof (parseInt_text n) as Hparse.
  split; [done|]. split; [|by vm_compute].
  intros Hn. rewrite toNumber_safe in Hparse by done.
  split; [done|]. intros env. unfold display_width, display_height.
  split; intros ->; rewrite Hparse; simpl; by destruct (Z.eqb_spec n 0).
Qed.

(** ** What the days cannot change *)

Lemma store_lookup_agree a b idx v (j : nat) :
  length a = length b → a !! j = b !! j → store a idx v !! j = store b idx v !! j.
Proof.
  intros Hlen Hj. destruct (decide (idx = Z.of_nat j)) as [->|Hne].
  - unfold store. rewrite Hlen. case_match; [|done]. guards.
    rewrite Nat2Z.id, !list_lookup_insert_eq by lia. done.
  - by rewrite !store_lookup_ne.
Qed.

Lemma apply_writes_lookup_agree ws a b (j : nat) :
  length a = length b → a !! j = b !! j → apply_writes a ws !! j = apply_writes b ws !! j.
Proof.
  revert a b. induction ws as [|w ws IH]; intros a b Hlen Hj; [done|].
  rewrite !apply_writes_cons. apply IH.
  - by rewrite !store_length.
  - by apply store_lookup_agree.
Qed.

(** Stores that do not address [j] can be left out. *)
Lemma apply_writes_skip a pre mid post (j : nat) :
  (∀ w, w ∈ mid → fst w ≠ Z.of_nat j) →
  apply_writes a (pre ++ mid ++ post) !! j = apply_writes a (pre ++ post) !! j.
Proof.
  intros Hmid. rewrite !apply_writes_app. apply apply_writes_lookup_agree.
  - by rewrite !apply_writes_length.
  - by apply apply_writes_lookup_other.
Qed.

(** X22: what the days cannot change.  With the same weather and
    time, two renders agree, whatever their days, on every pixel above
    row 270 (the weather band and the date header) and on every pixel
    from row [height - 19] down: the agenda never paints there, on a
    canvas of any size. *)
Theorem agenda_frame (round_cos round_sin : Q → Q → Z → Z) (width height : Z)
    (weather : WeatherData) (days1 days2 : list DayEvents) (generatedAt : DateView)
    (x y : Z) :
  0 ≤ x < width → y < dateSectionEnd + 20 ∨ height - 19 ≤ y →
  match renderDisplay round_cos round_sin width height weather days1 generatedAt,
        renderDisplay round_cos round_sin width height weather days2 generatedAt with
  | Some pixels1, Some pixels2 =>
      load pixels1 (y * width + x) = load pixels2 (y * width + x)
  | None, None => True
  | _, _ => False
  end.
Proof.
  intros Hx Hy. unfold renderDisplay, newUint8Array.
  destruct (width * height <? 0); simpl; [done|].
  unfold load. case_match; [|done]. guards.
  unfold render_writes, render_calls.
  set (upper := weather_calls weather ++ [weather_rule width] ++ date_calls width generatedAt).
  assert (Hsplit : ∀ days,
    run_all round_cos round_sin width
      (weather_calls weather ++ [weather_rule width] ++ date_calls width generatedAt
       ++ agenda_calls width height days ++ footer_calls width height generatedAt)
    = run_all round_cos round_sin width upper
      ++ run_all round_cos round_sin width (agenda_calls width height days)
      ++ run_all round_cos round_sin width (footer_calls width height generatedAt)).
  { intros days. subst upper. by rewrite !run_all_app, <- !app_assoc. }
  rewrite !Hsplit, !apply_writes_skip; [done|..];
    intros w (px & py & Hidx & Hpx & Hpy)%agenda_stores; rewrite Hidx, Z2Nat.id by lia;
    intros Heq; apply cell_inj in Heq as [-> ->]; lia.
Qed.

Lemma agenda_frame_witness :
  match renderDisplay sample_round_cos sample_round_sin 480 800 sample_weather
          [sample_busy_day] sample_date,
        renderDisplay sample_round_cos sample_round_sin 480 800 sample_weather
          [] sample_date with
  | Some pixels1, Some pixels2 =>
      load pixels1 (100 * 480 + 50) = load pixels2 (100 * 480 + 50)
  | None, None => True
  | _, _ => False
  end.
Proof.
  apply (agenda_frame sample_round_cos sample_round_sin 480 800 sample_weather
           [sample_busy_day] [] sample_date 50 100); [lia|].
  left. unfold dateSectionEnd, weatherSectionHeight. lia.
Defined.

(** ** The footprint of the icons and the layout of the weather band *)

(** Name a rounded coordinate of the goal or the context and keep its
    integer bounds; [Hcos] and [Hsin] are the bounds assumed of the
    roundings. *)
Ltac round_name f Hf c r a :=
  let H := fresh "Hround" in
  let v := fresh "v" in
  lazymatch c with
  | (inject_Z ?x + ?q)%Q =>
      pose proof (round_bound_Z f x q r a Hf ltac:(by vm_compute)) as H;
      let lo := eval vm_compute in (Qceiling (q - r - 1)) in
      let hi := eval vm_compute in (Qfloor (q + r + 1)) in
      change (Qceiling (q - r - 1)) with lo in H;
      change (Qfloor (q + r + 1)) with hi in H
  | inject_Z ?x =>
      pose proof (round_bound_Z0 f x r a Hf ltac:(by vm_compute)) as H;
      let lo := eval vm_compute in (Qceiling (0 - r - 1)) in
      let hi := eval vm_compute in (Qfloor (0 + r + 1)) in
      change (Qceiling (0 - r - 1)) with lo in H;
      change (Qfloor (0 + r + 1)) with hi in H
  end;
  set (v := f c r a) in *; clearbody v.

Ltac round_bounds rcos Hcos rsin Hsin :=
  repeat match goal with
  | |- context [rcos ?c ?r ?a] => round_name rcos Hcos c r a
  | |- context [rsin ?c ?r ?a] => round_name rsin Hsin c r a
  | H : context [rcos ?c ?r ?a] |- _ => round_name rcos Hcos c r a
  | H : context [rsin ?c ?r ?a] |- _ => round_name rsin Hsin c r a
  end.

Section IconFootprint.

Context (round_cos round_sin : Q → Q → Z → Z).

Hypothesis round_cos_bound : ∀ c r deg,
  (0 <= r)%Q → (c - r - 1 <= inject_Z (round_cos c r deg) <= c + r + 1)%Q.
Hypothesis round_sin_bound : ∀ c r deg,
  (0 <= r)%Q → (c - r - 1 <= inject_Z (round_sin c r deg) <= c + r + 1)%Q.

Lemma drawCloudShape_box width x y h w :
  h = 16 ∨ h = 20 →
  w ∈ drawCloudShape round_cos round_sin width x y 32 h →
  ∃ px py, fst w = py * width + px ∧ x + 1 ≤ px ≤ x + 33 ∧ y - 5 ≤ py ≤ y + 20.
Proof.
  unfold drawCloudShape. cbv zeta. intros Hh Hw.
  apply elem_of_app in Hw as [Hw|Hw].
  - destruct Hh as [-> | ->];
      elem_inv; guards; subst w; simpl fst;
      round_bounds round_cos round_cos_bound round_sin round_sin_bound;
      eexists _, _; (split; [reflexivity|]); lia.
  - apply drawHLine_elem in Hw as (px & py & (-> & Hpx & Hpy) & Hcol & Hrow & _).
    exists px, py. split; [done|].
    rewrite !jsRound_offset in Hcol. rewrite jsRound_offset in Hrow.
    destruct Hh as [-> | ->]; vm_compute jsRound in Hrow; vm_compute jsRound in Hcol; lia.
Qed.

Lemma sunIcon_box width x y w :
  w ∈ sunIcon round_cos round_sin width x y →
  ∃ px py, fst w = py * width + px ∧ x - 1 ≤ px ≤ x + 49 ∧ y - 1 ≤ py ≤ y + 49.
Proof.
  unfold sunIcon. cbv zeta. intros Hw.
  apply elem_of_app in Hw as [Hw|Hw].
  - elem_inv; guards; subst w; simpl fst;
      round_bounds round_cos round_cos_bound round_sin round_sin_bound.
    eexists _, _. split; [reflexivity|]. lia.
  - elem_inv; guards; subst w; simpl fst.
    eexists _, _. split; [reflexivity|].
    round_bounds round_cos round_cos_bound round_sin round_sin_bound.
    split; apply roundTenths_between; lia.
Qed.

(** The codes that draw the sun. *)
Lemma icon_sun_codes code : icon_for_code code = Sun ↔ code = 0 ∨ code = 1.
Proof.
  assert (Hcases :
    code < 0 ∨ code = 0 ∨ code = 1 ∨ 2 ≤ code ≤ 3 ∨ 4 ≤ code ≤ 44 ∨ 45 ≤ code ≤ 48
    ∨ 49 ≤ code ≤ 50 ∨ 51 ≤ code ≤ 67 ∨ 68 ≤ code ≤ 70 ∨ 71 ≤ code ≤ 77
    ∨ 78 ≤ code ≤ 79 ∨ 80 ≤ code ≤ 82 ∨ 83 ≤ code ≤ 84 ∨ 85 ≤ code ≤ 86
    ∨ 87 ≤ code ≤ 94 ∨ 95 ≤ code) by lia.
  unfold icon_for_code, icon_table. cbn [lookup_icon in_range snd].
  repeat (destruct Hcases as [Hc | Hcases]);
    try rename Hcases into Hc;
    decide_cmp; cbn [andb orb]; (split; [intros Hi; (discriminate || lia)|]);
    (reflexivity || lia).
Qed.

Lemma drawWeatherIcon_sun width x y code :
  code = 0 ∨ code = 1 →
  drawWeatherIcon round_cos round_sin width x y code
  = sunIcon round_cos round_sin width x y.
Proof. unfold drawWeatherIcon. intros [-> | ->]; reflexivity. Qed.

(** Every icon but the sun keeps four columns or more off the sides
    of its cell. *)
Lemma drawWeatherIcon_inner (width x y code : Z) (w : write) :
  ¬ (code = 0 ∨ code = 1) →
  w ∈ drawWeatherIcon round_cos round_sin width x y code →
  ∃ px py, fst w = py * width + px ∧ x + 4 ≤ px ≤ x + 43 ∧ y - 1 ≤ py ≤ y + 49.
Proof.
  intros Hcode Hw.
  unfold drawWeatherIcon, cloudIcon, fogIcon, rainIcon, snowIcon,
    thunderstormIcon in Hw.
  rewrite (proj2 (Z.eqb_neq code 0)), (proj2 (Z.eqb_neq code 1)) in Hw by lia.
  cbn [orb] in Hw.
  repeat case_match.
  - apply drawCloudShape_box in Hw as (px & py & ? & ? & ?); [|by right].
    exists px, py. split; [done|]. lia.
  - apply list_elem_of_bind in Hw as (i & Hw & Hi%elem_of_seqZ).
    apply drawHLine_elem in Hw as (px & py & (-> & ? & ?) & ? & ? & _).
    exists px, py. split; [done|]. lia.
  - apply elem_of_app in Hw as [Hw|Hw].
    + apply drawCloudShape_box in Hw as (px & py & ? & ? & ?); [|by left].
      exists px, py. split; [done|]. lia.
    + elem_inv. subst w. eexists _, _. split; [reflexivity|]. lia.
  - apply elem_of_app in Hw as [Hw|Hw].
    + apply drawCloudShape_box in Hw as (px & py & ? & ? & ?); [|by left].
      exists px, py. split; [done|]. lia.
    + apply list_elem_of_bind in Hw as (i & Hw & Hi%elem_of_seqZ).
      set (sx := x + 14 + i * 10) in *. set (sy := y + 36) in *.
      elem_inv; subst w; simpl fst.
      * exists sx, sy. subst sx sy. lia.
      * exists sx, (sy - 2). subst sx sy. lia.
      * exists sx, (sy + 2). subst sx sy. lia.
      * exists (sx - 2), sy. subst sx sy. lia.
      * exists (sx + 2), sy. subst sx sy. lia.
  - apply elem_of_app in Hw as [Hw|Hw].
    + apply drawCloudShape_box in Hw as (px & py & ? & ? & ?); [|by left].
      exists px, py. split; [done|]. lia.
    + cbv zeta in Hw.
      apply list_elem_of_bind in Hw as (i & Hw & Hi%elem_of_seqZ).
      set (px := x + 24 + (if i <? 6 then - i else i - 12)) in *.
      assert (x + 18 ≤ px ≤ x + 24) by (subst px; case_match; guards; lia).
      clearbody px. set (py := y + 24 + i * 2) in *.
      elem_inv; subst w; simpl fst.
      * exists px, py. subst py. lia.
      * exists (px + 1), py. subst py. lia.
  - rewrite unknownIcon_empty in Hw. by apply elem_of_nil in Hw.
Qed.

(** X23: the footprint of the icons.  With roundings that stay within
    one of the exact cosine and sine, on a canvas whose columns hold
    the square of 51 x 51 pixels from [(x - 1, y - 1)] to
    [(x + 49, y + 49)], every store of [drawWeatherIcon] at [(x, y)]
    goes to a row and a column of that square, whatever the code;
    only the rays of the sun reach its border, every other icon stays
    within the columns [x + 4 .. x + 43].  (The marks of rain, snow
    and lightning are stored without a test of their column: on a
    narrower canvas they continue in another row.) *)
Theorem icon_footprint (width x y code : Z) (w : write) :
  1 ≤ x → x + 49 < width →
  w ∈ drawWeatherIcon round_cos round_sin width x y code →
  x - 1 ≤ fst w mod width ≤ x + 49
  ∧ y - 1 ≤ fst w / width ≤ y + 49
  ∧ (icon_for_code code ≠ Sun → x + 4 ≤ fst w mod width ≤ x + 43).
Proof.
  intros Hx Hwidth Hw. destruct (decide (code = 0 ∨ code = 1)) as [Hsun|Hother].
  - rewrite drawWeatherIcon_sun in Hw by done.
    apply sunIcon_box in Hw as (px & py & -> & Hpx & Hpy).
    destruct (cell_div_mod width px py ltac:(lia)) as [-> ->].
    split; [done|]. split; [done|].
    intros Hne. exfalso. by apply Hne, icon_sun_codes.
  - apply drawWeatherIcon_inner in Hw as (px & py & -> & Hpx & Hpy); [|done].
    destruct (cell_div_mod width px py ltac:(lia)) as [-> ->].
    split; [lia|]. split; [done|]. intros _. lia.
Qed.

End IconFootprint.

Lemma icon_footprint_witness :
  let w := (32 * 480 + 244, DARK_GRAY) in
  240 - 1 ≤ fst w mod 480 ≤ 240 + 49
  ∧ 20 - 1 ≤ fst w / 480 ≤ 20 + 49
  ∧ (icon_for_code 45 ≠ Sun → 240 + 4 ≤ fst w mod 480 ≤ 240 + 43).
Proof.
  intros w.
  apply (icon_footprint sample_round_cos sample_round_sin
           sample_round_cos_bound sample_round_sin_bound 480 240 20 45); [lia..|].
  apply elem_of_check. vm_compute. reflexivity.
Defined.

Lemma numToString_short (n : Z) : -9 ≤ n ≤ 99 → (length (numToString n) ≤ 2)%nat.
Proof.
  intros Hn.
  assert (Hall : forallb (fun n => (length (numToString n) <=? 2)%nat) (seqZ (-9) 109)
                 = true) by (vm_compute; reflexivity).
  assert (Hin : In n (seqZ (-9) 109)) by (apply list_elem_of_In, elem_of_seqZ; lia).
  apply (proj1 (forallb_forall _ _) Hall) in Hin. by apply Nat.leb_le.
Qed.

Section WeatherBand.

Context (round_cos round_sin : Q → Q → Z → Z).

Hypothesis round_cos_bound : ∀ c r deg,
  (0 <= r)%Q → (c - r - 1 <= inject_Z (round_cos c r deg) <= c + r + 1)%Q.
Hypothesis round_sin_bound : ∀ c r deg,
  (0 <= r)%Q → (c - r - 1 <= inject_Z (round_sin c r deg) <= c + r + 1)%Q.

(** X24: the layout of the weather band.  The band is drawn by the
    temperature and the degree sign, then the icon, then the location,
    the condition and the high/low line.  On a canvas at least 290
    columns wide and for a temperature of one or two characters (-9 to
    99 degrees) the three groups keep to separate columns:
    temperature and degree sign within the columns 24 to 215, the icon
    within 239 to 289, the three lines of text from column 296 on; all
    of it lies in the rows 19 to 109, above the rule of the band at
    row 180. *)
Theorem weather_band_layout (width : Z) (weather : WeatherData) :
  290 ≤ width →
  -9 ≤ temperature weather ≤ 99 →
  ∃ left icon right,
    weather_calls weather = left ++ [icon] ++ right
    ∧ length left = 2%nat ∧ length right = 3%nat
    ∧ (∀ w, w ∈ run_all round_cos round_sin width left →
            24 ≤ fst w mod width < 216 ∧ 19 ≤ fst w / width < 110)
    ∧ (∀ w, w ∈ run round_cos round_sin width icon →
            239 ≤ fst w mod width ≤ 289 ∧ 19 ≤ fst w / width < 110)
    ∧ (∀ w, w ∈ run_all round_cos round_sin width right →
            296 ≤ fst w mod width < width ∧ 19 ≤ fst w / width < 110).
Proof.
  intros Hwidth Htemp. apply numToString_short in Htemp.
  unfold weather_calls, MARGIN. cbv zeta.
  eexists [_; _], _, [_; _; _]. split; [reflexivity|].
  split; [done|]. split; [done|].
  pose proof (code_points_length (numToString (temperature weather))) as Hcp.
  split; [|split].
  - intros w (c & Hw & Hc)%list_elem_of_bind. elem_inv; subst c; cbn [run] in Hw.
    + apply drawText_loop_elem in Hw as (px & py & (-> & Hcol & _) & Hpx & Hpy).
      cbn [fst]. destruct (cell_div_mod width px py Hcol) as [-> ->]. lia.
    + apply drawText_loop_elem in Hw as (px & py & (-> & Hcol & _) & Hpx & Hpy).
      cbn [fst]. destruct (cell_div_mod width px py Hcol) as [-> ->].
      unfold getTextWidth in Hpx. simpl length in Hpx. lia.
  - cbn [run]. intros w Hw.
    destruct (decide (conditionCode weather = 0 ∨ conditionCode weather = 1))
      as [Hsun|Hother].
    + rewrite drawWeatherIcon_sun in Hw by done.
      apply (sunIcon_box round_cos round_sin round_cos_bound round_sin_bound) in Hw
        as (px & py & -> & Hpx & Hpy).
      destruct (cell_div_mod width px py ltac:(lia)) as [-> ->]. lia.
    + apply (drawWeatherIcon_inner round_cos round_sin round_cos_bound round_sin_bound)
        in Hw as (px & py & -> & Hpx & Hpy); [|done].
      destruct (cell_div_mod width px py ltac:(lia)) as [-> ->]. lia.
  - intros w (c & Hw & Hc)%list_elem_of_bind. elem_inv; subst c; cbn [run] in Hw;
      apply drawText_loop_elem in Hw as (px & py & (-> & Hcol & _) & Hpx & Hpy);
      cbn [fst]; destruct (cell_div_mod width px py Hcol) as [-> ->]; lia.
Qed.

End WeatherBand.

Lemma weather_band_layout_witness :
  ∃ left icon right,
    weather_calls sample_weather = left ++ [icon] ++ right
    ∧ length left = 2%nat ∧ length right = 3%nat
    ∧ (∀ w, w ∈ run_all sample_round_cos sample_round_sin 480 left →
            24 ≤ fst w mod 480 < 216 ∧ 19 ≤ fst w / 480 < 110)
    ∧ (∀ w, w ∈ run sample_round_cos sample_round_sin 480 icon →
            239 ≤ fst w mod 480 ≤ 289 ∧ 19 ≤ fst w / 480 < 110)
    ∧ (∀ w, w ∈ run_all sample_round_cos sample_round_sin 480 right →
            296 ≤ fst w mod 480 < 480 ∧ 19 ≤ fst w / 480 < 110).
Proof.
  apply (weather_band_layout sample_round_cos sample_round_sin
           sample_round_cos_bound sample_round_sin_bound 480 sample_weather).
  - lia.
  - by vm_compute.
Defined.

(** ** The rules of the weather band and the date header *)

(** The value at [j] after a render is decided by the last call that
    addresses it. *)
Lemma apply_writes_last a pre ws post j v :
  (j, v) ∈ ws → (∀ w, w ∈ ws → fst w = j → snd w = v) →
  (∀ w, w ∈ post → fst w ≠ j) →
  0 ≤ j < Z.of_nat (length a) →
  apply_writes a (pre ++ ws ++ post) !! Z.to_nat j = Some (v mod 256).
Proof.
  intros Hin Huniq Hpost Hj. rewrite app_assoc, apply_writes_app.
  rewrite apply_writes_lookup_other.
  - rewrite apply_writes_app. apply apply_writes_lookup_unique; [done..|].
    by rewrite apply_writes_length.
  - intros w Hw. rewrite Z2Nat.id by lia. by apply Hpost.
Qed.

(** X25: the rules of the weather band and of the date header are
    whole.  On a canvas at least 292 rows high, whatever the weather,
    the days and the time, every pixel between the margins is black
    in the rows 180 to 182 and in the rows 250 and 251 of the buffer
    that [renderDisplay] returns: nothing that is drawn after a rule
    paints over it. *)
Theorem section_rules_whole (round_cos round_sin : Q → Q → Z → Z) (width height : Z)
    (weather : WeatherData) (days : list DayEvents) (generatedAt : DateView) (x y : Z) :
  292 ≤ height → MARGIN ≤ x < width - MARGIN →
  weatherSectionHeight ≤ y < weatherSectionHeight + 3
  ∨ dateSectionEnd ≤ y < dateSectionEnd + 2 →
  ∃ pixels,
    renderDisplay round_cos round_sin width height weather days generatedAt = Some pixels
    ∧ pixels !! Z.to_nat (y * width + x) = Some INK_BLACK.
Proof.
  unfold MARGIN, dateSectionEnd, weatherSectionHeight. intros Hh Hx Hy.
  unfold renderDisplay, newUint8Array.
  rewrite (proj2 (Z.ltb_ge (width * height) 0)) by nia.
  cbn [mbind option_bind]. eexists. split; [reflexivity|].
  rewrite length_replicate.
  pose proof (cell_in_range width height x y ltac:(lia) ltac:(lia)) as Hidx.
  assert (Hlater : ∀ w,
            w ∈ run_all round_cos round_sin width
                  (agenda_calls width height days ++ footer_calls width height generatedAt) →
            fst w ≠ y * width + x).
  { intros w. rewrite run_all_app. intros [Hw|Hw]%elem_of_app.
    - apply agenda_stores in Hw as (px & py & -> & Hpx & Hpy).
      unfold dateSectionEnd, weatherSectionHeight in Hpy.
      intros Heq. apply cell_inj in Heq as [-> ->]; lia.
    - apply footer_rows in Hw.
      assert ((y + 1) * width ≤ (height - 40) * width)
        by (apply Z.mul_le_mono_nonneg_r; lia).
      lia. }
  unfold render_writes, render_calls, date_calls, weather_rule, dateSectionEnd,
    weatherSectionHeight, MARGIN. cbv zeta.
  destruct Hy as [Hy|Hy].
  - match goal with |- context [weather_calls weather ++ [?rule] ++ ?later] =>
      rewrite (run_all_app _ _ _ (weather_calls weather) ([rule] ++ later)),
        (run_all_app _ _ _ [rule] later)
    end.
    apply (apply_writes_last _ _ _ _ _ INK_BLACK).
    + apply list_elem_of_bind. eexists. split; [|apply list_elem_of_here].
      cbn [run]. unfold drawHLine. apply fillRect_elem_iff; lia.
    + intros w (c & Hw & Hc%list_elem_of_singleton)%list_elem_of_bind _. subst c.
      by apply drawHLine_elem in Hw as (px & py & (-> & _) & _).
    + intros w (c & Hw & Hc)%list_elem_of_bind.
      apply elem_of_cons in Hc as [->|Hc]; [|apply elem_of_cons in Hc as [->|Hc]].
      * cbn [run] in Hw. apply drawText_elem in Hw as (px & py & (-> & ? & ?) & ?).
        simpl. intros Heq. apply cell_inj in Heq as [-> ->]; lia.
      * cbn [run] in Hw.
        apply drawHLine_elem in Hw as (px & py & (-> & ? & ?) & _ & ? & _).
        simpl. intros Heq. apply cell_inj in Heq as [-> ->]; lia.
      * apply Hlater, list_elem_of_bind. eauto.
    + rewrite length_replicate. lia.
  - match goal with
    | |- context [weather_calls weather ++ [?rule] ++ [?text; ?rule2] ++ ?later] =>
      replace (weather_calls weather ++ [rule] ++ [text; rule2] ++ later)
        with ((weather_calls weather ++ [rule; text]) ++ [rule2] ++ later)
        by (by rewrite <- app_assoc);
      rewrite (run_all_app _ _ _ (weather_calls weather ++ [rule; text]) ([rule2] ++ later)),
        (run_all_app _ _ _ [rule2] later)
    end.
    apply (apply_writes_last _ _ _ _ _ INK_BLACK).
    + apply list_elem_of_bind. eexists. split; [|apply list_elem_of_here].
      cbn [run]. unfold drawHLine. apply fillRect_elem_iff; lia.
    + intros w (c & Hw & Hc%list_elem_of_singleton)%list_elem_of_bind _. subst c.
      by apply drawHLine_elem in Hw as (px & py & (-> & _) & _).
    + apply Hlater.
    + rewrite length_replicate. lia.
Qed.

Lemma section_rules_whole_witness :
  ∃ pixels,
    renderDisplay sample_round_cos sample_round_sin 480 800 sample_weather
      [sample_busy_day; sample_next_day] sample_date = Some pixels
    ∧ pixels !! Z.to_nat (181 * 480 + 240) = Some INK_BLACK.
Proof.
  apply (section_rules_whole sample_round_cos sample_round_sin 480 800 sample_weather
           [sample_busy_day; sample_next_day] sample_date 240 181);
    unfold MARGIN, weatherSectionHeight; lia.
Defined.

(** ** How many events a canvas can show *)

Lemma row_capacity_mono maxY y y' :
  y ≤ y' → row_capacity maxY y' ≤ row_capacity maxY y.
Proof.
  intros Hy. unfold row_capacity, eventRowHeight. rewrite !Z.gtb_ltb.
  destruct (Z.ltb_spec maxY (y' + 30)), (Z.ltb_spec maxY (y + 30)); try lia.
  - assert (0 ≤ (maxY - 30 - y) / 45) by (apply Z.div_pos; lia). lia.
  - assert ((maxY - 30 - y') / 45 ≤ (maxY - 30 - y) / 45)
      by (apply Z.div_le_mono; lia).
    lia.
Qed.

Lemma event_calls_titles width maxY isToday total e idx y :
  List.filter is_title (event_calls width maxY isToday total e idx y)
  = [DrawText (MARGIN + timeColumnWidth) y
       (truncateTitle (width - MARGIN * 2 - timeColumnWidth - 10) (title e))
       (if isToday then INK_BLACK else DARK_GRAY) 2].
Proof.
  unfold event_calls. cbv zeta.
  destruct isToday, ((idx <? total - 1) && (y + 26 + eventRowHeight <=? maxY));
    reflexivity.
Qed.

Lemma paint_all_titles width maxY isToday total evs idx y :
  length (List.filter is_title (paint_all width maxY isToday total evs idx y))
  = length evs.
Proof.
  revert idx y. induction evs as [|e evs IH]; intros idx y; cbn [paint_all]; [done|].
  rewrite List.filter_app, event_calls_titles, length_app, IH. reflexivity.
Qed.

Lemma day_header_titles width day idx y :
  List.filter is_title (day_header_calls width day idx y) = [].
Proof.
  unfold day_header_calls.
  destruct (idx =? 0), (bool_decide (label day = js "TODAY")); reflexivity.
Qed.

Lemma renderDays_titles width maxY days idx y :
  Z.of_nat (length (List.filter is_title (renderDays width maxY days idx y)))
  ≤ row_capacity maxY (y + (dayHeaderHeight - 5)).
Proof.
  revert idx y. induction days as [|d days IH]; intros idx y.
  { simpl. apply row_capacity_nonneg. }
  destruct (Z.le_gt_cases (y + (dayHeaderHeight + eventRowHeight)) maxY) as [Hy|Hy].
  2: { rewrite renderDays_no_space by lia. simpl. apply row_capacity_nonneg. }
  rewrite renderDays_step by done. cbv zeta.
  rewrite List.filter_app, day_header_titles. cbn [app].
  set (y2 := (if idx =? 0 then y else y + 15) + (dayHeaderHeight - 5)).
  assert (Hy2 : y + (dayHeaderHeight - 5) ≤ y2) by (subst y2; case_match; lia).
  pose proof (row_capacity_mono maxY _ _ Hy2) as Hmono.
  pose proof (painted_capacity maxY (events d) y2) as Hp.
  destruct (decide (length (events d) = O)) as [Hn|Hn];
    [|destruct (decide (_ < _)%nat) as [Hlt|Hge]].
  - cbn [List.filter is_title]. unfold LIGHT_GRAY at 1. cbn [Z.eqb Pos.eqb negb andb].
    rewrite andb_false_r.
    etrans; [apply IH|]. etrans; [|exact Hmono].
    apply row_capacity_mono. unfold dayHeaderHeight, eventRowHeight. lia.
  - rewrite List.filter_app, length_app, paint_all_titles, length_take. simpl. lia.
  - rewrite List.filter_app, length_app, paint_all_titles, Nat2Z.inj_add.
    assert (Hall : Z.of_nat (length (events d)) ≤ row_capacity maxY y2) by lia.
    etrans; [apply Z.add_le_mono_l, IH|].
    set (n := Z.of_nat (length (events d))) in *.
    assert (Hstep : ∀ k, 0 ≤ k → k ≤ row_capacity maxY y2 →
              row_capacity maxY (y2 + eventRowHeight * k) = row_capacity maxY y2 - k).
    { intros k Hk. pattern k. apply natlike_ind; [| |exact Hk].
      - intros _. rewrite Z.mul_0_r, Z.add_0_r. lia.
      - intros j Hj IHj Hle.
        assert (Hfit : y2 + eventRowHeight * j + 30 ≤ maxY).
        { destruct (Z.le_gt_cases (y2 + eventRowHeight * j + 30) maxY) as [?|Hgt]; [done|].
          assert (row_capacity maxY (y2 + eventRowHeight * j) = 0).
          { unfold row_capacity. by rewrite (proj2 (Z.gtb_gt _ _)) by lia. }
          lia. }
        pose proof (row_capacity_step maxY (y2 + eventRowHeight * j) Hfit) as Hs.
        replace (y2 + eventRowHeight * Z.succ j)
          with (y2 + eventRowHeight * j + eventRowHeight) by lia.
        lia. }
    pose proof (Hstep n ltac:(lia) Hall) as Hend.
    assert (row_capacity maxY (y2 + eventRowHeight * n + (dayHeaderHeight - 5))
            ≤ row_capacity maxY (y2 + eventRowHeight * n))
      by (apply row_capacity_mono; unfold dayHeaderHeight; lia).
    lia.
Qed.

(** X26: how many events a canvas can show.  Whatever the days, the
    agenda draws at most [floor((height - 385) / 45) + 1] event
    titles in all (none below a height of 385): the first event row
    is row 305, the rows are 45 apart and the last one must end 30
    rows above the footer area.  On the default canvas of 800 rows
    that is ten events. *)
Theorem agenda_event_limit (width height : Z) (days : list DayEvents) :
  Z.of_nat (length (List.filter is_title (agenda_calls width height days)))
  ≤ row_capacity (height - FOOTER_HEIGHT) (dateSectionEnd + 20 + (dayHeaderHeight - 5))
  ∧ row_capacity (height - FOOTER_HEIGHT) (dateSectionEnd + 20 + (dayHeaderHeight - 5))
    = (if decide (height < 385) then 0 else (height - 385) / 45 + 1)
  ∧ row_capacity (800 - FOOTER_HEIGHT) (dateSectionEnd + 20 + (dayHeaderHeight - 5)) = 10.
Proof.
  split; [apply renderDays_titles|]. split; [|reflexivity].
  unfold row_capacity, FOOTER_HEIGHT, dateSectionEnd, weatherSectionHeight,
    dayHeaderHeight, eventRowHeight.
  rewrite Z.gtb_ltb. case_decide.
  - by rewrite (proj2 (Z.ltb_lt _ _)) by lia.
  - rewrite (proj2 (Z.ltb_ge _ _)) by lia. do 2 f_equal. lia.
Qed.

(** ** The shape of the font *)

Lemma assoc_Some_elem k tbl v : assoc k tbl = Some v → (k, v) ∈ tbl.
Proof.
  induction tbl as [|[k' v'] tbl IH]; simpl; [discriminate|].
  destruct (Z.eqb_spec k k') as [->|Hne].
  - intros [= ->]. apply list_elem_of_here.
  - intros Hv. apply list_elem_of_further. auto.
Qed.

(** Every glyph of the table has twelve rows; each row is below
    [0x80] and the rows 8 to 11 are blank. *)
Lemma font_rows char data :
  FONT_DATA char = Some data →
  length data = 12%nat
  ∧ Forall (fun r => 0 ≤ r < 0x80) data
  ∧ drop 8 data = [0; 0; 0; 0].
Proof.
  destruct char as [|c [|? ?]]; try discriminate. unfold FONT_DATA.
  intros Hdata%assoc_Some_elem.
  assert (Hall : forallb (fun entry =>
            (length (snd entry) =? 12)%nat
            && forallb (fun r => (0 <=? r) && (r <? 0x80)) (snd entry)
            && forallb (Z.eqb 0) (drop 8 (snd entry))
            && (length (drop 8 (snd entry)) =? 4)%nat) FONT_TABLE = true)
    by (vm_compute; reflexivity).
  apply list_elem_of_In in Hdata.
  apply (proj1 (forallb_forall _ _) Hall) in Hdata. simpl in Hdata.
  apply andb_true_iff in Hdata as [Hdata Hn4].
  apply andb_true_iff in Hdata as [Hdata Hzero].
  apply andb_true_iff in Hdata as [Hlen Hrows].
  apply Nat.eqb_eq in Hlen. apply Nat.eqb_eq in Hn4.
  split; [done|]. split.
  - apply list.Forall_forall. intros r Hr%list_elem_of_In.
    apply (proj1 (forallb_forall _ _) Hrows) in Hr. guards. lia.
  - destruct (drop 8 data) as [|a [|b [|c' [|d [|? ?]]]]]; try discriminate.
    cbn [forallb] in Hzero. guards. by subst.
Qed.

(** X27: the shape of the font.  Every glyph has twelve rows of which
    only the first eight can hold ink, so the eight-row loop of
    [drawChar] draws each glyph in full; and no row has its top bit
    set, so [drawChar] never stores in the first [scale] columns of a
    cell: every store lies in the columns [x + scale] to
    [x + 8 * scale - 1], which keeps neighbouring characters apart. *)
Theorem glyph_shape (width x y : Z) (char : jsstring) (color scale : Z) :
  (∀ data, FONT_DATA char = Some data →
           length data = 12%nat ∧ drop 8 data = [0; 0; 0; 0])
  ∧ ∀ w, w ∈ drawChar width x y char color scale →
         ∃ px py, w = (py * width + px, color)
                  ∧ x + scale ≤ px < x + 8 * scale ∧ y ≤ py < y + 8 * scale.
Proof.
  split.
  - intros data Hdata. by destruct (font_rows char data Hdata) as (? & _ & ?).
  - unfold drawChar. destruct (FONT_DATA char) as [data|] eqn:Hdata;
      [|by intros w ?%elem_of_nil].
    destruct (font_rows char data Hdata) as (Hlen & Hrows & _).
    intros w (row & Hw & Hrow%elem_of_seqZ)%list_elem_of_bind.
    apply list_elem_of_bind in Hw as (col & Hw & Hcol%elem_of_seqZ).
    destruct (Z.land _ _ =? 0) eqn:Hbit; [by apply elem_of_nil in Hw|].
    rewrite glyph_mask_bit in Hbit by lia. apply negb_false_iff in Hbit.
    assert (Hcol0 : col ≠ 0).
    { intros ->. change (7 - 0) with 7 in Hbit.
      assert (Hr : 0 ≤ nth (Z.to_nat row) data 0 < 0x80).
      { apply (proj1 (list.Forall_forall _ _) Hrows), list_elem_of_In, nth_In. lia. }
      destruct (decide (nth (Z.to_nat row) data 0 = 0)) as [Hz|Hnz].
      - rewrite Hz, Z.bits_0 in Hbit. discriminate.
      - rewrite Z.bits_above_log2 in Hbit; [discriminate|lia|].
        apply Z.log2_lt_pow2; lia. }
    apply list_elem_of_bind in Hw as (sy & Hw & Hsy%elem_of_seqZ).
    apply list_elem_of_bind in Hw as (sx & Hw & Hsx%elem_of_seqZ).
    destruct (_ && _); [|by apply elem_of_nil in Hw].
    apply list_elem_of_singleton in Hw. subst w.
    eexists _, _. split; [reflexivity|]. nia.
Qed.

(** ** An agenda that fits *)

Lemma paint_all_title_texts width maxY isToday total evs idx y :
  call_text <$> List.filter is_title (paint_all width maxY isToday total evs idx y)
  = (fun e => truncateTitle (width - MARGIN * 2 - timeColumnWidth - 10) (title e)) <$> evs.
Proof.
  revert idx y. induction evs as [|e evs IH]; intros idx y; cbn [paint_all]; [done|].
  rewrite List.filter_app, event_calls_titles, fmap_app, IH. reflexivity.
Qed.

Lemma days_height_nonneg days idx : 0 ≤ days_height days idx.
Proof.
  revert idx. induction days as [|d days IH]; intros idx; cbn [days_height]; [lia|].
  specialize (IH (idx + 1)). unfold dayHeaderHeight, eventRowHeight.
  case_match; lia.
Qed.

Lemma renderDays_fits width maxY days idx y :
  y + days_height days idx + 5 ≤ maxY →
  List.filter is_marker (renderDays width maxY days idx y) = []
  ∧ call_text <$> List.filter is_title (renderDays width maxY days idx y)
    = (fun e => truncateTitle (width - MARGIN * 2 - timeColumnWidth - 10) (title e))
      <$> concat (events <$> days).
Proof.
  revert idx y. induction days as [|d days IH]; intros idx y Hfit; [done|].
  cbn [days_height] in Hfit.
  pose proof (days_height_nonneg days (idx + 1)) as Hrest.
  set (n := length (events d)) in *.
  set (y2 := (if idx =? 0 then y else y + 15) + (dayHeaderHeight - 5)).
  assert (Hy2 : y2 = y + (if idx =? 0 then 0 else 15) + (dayHeaderHeight - 5))
    by (subst y2; case_match; lia).
  rewrite renderDays_step
    by (unfold dayHeaderHeight, eventRowHeight in *; case_match; lia).
  cbv zeta. fold n y2.
  rewrite !List.filter_app, day_header_no_marker, day_header_titles. cbn [app].
  cbn [fmap list_fmap concat].
  assert (Hlen : n = length (events d)) by done.
  clearbody y2 n. unfold dayHeaderHeight, eventRowHeight in *.
  destruct (decide (n = O)) as [Hn|Hn].
  - assert (Hnil : events d = []) by (apply nil_length_inv; congruence).
    rewrite Hnil. cbn [app].
    destruct (IH (idx + 1) (y2 + 45)) as [Hm Ht]; [rewrite Hn in Hfit; lia|].
    cbn [List.filter is_marker is_title]. unfold MARGIN, timeColumnWidth, LIGHT_GRAY at 1 2.
    cbn [Z.eqb Z.add Pos.add Pos.succ Pos.eqb negb andb]. done.
  - assert (Hall : ¬ (painted maxY (events d) y2 < n)%nat).
    { pose proof (painted_capacity maxY (events d) y2) as Hp. rewrite <- Hlen in Hp.
      assert (Z.of_nat n ≤ row_capacity maxY y2); [|lia].
      unfold row_capacity, eventRowHeight in *.
      rewrite Z.gtb_ltb, (proj2 (Z.ltb_ge _ _)) by lia.
      assert (Z.of_nat n - 1 ≤ (maxY - 30 - y2) / 45); [|lia].
      apply Z.div_le_lower_bound; lia. }
    rewrite decide_False by done.
    rewrite !List.filter_app, paint_all_no_marker, fmap_app, paint_all_title_texts.
    destruct (IH (idx + 1) (y2 + 45 * Z.of_nat n)) as [Hm Ht]; [lia|].
    rewrite Hm, Ht, fmap_app. done.
Qed.

(** X28: an agenda that fits is painted in full.  Count 35 rows for
    the label of each day, 15 for the separator of every day but the
    first, and 45 for each event or for "No events".  When that sum
    is at most [height - 325] (the 270 rows above the agenda, the 50
    of the footer and 5 more), the agenda has no overflow marker and
    the titles it paints are the truncated titles of all events of
    all days, in order. *)
Theorem agenda_fits (width height : Z) (days : list DayEvents) :
  days_height days 0 ≤ height - 325 →
  List.filter is_marker (agenda_calls width height days) = []
  ∧ call_text <$> List.filter is_title (agenda_calls width height days)
    = (fun e => truncateTitle (width - 158) (title e)) <$> concat (events <$> days).
Proof.
  intros Hfit. unfold agenda_calls.
  destruct (renderDays_fits width (height - FOOTER_HEIGHT) days 0 (dateSectionEnd + 20))
    as [Hm Ht].
  - unfold FOOTER_HEIGHT, dateSectionEnd, weatherSectionHeight. lia.
  - split; [done|]. rewrite Ht. unfold MARGIN, timeColumnWidth.
    by replace (width - 24 * 2 - 100 - 10) with (width - 158) by lia.
Qed.

Lemma agenda_fits_witness :
  List.filter is_marker (agenda_calls 480 800 (getMockEvents 0)) = []
  ∧ call_text <$> List.filter is_title (agenda_calls 480 800 (getMockEvents 0))
    = (fun e => truncateTitle (480 - 158) (title e))
      <$> concat (events <$> getMockEvents 0).
Proof.
  apply (agenda_fits 480 800 (getMockEvents 0)). by vm_compute.
Defined.

(** ** What the weather cannot change *)

Section WeatherFrame.

Context (round_cos round_sin : Q → Q → Z → Z).

Hypothesis round_cos_bound : ∀ c r deg,
  (0 <= r)%Q → (c - r - 1 <= inject_Z (round_cos c r deg) <= c + r + 1)%Q.
Hypothesis round_sin_bound : ∀ c r deg,
  (0 <= r)%Q → (c - r - 1 <= inject_Z (round_sin c r deg) <= c + r + 1)%Q.

(** On a canvas seven pixels wide or more, the weather band stores
    above row 110. *)
Lemma weather_stores width weather w :
  7 ≤ width →
  w ∈ run_all round_cos round_sin width (weather_calls weather) →
  fst w < 110 * width.
Proof.
  intros Hwidth (c & Hw & Hc)%list_elem_of_bind.
  unfold weather_calls, MARGIN in Hc. cbv zeta in Hc.
  elem_inv; subst c; cbn [run] in Hw;
    try (apply drawText_elem in Hw as (px & py & (-> & ? & ?) & ?); simpl; nia).
  apply (drawWeatherIcon_elem round_cos round_sin round_cos_bound round_sin_bound)
    in Hw as (px & py & -> & ? & ?).
  nia.
Qed.

(** X29: what the weather cannot change.  On a canvas seven pixels
    wide or more, with the same days and time, two renders agree,
    whatever their weather, on every pixel from row 110 on: the rule
    of the weather band, the date header, the agenda and the footer
    do not depend on the weather. *)
Theorem weather_frame (width height : Z) (weather1 weather2 : WeatherData)
    (days : list DayEvents) (generatedAt : DateView) (x y : Z) :
  7 ≤ width → 0 ≤ x < width → 110 ≤ y →
  match renderDisplay round_cos round_sin width height weather1 days generatedAt,
        renderDisplay round_cos round_sin width height weather2 days generatedAt with
  | Some pixels1, Some pixels2 =>
      load pixels1 (y * width + x) = load pixels2 (y * width + x)
  | None, None => True
  | _, _ => False
  end.
Proof.
  intros Hwidth Hx Hy. unfold renderDisplay, newUint8Array.
  destruct (width * height <? 0); simpl; [done|].
  unfold load. case_match; [|done]. guards.
  unfold render_writes, render_calls.
  assert (Hskip : ∀ weather a later,
    apply_writes a (run_all round_cos round_sin width (weather_calls weather ++ later))
      !! Z.to_nat (y * width + x)
    = apply_writes a (run_all round_cos round_sin width later)
        !! Z.to_nat (y * width + x)).
  { intros weather a later. rewrite run_all_app.
    apply (apply_writes_skip a [] _ _).
    intros w Hw%weather_stores; [|done]. rewrite Z2Nat.id by lia. nia. }
  by rewrite !Hskip.
Qed.

End WeatherFrame.

Lemma weather_frame_witness :
  match renderDisplay sample_round_cos sample_round_sin 480 800 sample_weather
          [sample_busy_day] sample_date,
        renderDisplay sample_round_cos sample_round_sin 480 800 (fetchWeather None)
          [sample_busy_day] sample_date with
  | Some pixels1, Some pixels2 =>
      load pixels1 (300 * 480 + 50) = load pixels2 (300 * 480 + 50)
  | None, None => True
  | _, _ => False
  end.
Proof.
  apply (weather_frame sample_round_cos sample_round_sin
           sample_round_cos_bound sample_round_sin_bound 480 800 sample_weather
           (fetchWeather None) [sample_busy_day] sample_date 50 300); lia.
Defined.
